(** * kuegi_bot.trade_engine: the live trading engine

    A shallow embedding of [src/kuegi_bot/trade_engine.py] (class
    [LiveTrading]) and the properties of its bar merge, its account
    reconciliation and its scheduling loop.

    Conventions.  Timestamps, prices and amounts are integers ([Z]); wall
    clock readings are rationals ([Q]).  Python lists are Rocq lists in the
    same index order, so [subbars b] has index 0 first and the Python
    expression [l[-1]] is the last element of the list. *)

From Stdlib Require Import List ZArith QArith Bool String Lia Lqa.
Import ListNotations.

Open Scope Z_scope.

(** ** Python list idioms *)

(** [l[-1]]: the last element; [None] stands for the [IndexError] Python
    raises on an empty list. *)
Definition py_last {A : Type} (l : list A) : option A := hd_error (rev l).

(** [l[:-1]]: everything but the last element (empty on an empty list). *)
Definition py_init {A : Type} (l : list A) : list A := removelast l.

(** ** Data model (kuegi_bot.utils.trading_classes) *)

Module Bars.

(** A sub-interval sample of a bucket.  In the Python code a subbar is
    itself a [Bar] without subbars; only these fields are ever read. *)
Record Subbar : Type := mkSubbar {
  sub_tstamp : Z;
  sub_open : Z;
  sub_high : Z;
  sub_low : Z;
  sub_close : Z;
  sub_volume : Z
}.

Record Bar : Type := mkBar {
  tstamp : Z;
  open : Z;
  high : Z;
  low : Z;
  close : Z;
  volume : Z;
  subbars : list Subbar;
  did_change : bool
}.

(** The constructor call [Bar(tstamp=.., open=.., .., subbars=[first])] of
    the merge branch; a freshly built bar is marked as changed. *)
Definition new_bar (ts : Z) (first : Subbar) : Bar :=
  {| tstamp := ts;
     open := sub_open first;
     high := sub_high first;
     low := sub_low first;
     close := sub_close first;
     volume := sub_volume first;
     subbars := [first];
     did_change := true |}.

(** Modelled from the spec: [Bar.add_subbar] lives in
    [kuegi_bot/utils/trading_classes.py], which is not part of the sources
    at hand.  The merge keeps [subbars[-1]] as the bucket's opening sample
    and reads [subbars[0]] as the running newest sample, so a subbar is
    added at the front; the bar's high, low, close and volume follow the
    added sample and the bar is marked as changed. *)
Definition add_subbar (nb : Bar) (sub : Subbar) : Bar :=
  {| tstamp := tstamp nb;
     open := open nb;
     high := Z.max (high nb) (sub_high sub);
     low := Z.min (low nb) (sub_low sub);
     close := sub_close sub;
     volume := volume nb + sub_volume sub;
     subbars := sub :: subbars nb;
     did_change := true |}.

(** ** update_bars: the merge of one incoming bar (lines 112-136) *)

(** First inner loop (lines 124-128), over [reversed(head.subbars[:-1])]:
    add the head's own samples while they are older than the incoming bar's
    oldest sample, [break] at the first that is not. *)
Fixpoint add_older (limit : Z) (subs : list Subbar) (nb : Bar) : Bar :=
  match subs with
  | [] => nb
  | sub :: rest =>
      if sub_tstamp sub <? limit
      then add_older limit rest (add_subbar nb sub)
      else nb
  end.

(** Second inner loop (lines 129-133), over [reversed(b.subbars)]: add every
    sample that is newer than the new bar's current [subbars[0]], skip
    ([continue]) the others. *)
Fixpoint add_newer (subs : list Subbar) (nb : Bar) : option Bar :=
  match subs with
  | [] => Some nb
  | sub :: rest =>
      match subbars nb with
      | [] => None
      | newest :: _ =>
          if sub_tstamp sub >? sub_tstamp newest
          then add_newer rest (add_subbar nb sub)
          else add_newer rest nb
      end
  end.

(** The [merge!] branch (lines 120-134). *)
Definition merge_bars (head b : Bar) (blast : Subbar) : option Bar :=
  match py_last (subbars head) with
  | None => None
  | Some first =>
      let newBar := new_bar (tstamp b) first in
      let newBar := add_older (sub_tstamp blast)
                              (rev (py_init (subbars head))) newBar in
      add_newer (rev (subbars b)) newBar
  end.

(** The branch for an incoming bar of the head's bucket (lines 116-134):
    the replacement of [self.bars[0]], or [None] for the [IndexError] of a
    [subbars[-1]] on an empty list. *)
Definition refine_head (head b : Bar) : option Bar :=
  match py_last (subbars b), py_last (subbars head) with
  | Some blast, Some hlast =>
      if sub_tstamp blast =? sub_tstamp hlast
      then Some b
      else merge_bars head b blast
  | _, _ => None
  end.

(** One iteration of the loop over the incoming bars (lines 112-136).
    [None]: the iteration raised and left [self.bars] as it was. *)
Definition merge_step (bars : list Bar) (b : Bar) : option (list Bar) :=
  match bars with
  | [] => None
  | head :: older =>
      if tstamp b <? tstamp head then Some bars
      else if tstamp b =? tstamp head then
        match refine_head head b with
        | Some h' => Some (h' :: older)
        | None => None
        end
      else Some (b :: bars)
  end.

(** The loop itself over an already reversed batch.  [self.bars] is updated
    in place, so an iteration that raises leaves the bars of the iterations
    before it: the result is the stored sequence and whether the loop ran to
    its end. *)
Fixpoint merge_loop (bars : list Bar) (batch : list Bar) : list Bar * bool :=
  match batch with
  | [] => (bars, true)
  | b :: rest =>
      match merge_step bars b with
      | Some bars' => merge_loop bars' rest
      | None => (bars, false)
      end
  end.

(** [for b in reversed(new_bars): ...] *)
Definition merge_incremental (bars new_bars : list Bar) : list Bar * bool :=
  merge_loop bars (rev new_bars).

End Bars.

(** ** Orders and the account *)

Module Accounts.

Inductive Side : Type := Buy | Sell.

(** Modelled from the spec: the classes [Order] and [Account] live in
    [kuegi_bot/utils/trading_classes.py], which is not part of the sources
    at hand.  An order has an identifier (the empty string until the venue
    assigns one), a side, a price, a quantity, the [active] flag and what
    was executed. *)
Record Order : Type := mkOrder {
  id : string;
  side : Side;
  price : Z;
  quantity : Z;
  active : bool;
  executed_amount : Z;
  executed_price : option Z
}.

(** Modelled from the spec: the account holds a balance that the gateway
    fills in, the open orders and the append-only order history.  Both are
    Python lists in the code. *)
Record Account : Type := mkAccount {
  balance : Z;
  open_orders : list Order;
  order_history : list Order
}.

(** [Account()] *)
Definition new_account : Account :=
  {| balance := 0; open_orders := []; order_history := [] |}.

(** What the log line of line 98 says about an order that left the open
    set: ["executed" if o.executed_amount != 0 else "canceled"]. *)
Inductive Outcome : Type := Executed | Canceled.

Definition outcome (o : Order) : Outcome :=
  if negb (executed_amount o =? 0) then Executed else Canceled.

(** The log line ["order %s got %s @ %s"]. *)
Record OrderLine : Type := mkOrderLine {
  line_id : string;
  line_outcome : Outcome;
  line_price : option Z
}.

Definition order_line (o : Order) : OrderLine :=
  {| line_id := id o; line_outcome := outcome o; line_price := executed_price o |}.

(** [o.id in prevOpenIds] *)
Definition id_in (i : string) (ids : list string) : bool :=
  existsb (String.eqb i) ids.

(** Lines 89-91: the ids of the orders that were open. *)
Fixpoint collect_ids (orders : list Order) (prevOpenIds : list string) : list string :=
  match orders with
  | [] => prevOpenIds
  | o :: rest => collect_ids rest (prevOpenIds ++ [id o])
  end.

(** Lines 94-103: the loop over the fresh snapshot, with the account and the
    log lines written so far as its state. *)
Fixpoint reconcile (prevOpenIds : list string) (orders : list Order)
    (acc : Account) (lines : list OrderLine) : Account * list OrderLine :=
  match orders with
  | [] => (acc, lines)
  | o :: rest =>
      if active o then
        reconcile prevOpenIds rest
          {| balance := balance acc;
             open_orders := open_orders acc ++ [o];
             order_history := order_history acc |} lines
      else if (0 <? String.length (id o))%nat && id_in (id o) prevOpenIds then
        reconcile prevOpenIds rest
          {| balance := balance acc;
             open_orders := open_orders acc;
             order_history := order_history acc ++ [o] |}
          (lines ++ [order_line o])
      else reconcile prevOpenIds rest acc lines
  end.

Definition Side_eq_dec (a b : Side) : {a = b} + {a <> b}.
Proof. decide equality. Defined.

Definition Order_eq_dec (a b : Order) : {a = b} + {a <> b}.
Proof.
  decide equality;
    auto using Z.eq_dec, Bool.bool_dec, string_dec, Side_eq_dec.
  decide equality; apply Z.eq_dec.
Defined.

(** An inactive order that the loop moves to the history. *)
Definition leaves_open_set (prevOpenIds : list string) (o : Order) : bool :=
  negb (active o) && ((0 <? String.length (id o))%nat && id_in (id o) prevOpenIds).

End Accounts.

(** ** The engine *)

Module Engine.

Import Bars Accounts.

(** Exceptions that cross the engine.  [AuthenticationError], [IndexError]
    and [OtherException] derive from Python's [Exception];
    [KeyboardInterrupt] and [SystemExit] derive from [BaseException] only. *)
Inductive exn : Type :=
| AuthenticationError
| IndexError
| OtherException (msg : string)
| KeyboardInterrupt
| SystemExit.

(** What an [except Exception] clause catches. *)
Definition is_Exception (e : exn) : bool :=
  match e with
  | KeyboardInterrupt | SystemExit => false
  | _ => true
  end.

Inductive Res (A : Type) : Type :=
| Val (a : A)
| Raise (e : exn).
Arguments Val {A} a.
Arguments Raise {A} e.

(** Modelled from the spec: static per-session instrument metadata. *)
Record Symbol : Type := mkSymbol {
  symbol_name : string;
  tick_size : Z;
  multiplier : Z
}.

(** The capability the engine consumes ([ExchangeInterface]).  [W] is the
    state of everything outside the engine; a call returns a value or
    raises, and moves that state on. *)
Class ExchangeInterface (W : Type) : Type := {
  ex_is_open : W -> Res bool * W;
  ex_get_instrument : W -> Res Symbol * W;
  ex_get_bars : Z -> Z -> W -> Res (list Bar) * W;
  ex_recent_bars : Z -> Z -> W -> Res (list Bar) * W;
  ex_update_account : Account -> W -> Res Z * W;
  ex_get_orders : W -> Res (list Order) * W;
  ex_send_order : Order -> W -> Res unit * W;
  ex_update_order : Order -> W -> Res unit * W;
  ex_cancel_order : string -> W -> Res unit * W;
  ex_check_market_open : W -> Res unit * W;
  ex_exit : W -> Res unit * W
}.

(** A run of one callback of the strategy.  Line 41 hands the strategy the
    engine as its order interface and the engine's logger, so while a
    callback runs it may send, amend and cancel orders through the engine
    and write log lines; it sees what each of these calls returns or raises
    and goes on from there.  Each node carries the outside world as the
    strategy leaves it at that point. *)
Inductive BotRun (W A : Type) : Type :=
| BotReturns (r : Res A) (w : W)
| BotSends (o : Order) (w : W) (k : Res unit -> W -> BotRun W A)
| BotUpdates (o : Order) (w : W) (k : Res unit -> W -> BotRun W A)
| BotCancels (orderId : string) (w : W) (k : Res unit -> W -> BotRun W A)
| BotLogs (line : string) (k : BotRun W A).
Arguments BotReturns {W A} r w.
Arguments BotSends {W A} o w k.
Arguments BotUpdates {W A} o w k.
Arguments BotCancels {W A} orderId w k.
Arguments BotLogs {W A} line k.

(** The strategy the engine calls into ([TradingBot]). *)
Class TradingBot (W : Type) : Type := {
  bot_prepare : W -> BotRun W unit;
  bot_reset : W -> BotRun W unit;
  bot_init : list Bar -> Account -> Symbol -> string -> W -> BotRun W unit;
  bot_on_tick : list Bar -> Account -> W -> BotRun W unit
}.

(** Calls that leave the engine, in the order they are made. *)
Inductive event : Type :=
| CallIsOpen
| CallGetInstrument
| CallGetBars (minutes lookback : Z)
| CallRecentBars (minutes lookback : Z)
| CallUpdateAccount
| CallGetOrders
| CallSendOrder (o : Order)
| CallUpdateOrder (o : Order)
| CallCancelOrder (orderId : string)
| CallCheckMarketOpen
| CallExit
| BotPrepare
| BotReset
| BotInit
| BotOnTick.

Inductive log_entry : Type :=
| LogStarting
| LogOrder (line : OrderLine)
| LogShutdown
| LogNotAuthenticated
| LogUnableToExit (e : exn)
| LogTickException (e : exn)
| LogConnectionClosed
| LogStrategy (line : string).

Record Settings : Type := mkSettings {
  settings_id : string;
  MINUTES_PER_BAR : Z;
  LOOP_INTERVAL : Q
}.

(** The fields of a [LiveTrading] object, the outside world it talks to,
    and what it has called and logged so far. *)
Record LiveTrading (W : Type) : Type := mkLive {
  settings : Settings;
  last_tick : Q;
  alive : bool;
  symbolInfo : option Symbol;
  bars : list Bar;
  account : Account;
  env : W;
  calls : list event;
  logger : list log_entry
}.
Arguments mkLive {W}.
Arguments settings {W}.
Arguments last_tick {W}.
Arguments alive {W}.
Arguments symbolInfo {W}.
Arguments bars {W}.
Arguments account {W}.
Arguments env {W}.
Arguments calls {W}.
Arguments logger {W}.

(** The engine's two states. *)
Inductive EngineState : Type := Running | Stopped.

Definition engine_state {W : Type} (st : LiveTrading W) : EngineState :=
  if alive st then Running else Stopped.

(** *** A state and exception monad over the engine *)

Definition M (W A : Type) : Type := LiveTrading W -> Res A * LiveTrading W.

Definition ret {W A : Type} (a : A) : M W A := fun st => (Val a, st).

Definition raise {W A : Type} (e : exn) : M W A := fun st => (Raise e, st).

Definition bind {W A B : Type} (m : M W A) (k : A -> M W B) : M W B :=
  fun st =>
    match m st with
    | (Val a, st') => k a st'
    | (Raise e, st') => (Raise e, st')
    end.

Notation "x <- c1 ;; c2" := (bind c1 (fun x => c2))
  (at level 61, c1 at next level, right associativity).
Notation "c1 ;; c2" := (bind c1 (fun _ => c2))
  (at level 61, right associativity).

(** [try: m except Exception as e: h e]: an exception that does not derive
    from [Exception] passes the handler. *)
Definition try_except {W A : Type} (m : M W A) (h : exn -> M W A) : M W A :=
  fun st =>
    match m st with
    | (Val a, st') => (Val a, st')
    | (Raise e, st') => if is_Exception e then h e st' else (Raise e, st')
    end.

Definition get {W A : Type} (f : LiveTrading W -> A) : M W A :=
  fun st => (Val (f st), st).

Definition set_last_tick {W : Type} (v : Q) : M W unit := fun st =>
  (Val tt, mkLive (settings st) v (alive st) (symbolInfo st) (bars st)
                  (account st) (env st) (calls st) (logger st)).

Definition set_alive {W : Type} (v : bool) : M W unit := fun st =>
  (Val tt, mkLive (settings st) (last_tick st) v (symbolInfo st) (bars st)
                  (account st) (env st) (calls st) (logger st)).

Definition set_symbolInfo {W : Type} (v : Symbol) : M W unit := fun st =>
  (Val tt, mkLive (settings st) (last_tick st) (alive st) (Some v) (bars st)
                  (account st) (env st) (calls st) (logger st)).

Definition set_bars {W : Type} (v : list Bar) : M W unit := fun st =>
  (Val tt, mkLive (settings st) (last_tick st) (alive st) (symbolInfo st) v
                  (account st) (env st) (calls st) (logger st)).

Definition set_account {W : Type} (v : Account) : M W unit := fun st =>
  (Val tt, mkLive (settings st) (last_tick st) (alive st) (symbolInfo st)
                  (bars st) v (env st) (calls st) (logger st)).

Definition set_env {W : Type} (w : W) : M W unit := fun st =>
  (Val tt, mkLive (settings st) (last_tick st) (alive st) (symbolInfo st)
                  (bars st) (account st) w (calls st) (logger st)).

Definition log {W : Type} (l : list log_entry) : M W unit := fun st =>
  (Val tt, mkLive (settings st) (last_tick st) (alive st) (symbolInfo st)
                  (bars st) (account st) (env st) (calls st) (logger st ++ l)).

(** A call into the gateway: recorded, then run on the outside world. *)
Definition call {W A : Type} (ev : event) (f : W -> Res A * W) : M W A :=
  fun st =>
    let (r, w) := f (env st) in
    (r, mkLive (settings st) (last_tick st) (alive st) (symbolInfo st)
               (bars st) (account st) w (calls st ++ [ev]) (logger st)).

(** *** The methods of [LiveTrading] *)

(** [on_tick]: the push callback, given the clock reading it takes. *)
Definition on_tick {W : Type} (now : Q) : M W unit := set_last_tick now.

Definition send_order {W : Type} `{ExchangeInterface W} (o : Order) : M W unit :=
  call (CallSendOrder o) (ex_send_order o).

Definition update_order {W : Type} `{ExchangeInterface W} (o : Order) : M W unit :=
  call (CallUpdateOrder o) (ex_update_order o).

Definition cancel_order {W : Type} `{ExchangeInterface W} (orderId : string) : M W unit :=
  call (CallCancelOrder orderId) (ex_cancel_order orderId).

Definition sanity_check {W : Type} `{ExchangeInterface W} : M W unit :=
  call CallCheckMarketOpen ex_check_market_open.

(** A callback of the strategy as the engine runs it: the orders it hands
    to the relay go through [send_order], [update_order] and [cancel_order]
    above, its log lines into the engine's log. *)
Fixpoint run_bot {W A : Type} `{ExchangeInterface W} (p : BotRun W A) : M W A :=
  match p with
  | BotReturns r w => fun st => (r, snd (set_env w st))
  | BotSends o w k => fun st =>
      match send_order o (snd (set_env w st)) with
      | (r, st') => run_bot (k r (env st')) st'
      end
  | BotUpdates o w k => fun st =>
      match update_order o (snd (set_env w st)) with
      | (r, st') => run_bot (k r (env st')) st'
      end
  | BotCancels orderId w k => fun st =>
      match cancel_order orderId (snd (set_env w st)) with
      | (r, st') => run_bot (k r (env st')) st'
      end
  | BotLogs line k => fun st => run_bot k (snd (log [LogStrategy line] st))
  end.

(** A call into the strategy: recorded, then run. *)
Definition call_bot {W A : Type} `{ExchangeInterface W}
    (ev : event) (f : W -> BotRun W A) : M W A :=
  fun st =>
    run_bot (f (env st))
      (mkLive (settings st) (last_tick st) (alive st) (symbolInfo st)
              (bars st) (account st) (env st) (calls st ++ [ev]) (logger st)).

(** [update_account] (lines 86-103). *)
Definition update_account {W : Type} `{ExchangeInterface W} : M W unit :=
  acc <- get account ;;
  bal <- call CallUpdateAccount (ex_update_account acc) ;;
  set_account {| balance := bal;
                 open_orders := open_orders acc;
                 order_history := order_history acc |} ;;
  orders <- call CallGetOrders ex_get_orders ;;
  acc <- get account ;;
  let prevOpenIds := collect_ids (open_orders acc) [] in
  let cleared := {| balance := balance acc;
                    open_orders := [];
                    order_history := order_history acc |} in
  let (acc', lines) := reconcile prevOpenIds orders cleared [] in
  set_account acc' ;;
  log (map LogOrder lines).

(** [update_bars] (lines 105-136). *)
Definition update_bars {W : Type} `{ExchangeInterface W} : M W unit :=
  held <- get bars ;;
  minutes <- get (fun st => MINUTES_PER_BAR (settings st)) ;;
  if (List.length held <? 10)%nat then
    fetched <- call (CallGetBars minutes 0) (ex_get_bars minutes 0) ;;
    set_bars fetched
  else
    new_bars <- call (CallRecentBars minutes 0) (ex_recent_bars minutes 0) ;;
    let (merged, finished) := merge_incremental held new_bars in
    set_bars merged ;;
    if finished then ret tt else raise IndexError.

(** [check_connection] *)
Definition check_connection {W : Type} `{ExchangeInterface W} : M W bool :=
  call CallIsOpen ex_is_open.

(** [exit] (lines 142-152): the first clause catches
    [AuthenticationError], the second every other [Exception]. *)
Definition exit {W : Type} `{ExchangeInterface W} : M W unit :=
  up <- get alive ;;
  if negb up then ret tt
  else
    log [LogShutdown] ;;
    try_except (call CallExit ex_exit)
      (fun e => match e with
                | AuthenticationError => log [LogNotAuthenticated]
                | _ => log [LogUnableToExit e]
                end) ;;
    set_alive false.

(** [for bar in self.bars: bar.did_change = False] *)
Definition clear_changed (b : Bar) : Bar :=
  {| tstamp := tstamp b; open := open b; high := high b; low := low b;
     close := close b; volume := volume b; subbars := subbars b;
     did_change := false |}.

(** [handle_tick] (lines 154-163). *)
Definition handle_tick {W : Type} `{ExchangeInterface W} `{TradingBot W} : M W unit :=
  try_except
    (update_bars ;;
     update_account ;;
     bs <- get bars ;;
     acc <- get account ;;
     call_bot BotOnTick (bot_on_tick bs acc) ;;
     bs <- get bars ;;
     set_bars (map clear_changed bs))
    (fun e => log [LogTickException e] ;; raise e).

(** [__init__] (lines 18-50), from the point where the gateway object
    exists: the result is the object's state, and [Raise] when the
    constructor raised and no object was returned to the caller. *)
Definition init {W : Type} `{ExchangeInterface W} `{TradingBot W}
    (s : Settings) (w : W) : Res unit * LiveTrading W :=
  ( set_alive true ;;
    opened <- call CallIsOpen ex_is_open ;;
    if opened then
      log [LogStarting] ;;
      sym <- call CallGetInstrument ex_get_instrument ;;
      set_symbolInfo sym ;;
      call_bot BotPrepare bot_prepare ;;
      set_bars [] ;;
      update_bars ;;
      set_account new_account ;;
      update_account ;;
      call_bot BotReset bot_reset ;;
      bs <- get bars ;;
      acc <- get account ;;
      call_bot BotInit (bot_init bs acc sym (settings_id s))
    else set_alive false )
  (mkLive s 0%Q false None [] new_account w [] []).

(** *** The scheduling loop *)

Definition Qltb (x y : Q) : bool := negb (Qle_bool y x).

(** The condition of line 171; Python's [a < b < c] is [a < b and b < c]. *)
Definition trigger (loop_interval current last tick : Q) : bool :=
  Qltb loop_interval (current - last)
  || (Qltb last tick && Qltb tick (current - 2)).

(** What one evaluation of the loop reads from outside: the push callbacks
    that ran since the last evaluation (each with the clock reading it
    stored) and the two readings of [time.time()] of lines 168 and 172. *)
Record LoopInput : Type := mkLoopInput {
  pushes : list Q;
  current : Q;
  started : Q
}.

Fixpoint run_pushes {W : Type} (ps : list Q) : M W unit :=
  match ps with
  | [] => ret tt
  | p :: rest => on_tick p ;; run_pushes rest
  end.

(** The body of the [while] loop (lines 168-179); it returns the new value
    of the local [last]. *)
Definition loop_body {W : Type} `{ExchangeInterface W} `{TradingBot W}
    (i : LoopInput) (last : Q) : M W Q :=
  run_pushes (pushes i) ;;
  interval <- get (fun st => LOOP_INTERVAL (settings st)) ;;
  tick <- get last_tick ;;
  if trigger interval (current i) last tick then
    healthy <- check_connection ;;
    (if negb healthy then log [LogConnectionClosed] ;; exit else handle_tick) ;;
    ret (started i)
  else ret last.

(** [run_loop] over the evaluations it gets to make: the loop ends when
    [alive] is false, when an exception leaves it, or when the observed
    inputs end. *)
Fixpoint loop_from {W : Type} `{ExchangeInterface W} `{TradingBot W}
    (inputs : list LoopInput) (last : Q) : M W unit :=
  match inputs with
  | [] => ret tt
  | i :: rest =>
      up <- get alive ;;
      if up then
        last' <- loop_body i last ;;
        loop_from rest last'
      else ret tt
  end.

Definition run_loop {W : Type} `{ExchangeInterface W} `{TradingBot W}
    (inputs : list LoopInput) : M W unit :=
  loop_from inputs 0%Q.

End Engine.

(** ** Notions the properties are stated with *)

Module BarSpec.

Import Bars.

(** A bar's samples from the oldest to the newest: [reversed(b.subbars)]. *)
Definition olds (b : Bar) : list Subbar := rev (subbars b).

(** Timestamps that strictly increase along a list. *)
Fixpoint increasing (l : list Z) : Prop :=
  match l with
  | [] => True
  | x :: rest => Forall (fun y => x < y) rest /\ increasing rest
  end.

(** Timestamps that strictly decrease along a list. *)
Fixpoint decreasing (l : list Z) : Prop :=
  match l with
  | [] => True
  | x :: rest => Forall (fun y => y < x) rest /\ decreasing rest
  end.

(** A bar's samples are in order: strictly older towards the end of
    [subbars], the newest at index 0. *)
Definition subbars_ordered (b : Bar) : Prop :=
  increasing (map sub_tstamp (olds b)).

(** The timestamps of a bar's samples. *)
Definition sub_stamps (b : Bar) : list Z := map sub_tstamp (subbars b).

(** The stored sequence is newest first. *)
Definition buckets_ordered (bars : list Bar) : Prop :=
  decreasing (map tstamp bars).

(** The samples the first inner loop adds: the longest run from the start
    that is older than [limit]. *)
Fixpoint take_older (limit : Z) (subs : list Subbar) : list Subbar :=
  match subs with
  | [] => []
  | sub :: rest =>
      if sub_tstamp sub <? limit then sub :: take_older limit rest else []
  end.

(** The samples the second inner loop adds when the newest sample so far
    has timestamp [newest]. *)
Fixpoint take_newer (subs : list Subbar) (newest : Z) : list Subbar :=
  match subs with
  | [] => []
  | sub :: rest =>
      if sub_tstamp sub >? newest
      then sub :: take_newer rest (sub_tstamp sub)
      else take_newer rest newest
  end.

(** A bar built by the merge branch from its opening sample and the samples
    added after it. *)
Definition build (ts : Z) (first : Subbar) (added : list Subbar) : Bar :=
  fold_left add_subbar added (new_bar ts first).

(** The samples the merge branch adds after the opening sample [first], for
    a head whose later samples are [hrest] and an incoming bar whose samples
    are [bolds], all from the oldest to the newest. *)
Definition merged_rest (first : Subbar) (hrest bolds : list Subbar) : list Subbar :=
  match bolds with
  | [] => []
  | bfirst :: _ =>
      let kept := take_older (sub_tstamp bfirst) hrest in
      kept ++ take_newer bolds (sub_tstamp (last kept first))
  end.

(** The head after an incoming bar of the same bucket, for a head and a bar
    that both carry samples. *)
Definition refined (head b : Bar) : Bar :=
  match olds head, olds b with
  | hfirst :: hrest, bfirst :: brest =>
      if sub_tstamp bfirst =? sub_tstamp hfirst then b
      else build (tstamp b) hfirst (merged_rest hfirst hrest (bfirst :: brest))
  | _, _ => head
  end.

(** The head's part of the loop: a run of incoming bars of the head's own
    bucket, applied to the head one after the other. *)
Fixpoint refine_loop (head : Bar) (cs : list Bar) : Bar * bool :=
  match cs with
  | [] => (head, true)
  | c :: rest =>
      match refine_head head c with
      | Some h' => refine_loop h' rest
      | None => (head, false)
      end
  end.

(** The timestamp of a bar's oldest sample (0 for a bar without samples). *)
Definition start_ts (b : Bar) : Z :=
  match olds b with
  | [] => 0
  | s :: _ => sub_tstamp s
  end.

(** The incoming bars of the bucket [ts]. *)
Definition of_bucket (ts : Z) (batch : list Bar) : list Bar :=
  filter (fun c => tstamp c =? ts) batch.

End BarSpec.

Module EngineSpec.

Import Bars Accounts Engine.

(** The value of [self.last_tick] that an evaluation of the loop reads:
    the reading stored by the last push callback before it, if any. *)
Definition seen_tick {W : Type} (i : LoopInput) (st : LiveTrading W) : Q :=
  last (pushes i) (last_tick st).

(** The engine when an evaluation of the loop has read the pushes and has
    asked the gateway whether the connection is open. *)
Definition after_check {W : Type} (i : LoopInput) (w : W) (st : LiveTrading W)
  : LiveTrading W :=
  {| settings := settings st; last_tick := seen_tick i st; alive := alive st;
     symbolInfo := symbolInfo st; bars := bars st; account := account st;
     env := w; calls := calls st ++ [CallIsOpen]; logger := logger st |}.

(** The engine in the constructor when the connection was found open and
    the instrument has been fetched (lines 35-39). *)
Definition with_instrument {W : Type} (s : Settings) (sym : Symbol) (w : W)
  : LiveTrading W :=
  {| settings := s; last_tick := 0%Q; alive := true; symbolInfo := Some sym;
     bars := []; account := new_account; env := w;
     calls := [CallIsOpen; CallGetInstrument]; logger := [LogStarting] |}.

(** The steps of the constructor that follow the instrument fetch, in the
    order of lines 41-48: the strategy's [prepare], the cold bar fetch, the
    initial account fetch, the strategy's [reset] and its [init]. *)
Definition startup_steps {W : Type} `{ExchangeInterface W} `{TradingBot W}
    (s : Settings) (sym : Symbol) : list (M W unit) :=
  [ call_bot BotPrepare bot_prepare;
    set_bars [] ;; update_bars;
    set_account new_account ;; update_account;
    call_bot BotReset bot_reset;
    bs <- get bars ;;
    acc <- get account ;;
    call_bot BotInit (bot_init bs acc sym (settings_id s)) ].

(** Steps run one after the other; the first that raises ends the run. *)
Fixpoint run_steps {W : Type} (steps : list (M W unit)) : M W unit :=
  match steps with
  | [] => ret tt
  | step :: rest => step ;; run_steps rest
  end.

(** An operation that leaves [alive] as it is, whatever its outcome. *)
Definition keeps_alive {W A : Type} (m : M W A) : Prop :=
  forall st, alive (snd (m st)) = alive st.

(** The ids of the open orders, as [update_account] collects them. *)
Definition open_ids (acc : Account) : list string := map id (open_orders acc).

(** The log lines the engine has written about orders. *)
Fixpoint order_lines (l : list log_entry) : list OrderLine :=
  match l with
  | [] => []
  | LogOrder line :: rest => line :: order_lines rest
  | _ :: rest => order_lines rest
  end.

End EngineSpec.

(** ** Concrete bars, orders and venues *)

Module Examples.

Import Bars Accounts Engine.

(** A flat sample at a timestamp, and a bar with given sample timestamps
    (index 0 first, as in [subbars]). *)
Definition sample (t : Z) : Subbar :=
  {| sub_tstamp := t; sub_open := 100; sub_high := 100; sub_low := 100;
     sub_close := 100; sub_volume := 1 |}.

Definition bar_of (ts : Z) (stamps : list Z) : Bar :=
  {| tstamp := ts; open := 100; high := 100; low := 100; close := 100;
     volume := Z.of_nat (List.length stamps);
     subbars := map sample stamps; did_change := true |}.

(** A head that holds the samples 20 and 30 of bucket 60, and an incoming
    bar of the same bucket that holds 10, 20, 30 and 40. *)
Definition late_head : Bar := bar_of 60 [30; 20].
Definition wide_incoming : Bar := bar_of 60 [40; 30; 20; 10].

(** A head that holds 10, 20, 30 and an incoming bar that holds 20, 30, 40. *)
Definition early_head : Bar := bar_of 60 [30; 20; 10].
Definition next_incoming : Bar := bar_of 60 [40; 30; 20].

(** Three stored bars, and ten. *)
Definition three_bars : list Bar :=
  [bar_of 180 [190; 180]; bar_of 120 [130; 120]; bar_of 60 [70; 60]].

Definition ten_bars : list Bar :=
  map (fun k => bar_of (60 * k) [60 * k + 10; 60 * k]) [10; 9; 8; 7; 6; 5; 4; 3; 2; 1].

Definition fresh_batch : list Bar :=
  [bar_of 660 [660]; bar_of 600 [620; 610]].

(** Orders. *)
Definition filled_order : Order :=
  {| id := "a1"; side := Buy; price := 100; quantity := 5; active := false;
     executed_amount := 5; executed_price := Some 100 |}.

Definition canceled_order : Order :=
  {| id := "b2"; side := Sell; price := 110; quantity := 3; active := false;
     executed_amount := 0; executed_price := None |}.

Definition resting_order : Order :=
  {| id := "c3"; side := Buy; price := 90; quantity := 2; active := true;
     executed_amount := 0; executed_price := None |}.

Definition stray_order : Order :=
  {| id := "z9"; side := Buy; price := 95; quantity := 1; active := false;
     executed_amount := 1; executed_price := Some 95 |}.

Definition unsent_order : Order :=
  {| id := ""; side := Sell; price := 120; quantity := 1; active := false;
     executed_amount := 0; executed_price := None |}.

Definition was_open (i : string) : Order :=
  {| id := i; side := Buy; price := 100; quantity := 5; active := true;
     executed_amount := 0; executed_price := None |}.

(** A venue and strategy that answer every call the same way.  The
    strategy's [init] ends as [v_init] says and its other callbacks as
    [v_bot] says; in [on_tick] it first sends the orders [v_sends] through
    the engine, one log line each, and gives up at the first that fails. *)
Record Venue : Type := mkVenue {
  v_open : Res bool;
  v_instrument : Res Symbol;
  v_bars : Res (list Bar);
  v_recent : Res (list Bar);
  v_balance : Res Z;
  v_orders : Res (list Order);
  v_exit : Res unit;
  v_bot : Res unit;
  v_init : Res unit;
  v_sends : list Order
}.

#[export] Instance venue_exchange : ExchangeInterface Venue := {|
  ex_is_open := fun w => (v_open w, w);
  ex_get_instrument := fun w => (v_instrument w, w);
  ex_get_bars := fun _ _ w => (v_bars w, w);
  ex_recent_bars := fun _ _ w => (v_recent w, w);
  ex_update_account := fun _ w => (v_balance w, w);
  ex_get_orders := fun w => (v_orders w, w);
  ex_send_order := fun _ w => (Val tt, w);
  ex_update_order := fun _ w => (Val tt, w);
  ex_cancel_order := fun _ w => (Val tt, w);
  ex_check_market_open := fun w => (Val tt, w);
  ex_exit := fun w => (v_exit w, w)
|}.

Fixpoint place_orders (os : list Order) (w : Venue) : BotRun Venue unit :=
  match os with
  | [] => BotReturns (v_bot w) w
  | o :: rest =>
      BotLogs "placing an order"
        (BotSends o w (fun r w' =>
           match r with
           | Val _ => place_orders rest w'
           | Raise e => BotReturns (Raise e) w'
           end))
  end.

#[export] Instance venue_bot : TradingBot Venue := {|
  bot_prepare := fun w => BotReturns (v_bot w) w;
  bot_reset := fun w => BotReturns (v_bot w) w;
  bot_init := fun _ _ _ _ w => BotReturns (v_init w) w;
  bot_on_tick := fun _ _ w => place_orders (v_sends w) w
|}.

Definition xbt : Symbol :=
  {| symbol_name := "XBTUSD"; tick_size := 1; multiplier := 1 |}.

Definition calm_venue (orders : list Order) : Venue :=
  {| v_open := Val true; v_instrument := Val xbt; v_bars := Val ten_bars;
     v_recent := Val fresh_batch; v_balance := Val 1000;
     v_orders := Val orders; v_exit := Val tt; v_bot := Val tt;
     v_init := Val tt; v_sends := [] |}.

(** A venue whose instrument fetch fails. *)
Definition no_instrument_venue : Venue :=
  {| v_open := Val true;
     v_instrument := Raise (OtherException "instrument fetch failed");
     v_bars := Val ten_bars; v_recent := Val fresh_batch; v_balance := Val 1000;
     v_orders := Val []; v_exit := Val tt; v_bot := Val tt;
     v_init := Val tt; v_sends := [] |}.

(** A venue whose strategy fails in its [init]. *)
Definition failing_init_venue : Venue :=
  {| v_open := Val true; v_instrument := Val xbt; v_bars := Val ten_bars;
     v_recent := Val fresh_batch; v_balance := Val 1000;
     v_orders := Val []; v_exit := Val tt; v_bot := Val tt;
     v_init := Raise (OtherException "strategy init failed"); v_sends := [] |}.

(** A venue whose connection is closed. *)
Definition closed_venue : Venue :=
  {| v_open := Val false; v_instrument := Val xbt; v_bars := Val ten_bars;
     v_recent := Val fresh_batch; v_balance := Val 1000;
     v_orders := Val []; v_exit := Val tt; v_bot := Val tt;
     v_init := Val tt; v_sends := [] |}.

(** A venue whose connection is closed and whose [exit] is interrupted. *)
Definition interrupted_exit_venue : Venue :=
  {| v_open := Val false; v_instrument := Val xbt; v_bars := Val ten_bars;
     v_recent := Val fresh_batch; v_balance := Val 1000;
     v_orders := Val []; v_exit := Raise KeyboardInterrupt; v_bot := Val tt;
     v_init := Val tt; v_sends := [] |}.

Definition demo_settings : Settings :=
  {| settings_id := "demo"; MINUTES_PER_BAR := 60; LOOP_INTERVAL := 5%Q |}.

(** An engine at work on a venue, holding given bars and open orders. *)
Definition engine_on (w : Venue) (held : list Bar) (opened : list Order)
  : LiveTrading Venue :=
  {| settings := demo_settings; last_tick := 0%Q; alive := true;
     symbolInfo := Some xbt; bars := held;
     account := {| balance := 1000; open_orders := opened; order_history := [] |};
     env := w; calls := []; logger := [] |}.

(** A reconciliation pass: four orders were open; the fresh snapshot has one
    of them still resting, one filled and one canceled, does not list the
    fourth, and lists two orders that were never open. *)
Definition snapshot : list Order :=
  [resting_order; filled_order; canceled_order; stray_order; unsent_order].

Definition reconciling : LiveTrading Venue :=
  engine_on (calm_venue snapshot) ten_bars
    [was_open "a1"; was_open "b2"; was_open "c3"; was_open "d4"].

(** A snapshot that lists the same closed order twice. *)
Definition reconciling_twice_listed : LiveTrading Venue :=
  engine_on (calm_venue [filled_order; filled_order]) ten_bars [was_open "a1"].

(** An evaluation of the loop at clock reading 6, and a later one at 12. *)
Definition at_six : LoopInput := {| pushes := []; current := 6; started := 6 |}.
Definition at_twelve : LoopInput := {| pushes := []; current := 12; started := 12 |}.

End Examples.

(** ** Notions for the further properties *)

Module MoreSpec.

Import Bars Accounts Engine BarSpec.

(** The timestamp of a bar's oldest sample, if it has one. *)
Definition opening (b : Bar) : option Z :=
  option_map sub_tstamp (py_last (subbars b)).

(** The stored sequence while a batch is merged into [head :: older]: the
    bars behind the head's bucket are the old ones, the bucket itself is
    still there with its opening sample, and what is in front of it is
    newer and belongs to buckets of the batch. *)
Definition grown_from (head : Bar) (older batch : list Bar) (l : list Bar) : Prop :=
  exists front h',
    l = front ++ h' :: older /\
    tstamp h' = tstamp head /\
    opening h' = opening head /\
    Forall (fun f => tstamp head < tstamp f /\ In (tstamp f) (map tstamp batch))
           front.

(** An operation that, started where [P] holds, ends where [Q] holds,
    whether it returns or raises. *)
Definition ends_in {W A : Type} (P : LiveTrading W -> Prop) (m : M W A)
    (Q : LiveTrading W -> Prop) : Prop :=
  forall st, P st -> Q (snd (m st)).

(** The engine with a log line more, with a call more, with other bars. *)
Definition with_log {W : Type} (l : log_entry) (st : LiveTrading W) : LiveTrading W :=
  mkLive (settings st) (last_tick st) (alive st) (symbolInfo st) (bars st)
         (account st) (env st) (calls st) (logger st ++ [l]).

Definition with_call {W : Type} (ev : event) (w : W) (st : LiveTrading W)
  : LiveTrading W :=
  mkLive (settings st) (last_tick st) (alive st) (symbolInfo st) (bars st)
         (account st) w (calls st ++ [ev]) (logger st).

Definition with_bars {W : Type} (bs : list Bar) (st : LiveTrading W)
  : LiveTrading W :=
  mkLive (settings st) (last_tick st) (alive st) (symbolInfo st) bs
         (account st) (env st) (calls st) (logger st).

(** The calls made between two states of the engine. *)
Definition new_calls {W : Type} (before after : LiveTrading W) : list event :=
  skipn (List.length (calls before)) (calls after).

(** The fetch [update_bars] makes for a number of held bars. *)
Definition bar_fetch (s : Settings) (held : list Bar) : event :=
  if (List.length held <? 10)%nat
  then CallGetBars (MINUTES_PER_BAR s) 0
  else CallRecentBars (MINUTES_PER_BAR s) 0.

Definition is_order_line (l : log_entry) : Prop :=
  match l with
  | LogOrder _ => True
  | _ => False
  end.

Definition not_recent_bars (ev : event) : Prop :=
  match ev with
  | CallRecentBars _ _ => False
  | _ => True
  end.

(** The calls the strategy makes through the engine's order relay, and the
    log lines it writes. *)
Definition is_relay_call (ev : event) : Prop :=
  match ev with
  | CallSendOrder _ | CallUpdateOrder _ | CallCancelOrder _ => True
  | _ => False
  end.

Definition is_strategy_line (l : log_entry) : Prop :=
  match l with
  | LogStrategy _ => True
  | _ => False
  end.

(** What a callback of the strategy can have done to the engine between
    two states: calls through the relay and log lines. *)
Definition strategy_ran {W : Type} (st st' : LiveTrading W) : Prop :=
  settings st' = settings st /\
  last_tick st' = last_tick st /\
  alive st' = alive st /\
  symbolInfo st' = symbolInfo st /\
  bars st' = bars st /\
  account st' = account st /\
  (exists relayed,
     calls st' = calls st ++ relayed /\ Forall is_relay_call relayed) /\
  (exists said,
     logger st' = logger st ++ said /\ Forall is_strategy_line said).

(** The handler of [handle_tick] (lines 161-163) at an exception it is
    reached by or not. *)
Definition reraised {W : Type} (e : exn) (st : LiveTrading W)
  : Res unit * LiveTrading W :=
  (Raise e, if is_Exception e then with_log (LogTickException e) st else st).

(** The calls of one tick. *)
Definition tick_call (s : Settings) (held : list Bar) (ev : event) : Prop :=
  ev = bar_fetch s held \/ ev = CallUpdateAccount \/ ev = CallGetOrders
  \/ ev = BotOnTick \/ is_relay_call ev.

(** An engine that has recorded no closed order and has never asked for
    recent bars. *)
Definition no_history_no_merge {W : Type} (st : LiveTrading W) : Prop :=
  order_history (account st) = [] /\ Forall not_recent_bars (calls st).


End MoreSpec.

Module MoreExamples.

Import Bars Accounts Engine Examples.

(** A bar of bucket 600 that carries no sample, and stale bars. *)
Definition hollow_bar : Bar := bar_of 600 [].

Definition stale_batch : list Bar :=
  [bar_of 540 [560; 550; 540]; bar_of 480 [490; 480]].

(** Venues on which one call fails. *)
Definition no_balance_venue : Venue :=
  {| v_open := Val true; v_instrument := Val xbt; v_bars := Val ten_bars;
     v_recent := Val fresh_batch;
     v_balance := Raise (OtherException "balance fetch failed");
     v_orders := Val snapshot; v_exit := Val tt; v_bot := Val tt;
     v_init := Val tt; v_sends := [] |}.

Definition no_orders_venue : Venue :=
  {| v_open := Val true; v_instrument := Val xbt; v_bars := Val ten_bars;
     v_recent := Val fresh_batch; v_balance := Val 1000;
     v_orders := Raise (OtherException "order fetch failed");
     v_exit := Val tt; v_bot := Val tt;
     v_init := Val tt; v_sends := [] |}.

Definition no_bars_venue : Venue :=
  {| v_open := Val true; v_instrument := Val xbt;
     v_bars := Raise (OtherException "bar fetch failed");
     v_recent := Raise (OtherException "bar fetch failed");
     v_balance := Val 1000; v_orders := Val snapshot;
     v_exit := Val tt; v_bot := Val tt;
     v_init := Val tt; v_sends := [] |}.

(** An incoming bar of bucket 60 whose samples are not in order. *)
Definition jumbled_incoming : Bar := bar_of 60 [25; 40; 15].

(** Two evaluations of the loop in which nothing is due: one at clock
    reading 1, one at 4 after a push at 3. *)
Definition quiet_inputs : list LoopInput :=
  [ {| pushes := []; current := 1; started := 1 |};
    {| pushes := [3%Q]; current := 4; started := 4 |} ].

(** A venue whose strategy places two orders in every tick, one whose
    [exit] fails, and one on which the balance fetch and [exit] are
    interrupted. *)
Definition trading_venue : Venue :=
  {| v_open := Val true; v_instrument := Val xbt; v_bars := Val ten_bars;
     v_recent := Val fresh_batch; v_balance := Val 1000;
     v_orders := Val snapshot; v_exit := Val tt; v_bot := Val tt;
     v_init := Val tt; v_sends := [resting_order; was_open "e5"] |}.

Definition unwilling_venue : Venue :=
  {| v_open := Val true; v_instrument := Val xbt; v_bars := Val ten_bars;
     v_recent := Val fresh_batch; v_balance := Val 1000;
     v_orders := Val snapshot;
     v_exit := Raise (OtherException "exit failed"); v_bot := Val tt;
     v_init := Val tt; v_sends := [] |}.

Definition interrupted_venue : Venue :=
  {| v_open := Val true; v_instrument := Val xbt; v_bars := Val ten_bars;
     v_recent := Val fresh_batch; v_balance := Raise KeyboardInterrupt;
     v_orders := Val snapshot; v_exit := Raise SystemExit; v_bot := Val tt;
     v_init := Val tt; v_sends := [] |}.

Definition four_open : list Order :=
  [was_open "a1"; was_open "b2"; was_open "c3"; was_open "d4"].

End MoreExamples.

(** * Properties *)

(** ** The bar merge *)

Module BarFacts.

Import Bars BarSpec.

Lemma rev_py_init {A : Type} (l : list A) : rev (py_init l) = tl (rev l).
Proof.
  unfold py_init.
  destruct l as [|a l] using rev_ind; [reflexivity|].
  rewrite removelast_last, rev_unit. reflexivity.
Qed.

Lemma py_last_none {A : Type} (l : list A) : py_last l = None <-> l = [].
Proof.
  unfold py_last. split.
  - destruct l as [|a l] using rev_ind; [reflexivity|].
    rewrite rev_unit. discriminate.
  - intros ->. reflexivity.
Qed.

Lemma subbars_fold_add (l : list Subbar) (nb : Bar) :
  subbars (fold_left add_subbar l nb) = rev l ++ subbars nb.
Proof.
  revert nb. induction l as [|s l IH]; intros nb; simpl; [reflexivity|].
  rewrite IH. simpl. rewrite <- app_assoc. reflexivity.
Qed.

Lemma tstamp_fold_add (l : list Subbar) (nb : Bar) :
  tstamp (fold_left add_subbar l nb) = tstamp nb.
Proof.
  revert nb. induction l as [|s l IH]; intros nb; simpl; [reflexivity|].
  rewrite IH. reflexivity.
Qed.

Lemma add_older_fold (limit : Z) (subs : list Subbar) (nb : Bar) :
  add_older limit subs nb = fold_left add_subbar (take_older limit subs) nb.
Proof.
  revert nb. induction subs as [|s subs IH]; intros nb; simpl; [reflexivity|].
  destruct (sub_tstamp s <? limit); simpl; [apply IH | reflexivity].
Qed.

Lemma add_newer_fold (subs : list Subbar) (nb : Bar) (n : Subbar) (rest : list Subbar) :
  subbars nb = n :: rest ->
  add_newer subs nb =
  Some (fold_left add_subbar (take_newer subs (sub_tstamp n)) nb).
Proof.
  revert nb n rest. induction subs as [|s subs IH]; intros nb n rest Hn; simpl.
  - reflexivity.
  - rewrite Hn. destruct (sub_tstamp s >? sub_tstamp n); simpl.
    + apply (IH _ s (n :: rest)). simpl. rewrite Hn. reflexivity.
    + apply (IH _ n rest). exact Hn.
Qed.

Lemma olds_build (ts : Z) (first : Subbar) (added : list Subbar) :
  olds (build ts first added) = first :: added.
Proof.
  unfold olds, build. rewrite subbars_fold_add. simpl.
  rewrite rev_app_distr, rev_involutive. reflexivity.
Qed.

Lemma tstamp_build (ts : Z) (first : Subbar) (added : list Subbar) :
  tstamp (build ts first added) = ts.
Proof. unfold build. rewrite tstamp_fold_add. reflexivity. Qed.

Lemma hd_rev_last {A : Type} (l : list A) (d : A) :
  hd d (rev l) = last l d.
Proof.
  destruct l as [|a l] using rev_ind; [reflexivity|].
  rewrite rev_unit, last_last. reflexivity.
Qed.

(** The merge branch in terms of the samples it keeps. *)
Lemma merge_bars_build (head b : Bar) (hfirst bfirst : Subbar)
    (hrest brest : list Subbar) :
  olds head = hfirst :: hrest ->
  olds b = bfirst :: brest ->
  merge_bars head b bfirst =
  Some (build (tstamp b) hfirst (merged_rest hfirst hrest (bfirst :: brest))).
Proof.
  unfold olds. intros Hh Hb. unfold merge_bars, py_last.
  rewrite Hh. simpl hd_error. cbv iota.
  rewrite rev_py_init, Hh, Hb. simpl tl.
  rewrite add_older_fold.
  set (kept := take_older (sub_tstamp bfirst) hrest).
  assert (Hs : subbars (fold_left add_subbar kept (new_bar (tstamp b) hfirst))
               = last kept hfirst :: tl (rev kept ++ [hfirst])).
  { rewrite subbars_fold_add. simpl.
    rewrite <- (hd_rev_last kept hfirst).
    destruct (rev kept); reflexivity. }
  rewrite (add_newer_fold _ _ _ _ Hs).
  unfold build, merged_rest. fold kept.
  rewrite fold_left_app. reflexivity.
Qed.

Lemma refine_head_refined (head b : Bar) :
  olds head <> [] -> olds b <> [] ->
  refine_head head b = Some (refined head b).
Proof.
  intros Hh Hb. unfold refine_head, refined, py_last.
  fold (olds head) (olds b).
  destruct (olds head) as [|hf hrest] eqn:Eh; [contradiction|].
  destruct (olds b) as [|bf brest] eqn:Eb; [contradiction|].
  simpl. destruct (sub_tstamp bf =? sub_tstamp hf); [reflexivity|].
  apply merge_bars_build; assumption.
Qed.

Lemma refine_head_none (head b : Bar) :
  refine_head head b = None <-> olds head = [] \/ olds b = [].
Proof.
  split.
  - intros H.
    destruct (olds head) as [|hf hrest] eqn:Eh; [now left|].
    destruct (olds b) as [|bf brest] eqn:Eb; [now right|].
    rewrite refine_head_refined in H; [discriminate| |]; congruence.
  - unfold refine_head, py_last. fold (olds head) (olds b).
    intros [-> | ->]; simpl; [destruct (hd_error (olds b))|]; reflexivity.
Qed.

Lemma refine_head_some (head b h' : Bar) :
  refine_head head b = Some h' ->
  olds head <> [] /\ olds b <> [] /\ h' = refined head b.
Proof.
  intros H.
  assert (Hn : refine_head head b <> None) by congruence.
  rewrite refine_head_none in Hn.
  assert (Hh : olds head <> []) by tauto.
  assert (Hb : olds b <> []) by tauto.
  rewrite (refine_head_refined _ _ Hh Hb) in H.
  repeat split; congruence.
Qed.

Lemma tstamp_refined (head b : Bar) :
  olds head <> [] -> olds b <> [] -> tstamp (refined head b) = tstamp b.
Proof.
  intros Hh Hb. unfold refined.
  destruct (olds head) as [|hf hrest]; [contradiction|].
  destruct (olds b) as [|bf brest]; [contradiction|].
  destruct (sub_tstamp bf =? sub_tstamp hf); [reflexivity|].
  apply tstamp_build.
Qed.

(** *** Bucket order *)

Lemma merge_step_ordered (bars bars' : list Bar) (b : Bar) :
  buckets_ordered bars -> merge_step bars b = Some bars' ->
  buckets_ordered bars'.
Proof.
  unfold buckets_ordered, merge_step.
  destruct bars as [|head older]; [discriminate|].
  intros Hord.
  destruct (tstamp b <? tstamp head) eqn:Hlt.
  - intros [= <-]. exact Hord.
  - destruct (tstamp b =? tstamp head) eqn:Heq.
    + destruct (refine_head head b) as [h'|] eqn:Hr; [|discriminate].
      intros [= <-].
      apply refine_head_some in Hr. destruct Hr as (Hh & Hb & ->).
      simpl in *. rewrite (tstamp_refined _ _ Hh Hb).
      apply Z.eqb_eq in Heq. rewrite Heq. exact Hord.
    + intros [= <-]. simpl in *.
      apply Z.ltb_ge in Hlt. apply Z.eqb_neq in Heq.
      destruct Hord as [Hall Hrest].
      split; [|split; assumption].
      constructor; [lia|].
      eapply Forall_impl; [|exact Hall]. simpl. intros; lia.
Qed.

Lemma merge_loop_ordered (batch bars : list Bar) :
  buckets_ordered bars -> buckets_ordered (fst (merge_loop bars batch)).
Proof.
  revert bars. induction batch as [|b batch IH]; intros bars Hord; simpl.
  - exact Hord.
  - destruct (merge_step bars b) as [bars'|] eqn:Hs.
    + apply IH. eapply merge_step_ordered; eassumption.
    + exact Hord.
Qed.

(** C3.  Bucket monotonicity: when the stored bars have strictly decreasing
    bucket timestamps from index 0, they still have after the incremental
    merge of any incoming batch, also when the merge stops at an iteration
    that raises. *)
Theorem update_bars_keeps_buckets_ordered (bars new_bars : list Bar) :
  buckets_ordered bars ->
  buckets_ordered (fst (merge_incremental bars new_bars)).
Proof.
  intros Hord. unfold merge_incremental. apply merge_loop_ordered. exact Hord.
Qed.

(** *** Ordered samples *)

Lemma increasing_app (a b : list Z) :
  increasing (a ++ b) <->
  increasing a /\ increasing b /\ (forall x y, In x a -> In y b -> x < y).
Proof.
  induction a as [|x a IH]; simpl.
  - intuition.
  - rewrite Forall_app, IH, !Forall_forall. split.
    + intros [[Ha Hb] (Hia & Hib & Hab)]. repeat split; auto.
      intros x' y [<- | Hx] Hy; auto.
    + intros ((Ha & Hia) & Hib & Hab). repeat split; auto.
Qed.

Lemma increasing_NoDup (l : list Z) : increasing l -> NoDup l.
Proof.
  induction l as [|x l IH]; simpl; [constructor|].
  intros [Hall Hi]. constructor; [|auto].
  intros Hin. rewrite Forall_forall in Hall. specialize (Hall _ Hin). lia.
Qed.

Lemma in_sub_stamps (b : Bar) (t : Z) :
  In t (sub_stamps b) <-> In t (map sub_tstamp (olds b)).
Proof.
  unfold sub_stamps, olds. rewrite map_rev, <- in_rev. reflexivity.
Qed.

Lemma take_older_split (limit : Z) (l : list Subbar) :
  exists rest, l = take_older limit l ++ rest.
Proof.
  induction l as [|s l [rest IH]]; simpl.
  - exists []. reflexivity.
  - destruct (sub_tstamp s <? limit).
    + exists rest. simpl. congruence.
    + exists (s :: l). reflexivity.
Qed.

Lemma take_older_below (limit : Z) (l : list Subbar) :
  Forall (fun s => sub_tstamp s < limit) (take_older limit l).
Proof.
  induction l as [|s l IH]; simpl; [constructor|].
  destruct (sub_tstamp s <? limit) eqn:E; [|constructor].
  constructor; [apply Z.ltb_lt; exact E | exact IH].
Qed.

Lemma take_older_ordered_in (limit : Z) (l : list Subbar) (s : Subbar) :
  increasing (map sub_tstamp l) ->
  In s l -> sub_tstamp s < limit -> In s (take_older limit l).
Proof.
  induction l as [|s0 l IH]; simpl; [tauto|].
  intros [Hall Hi] Hin Hlt.
  destruct (sub_tstamp s0 <? limit) eqn:E.
  - destruct Hin as [-> | Hin]; [now left | right; auto].
  - apply Z.ltb_ge in E. destruct Hin as [-> | Hin]; [lia|].
    rewrite Forall_forall in Hall.
    specialize (Hall (sub_tstamp s) (in_map _ _ _ Hin)). lia.
Qed.

Lemma take_newer_all (l : list Subbar) (newest : Z) :
  increasing (map sub_tstamp l) ->
  Forall (fun s => newest < sub_tstamp s) l ->
  take_newer l newest = l.
Proof.
  revert newest. induction l as [|s l IH]; intros newest; simpl; [reflexivity|].
  intros [Hall Hi] Hnew. inversion Hnew as [|? ? Hs Hl]; subst.
  assert (E : (sub_tstamp s >? newest) = true) by (apply Z.gtb_lt; lia).
  rewrite E. f_equal. apply IH; [exact Hi|].
  rewrite Forall_map in Hall. exact Hall.
Qed.

Lemma py_last_olds (b : Bar) (s : Subbar) :
  py_last (subbars b) = Some s -> exists rest, olds b = s :: rest.
Proof.
  unfold py_last. fold (olds b). destruct (olds b) as [|x rest]; simpl.
  - discriminate.
  - intros [= ->]. exists rest. reflexivity.
Qed.

(** C1, as the code has it.  When an incoming bar of the head's bucket is
    merged into the head, both bars have their samples in order, the head's
    oldest sample is older than the incoming bar's oldest, and every sample
    of the head that is not older than the incoming bar's oldest has its
    timestamp among the incoming bar's, then the merged head's samples are
    in order, without a repeated timestamp, and their timestamps are exactly
    those of the two bars together. *)
Theorem merge_is_union_when_incoming_extends_head
    (head b : Bar) (older : list Bar) (hlast blast : Subbar) :
  tstamp b = tstamp head ->
  py_last (subbars head) = Some hlast ->
  py_last (subbars b) = Some blast ->
  subbars_ordered head ->
  subbars_ordered b ->
  sub_tstamp hlast < sub_tstamp blast ->
  (forall s, In s (subbars head) -> sub_tstamp blast <= sub_tstamp s ->
             In (sub_tstamp s) (sub_stamps b)) ->
  exists merged,
    merge_step (head :: older) b = Some (merged :: older) /\
    subbars_ordered merged /\
    NoDup (sub_stamps merged) /\
    forall t, In t (sub_stamps merged) <->
              In t (sub_stamps head) \/ In t (sub_stamps b).
Proof.
  intros Hts Hhl Hbl Hoh Hob Hlt Hcover.
  destruct (py_last_olds _ _ Hhl) as [hrest Eh].
  destruct (py_last_olds _ _ Hbl) as [brest Eb].
  set (kept := take_older (sub_tstamp blast) hrest).
  exists (build (tstamp b) hlast (kept ++ blast :: brest)).
  unfold subbars_ordered in Hoh, Hob. rewrite Eh in Hoh. rewrite Eb in Hob.
  simpl in Hoh, Hob. destruct Hoh as [Hh1 Hh2]. destruct Hob as [Hb1 Hb2].
  assert (Hkept_lt : Forall (fun s => sub_tstamp s < sub_tstamp blast) kept)
    by apply take_older_below.
  destruct (take_older_split (sub_tstamp blast) hrest) as [dropped Hsplit].
  fold kept in Hsplit.
  assert (Hnewest : sub_tstamp (last kept hlast) < sub_tstamp blast).
  { destruct (exists_last (l := hlast :: kept)) as (l' & a & E); [discriminate|].
    assert (Ha : last kept hlast = a).
    { change (last kept hlast) with (last kept hlast).
      assert (E' : last (hlast :: kept) hlast = a) by (rewrite E; apply last_last).
      destruct kept; simpl in *; congruence. }
    rewrite Ha.
    assert (Hin : In a (hlast :: kept)) by (rewrite E; apply in_or_app; right; now left).
    destruct Hin as [<- | Hin]; [exact Hlt|].
    rewrite Forall_forall in Hkept_lt. auto. }
  assert (Hmerged : merged_rest hlast hrest (blast :: brest) = kept ++ blast :: brest).
  { unfold merged_rest. fold kept. f_equal.
    apply take_newer_all.
    - simpl. split; assumption.
    - constructor; [exact Hnewest|].
      rewrite Forall_map in Hb1. eapply Forall_impl; [|exact Hb1].
      simpl. intros; lia. }
  assert (Hinc : increasing (map sub_tstamp (hlast :: kept ++ blast :: brest))).
  { rewrite Hsplit, map_app in Hh1, Hh2.
    apply Forall_app in Hh1. destruct Hh1 as [Hh1 _].
    apply increasing_app in Hh2. destruct Hh2 as (Hh2 & _ & _).
    change (increasing ([sub_tstamp hlast] ++ map sub_tstamp (kept ++ blast :: brest))).
    rewrite map_app. simpl map.
    apply increasing_app. split; [simpl; auto|]. split.
    - apply increasing_app. split; [exact Hh2|]. split; [simpl; auto|].
      intros x y Hx Hy. apply in_map_iff in Hx. destruct Hx as (sx & <- & Hx).
      rewrite Forall_forall in Hkept_lt. specialize (Hkept_lt _ Hx).
      destruct Hy as [<- | Hy]; [exact Hkept_lt|].
      rewrite Forall_forall in Hb1. specialize (Hb1 _ Hy). lia.
    - intros x y [<- | []] Hy. apply in_app_or in Hy. destruct Hy as [Hy | Hy].
      + rewrite Forall_forall in Hh1. auto.
      + destruct Hy as [<- | Hy]; [exact Hlt|].
        rewrite Forall_forall in Hb1. specialize (Hb1 _ Hy). lia. }
  split; [|split; [|split]].
  - unfold merge_step.
    assert (E1 : (tstamp b <? tstamp head) = false) by (apply Z.ltb_ge; lia).
    assert (E2 : (tstamp b =? tstamp head) = true) by (apply Z.eqb_eq; lia).
    rewrite E1, E2.
    rewrite refine_head_refined by (rewrite ?Eh, ?Eb; discriminate).
    unfold refined. rewrite Eh, Eb.
    assert (E3 : (sub_tstamp blast =? sub_tstamp hlast) = false)
      by (apply Z.eqb_neq; lia).
    rewrite E3, Hmerged. reflexivity.
  - unfold subbars_ordered. rewrite olds_build. exact Hinc.
  - unfold sub_stamps.
    replace (subbars (build (tstamp b) hlast (kept ++ blast :: brest)))
      with (rev (olds (build (tstamp b) hlast (kept ++ blast :: brest))))
      by (unfold olds; apply rev_involutive).
    rewrite map_rev. apply NoDup_rev. apply increasing_NoDup.
    rewrite olds_build. exact Hinc.
  - intros t. rewrite !in_sub_stamps, olds_build, Eh, Eb.
    change (hlast :: kept ++ blast :: brest) with ((hlast :: kept) ++ blast :: brest).
    rewrite map_app, in_app_iff. split.
    + intros [Hin | Hin]; [left | right; exact Hin].
      rewrite Hsplit. simpl in *. destruct Hin as [Hin | Hin]; [now left|].
      right. rewrite map_app. apply in_or_app. now left.
    + intros [Hin | Hin]; [|right; exact Hin].
      apply in_map_iff in Hin. destruct Hin as (s & <- & Hin).
      destruct (Z_lt_ge_dec (sub_tstamp s) (sub_tstamp blast)) as [Hs | Hs].
      * left. apply in_map. destruct Hin as [-> | Hin]; [now left|].
        right. apply take_older_ordered_in; assumption.
      * right. rewrite <- Eb, <- in_sub_stamps. apply Hcover; [|lia].
        apply in_rev. fold (olds head). rewrite Eh. exact Hin.
Qed.

(** *** The loop on the head bucket *)

Lemma refined_valid (X c : Bar) :
  olds X <> [] -> olds c <> [] -> olds (refined X c) <> [].
Proof.
  intros HX Hc. unfold refined.
  destruct (olds X) as [|xf xr]; [contradiction|].
  destruct (olds c) as [|cf cr] eqn:Ec; [contradiction|].
  destruct (sub_tstamp cf =? sub_tstamp xf).
  - rewrite Ec. discriminate.
  - rewrite olds_build. discriminate.
Qed.

Lemma refined_start (X c : Bar) :
  olds X <> [] -> olds c <> [] -> start_ts (refined X c) = start_ts X.
Proof.
  intros HX Hc. unfold refined, start_ts.
  destruct (olds X) as [|xf xr] eqn:EX; [contradiction|].
  destruct (olds c) as [|cf cr] eqn:Ec; [contradiction|].
  destruct (sub_tstamp cf =? sub_tstamp xf) eqn:E.
  - rewrite Ec. apply Z.eqb_eq. exact E.
  - rewrite olds_build. reflexivity.
Qed.

Lemma refined_replace (X c : Bar) :
  olds X <> [] -> olds c <> [] -> start_ts c = start_ts X -> refined X c = c.
Proof.
  intros HX Hc. unfold refined, start_ts.
  destruct (olds X) as [|xf xr]; [contradiction|].
  destruct (olds c) as [|cf cr]; [contradiction|].
  intros ->. rewrite Z.eqb_refl. reflexivity.
Qed.

Lemma refine_loop_fold (cs : list Bar) (X : Bar) :
  olds X <> [] -> Forall (fun c => olds c <> []) cs ->
  refine_loop X cs = (fold_left refined cs X, true).
Proof.
  revert X. induction cs as [|c cs IH]; intros X HX Hcs; simpl; [reflexivity|].
  inversion Hcs as [|? ? Hc Hcs']; subst.
  rewrite (refine_head_refined _ _ HX Hc).
  apply IH; [apply refined_valid|]; assumption.
Qed.

Lemma refine_loop_done (cs : list Bar) (X N : Bar) :
  refine_loop X cs = (N, true) ->
  cs = [] \/ (olds X <> [] /\ Forall (fun c => olds c <> []) cs).
Proof.
  revert X. induction cs as [|c cs IH]; intros X; simpl; [now left|].
  destruct (refine_head X c) as [h'|] eqn:Hr; [|discriminate].
  intros Hl. right.
  apply refine_head_some in Hr. destruct Hr as (HX & Hc & ->).
  split; [exact HX|]. constructor; [exact Hc|].
  destruct (IH _ Hl) as [-> | [_ Hcs]]; [constructor | exact Hcs].
Qed.

Lemma fold_refined_valid (cs : list Bar) (X : Bar) :
  olds X <> [] -> Forall (fun c => olds c <> []) cs ->
  olds (fold_left refined cs X) <> [] /\
  start_ts (fold_left refined cs X) = start_ts X.
Proof.
  revert X. induction cs as [|c cs IH]; intros X HX Hcs; simpl; [tauto|].
  inversion Hcs as [|? ? Hc Hcs']; subst.
  destruct (IH (refined X c)) as [H1 H2];
    [apply refined_valid; assumption | assumption |].
  split; [exact H1|]. rewrite H2. apply refined_start; assumption.
Qed.

(** A run that contains a bar starting where the head starts ends the same
    from any head with that start: the last such bar replaces the head. *)
Lemma fold_refined_replaced (cs : list Bar) (X Y : Bar) :
  olds X <> [] -> olds Y <> [] -> Forall (fun c => olds c <> []) cs ->
  start_ts X = start_ts Y ->
  Exists (fun c => start_ts c = start_ts X) cs ->
  fold_left refined cs X = fold_left refined cs Y.
Proof.
  intros HX HY. induction cs as [|c cs IH] using rev_ind; intros Hcs Hst Hex.
  - inversion Hex.
  - apply Forall_app in Hcs. destruct Hcs as [Hcs Hc].
    inversion Hc as [|? ? Hc' _]; subst.
    rewrite !fold_left_app. simpl.
    destruct (fold_refined_valid cs X HX Hcs) as [HvX HsX].
    destruct (fold_refined_valid cs Y HY Hcs) as [HvY HsY].
    destruct (Z.eq_dec (start_ts c) (start_ts X)) as [E | E].
    + rewrite !refined_replace; auto; congruence.
    + apply Exists_app in Hex. destruct Hex as [Hex | Hex].
      * rewrite IH; auto.
      * inversion Hex as [? ? Hh | ? ? Ht]; subst; [contradiction | inversion Ht].
Qed.

Lemma take_newer_above (l : list Subbar) (newest : Z) :
  Forall (fun s => newest < sub_tstamp s) (take_newer l newest).
Proof.
  revert newest. induction l as [|s l IH]; intros newest; simpl; [constructor|].
  destruct (sub_tstamp s >? newest) eqn:E; [|apply IH].
  apply Z.gtb_lt in E. constructor; [exact E|].
  eapply Forall_impl; [|apply IH]. simpl. intros; lia.
Qed.

Lemma take_newer_from_start (bf : Subbar) (br : list Subbar) (newest : Z) :
  Forall (fun s => sub_tstamp bf <= sub_tstamp s) (take_newer (bf :: br) newest).
Proof.
  simpl. destruct (sub_tstamp bf >? newest) eqn:E.
  - constructor; [lia|].
    eapply Forall_impl; [|apply take_newer_above]. simpl. intros; lia.
  - assert (sub_tstamp bf <= newest) by (rewrite Z.gtb_ltb in E; apply Z.ltb_ge in E; lia).
    eapply Forall_impl; [|apply take_newer_above]. simpl. intros; lia.
Qed.

Lemma take_older_app_above (m limit : Z) (l F : list Subbar) :
  m <= limit ->
  Forall (fun s => limit <= sub_tstamp s) F ->
  take_older m (take_older limit l ++ F) = take_older m l.
Proof.
  intros Hm HF. induction l as [|s l IH]; simpl.
  - destruct HF as [|f F Hf _]; simpl; [reflexivity|].
    assert (E : (sub_tstamp f <? m) = false) by (apply Z.ltb_ge; lia).
    rewrite E. reflexivity.
  - destruct (sub_tstamp s <? limit) eqn:E1; simpl.
    + destruct (sub_tstamp s <? m); [f_equal; exact IH | reflexivity].
    + apply Z.ltb_ge in E1.
      assert (E : (sub_tstamp s <? m) = false) by (apply Z.ltb_ge; lia).
      rewrite E.
      destruct HF as [|f F Hf _]; simpl; [reflexivity|].
      assert (E' : (sub_tstamp f <? m) = false) by (apply Z.ltb_ge; lia).
      rewrite E'. reflexivity.
Qed.

(** A merge keeps the head's opening sample, and what it keeps of the head
    below any limit up to the incoming bar's start. *)
Lemma refined_merge_keeps (X c : Bar) (m : Z) :
  olds X <> [] -> olds c <> [] -> start_ts c <> start_ts X ->
  m <= start_ts c ->
  hd_error (olds (refined X c)) = hd_error (olds X) /\
  take_older m (tl (olds (refined X c))) = take_older m (tl (olds X)).
Proof.
  intros HX Hc. unfold refined, start_ts.
  destruct (olds X) as [|xf xr]; [contradiction|].
  destruct (olds c) as [|cf cr]; [contradiction|].
  intros Hne Hm.
  assert (E : (sub_tstamp cf =? sub_tstamp xf) = false) by (apply Z.eqb_neq; exact Hne).
  rewrite E, olds_build. split; [reflexivity|]. simpl tl.
  unfold merged_rest.
  apply take_older_app_above; [exact Hm | apply take_newer_from_start].
Qed.

(** What a merge makes of the head depends on the head's opening sample and
    on its samples below the incoming bar's start only. *)
Lemma refined_agree (X Y c : Bar) :
  olds X <> [] -> olds Y <> [] -> olds c <> [] ->
  hd_error (olds X) = hd_error (olds Y) ->
  take_older (start_ts c) (tl (olds X)) = take_older (start_ts c) (tl (olds Y)) ->
  refined X c = refined Y c.
Proof.
  intros HX HY Hc. unfold refined, start_ts.
  destruct (olds X) as [|xf xr]; [contradiction|].
  destruct (olds Y) as [|yf yr]; [contradiction|].
  destruct (olds c) as [|cf cr]; [contradiction|].
  simpl. intros [= ->] Hk.
  destruct (sub_tstamp cf =? sub_tstamp yf); [reflexivity|].
  unfold merged_rest. rewrite Hk. reflexivity.
Qed.

(** A run of merges keeps the head's opening sample and what the head has
    below every start in the run. *)
Lemma fold_refined_keeps (cs : list Bar) (X : Bar) (m : Z) :
  olds X <> [] -> Forall (fun c => olds c <> []) cs ->
  Forall (fun c => start_ts c <> start_ts X) cs ->
  Forall (fun c => m <= start_ts c) cs ->
  hd_error (olds (fold_left refined cs X)) = hd_error (olds X) /\
  take_older m (tl (olds (fold_left refined cs X))) = take_older m (tl (olds X)).
Proof.
  revert X. induction cs as [|c cs IH]; intros X HX Hcs Hne Hm; simpl; [tauto|].
  inversion Hcs as [|? ? Hc Hcs']; subst.
  inversion Hne as [|? ? Hnc Hne']; subst.
  inversion Hm as [|? ? Hmc Hm']; subst.
  destruct (refined_merge_keeps X c m HX Hc Hnc Hmc) as [K1 K2].
  destruct (IH (refined X c)) as [H1 H2]; auto using refined_valid.
  - rewrite refined_start by assumption. exact Hne'.
  - split; congruence.
Qed.

(** A run of merges ends the same from two heads that agree on the opening
    sample and on what they have below every start in the run. *)
Lemma fold_refined_merged (cs : list Bar) (X Y : Bar) :
  cs <> [] ->
  olds X <> [] -> olds Y <> [] -> Forall (fun c => olds c <> []) cs ->
  start_ts X = start_ts Y ->
  Forall (fun c => start_ts c <> start_ts X) cs ->
  hd_error (olds X) = hd_error (olds Y) ->
  (forall m, Forall (fun c => m <= start_ts c) cs ->
             take_older m (tl (olds X)) = take_older m (tl (olds Y))) ->
  fold_left refined cs X = fold_left refined cs Y.
Proof.
  revert X Y. induction cs as [|c cs IH]; intros X Y Hnil HX HY Hcs Hst Hne Hhd Hk;
    [contradiction|].
  inversion Hcs as [|? ? Hc Hcs']; subst.
  inversion Hne as [|? ? Hnc Hne']; subst.
  simpl. destruct cs as [|c' cs].
  - simpl. apply refined_agree; auto.
    apply Hk. constructor; [lia | constructor].
  - assert (HneY : start_ts c <> start_ts Y) by congruence.
    apply IH; auto using refined_valid; try discriminate.
    + rewrite !refined_start by assumption. exact Hst.
    + rewrite refined_start by assumption. exact Hne'.
    + destruct (refined_merge_keeps X c (start_ts c) HX Hc Hnc (Z.le_refl _)) as [K1 _].
      destruct (refined_merge_keeps Y c (start_ts c) HY Hc HneY (Z.le_refl _)) as [K2 _].
      congruence.
    + intros m Hm.
      destruct (Z_le_gt_dec m (start_ts c)) as [Hle | Hgt].
      * destruct (refined_merge_keeps X c m HX Hc Hnc Hle) as [_ K1].
        destruct (refined_merge_keeps Y c m HY Hc HneY Hle) as [_ K2].
        rewrite K1, K2. apply Hk. constructor; assumption.
      * rewrite (refined_agree X Y c); auto.
        apply Hk. constructor; [lia|].
        eapply Forall_impl; [|exact Hm]. simpl. intros; lia.
Qed.

Lemma fold_refined_opening (cs : list Bar) (X : Bar) :
  olds X <> [] -> Forall (fun c => olds c <> []) cs ->
  Forall (fun c => start_ts c <> start_ts X) cs ->
  hd_error (olds (fold_left refined cs X)) = hd_error (olds X).
Proof.
  revert X. induction cs as [|c cs IH]; intros X HX Hcs Hne; simpl; [reflexivity|].
  inversion Hcs as [|? ? Hc Hcs']; subst.
  inversion Hne as [|? ? Hnc Hne']; subst.
  destruct (refined_merge_keeps X c (start_ts c) HX Hc Hnc (Z.le_refl _)) as [K1 _].
  rewrite IH; auto using refined_valid.
  rewrite refined_start by assumption. exact Hne'.
Qed.

Lemma start_ts_dec (X : Bar) (c : Bar) :
  {start_ts c <> start_ts X} + {~ start_ts c <> start_ts X}.
Proof.
  destruct (Z.eq_dec (start_ts c) (start_ts X)) as [e | n];
    [right; intros n; exact (n e) | left; exact n].
Qed.

(** Running the same run of bars of the head's bucket on its own result
    changes nothing. *)
Lemma fold_refined_again (cs : list Bar) (X : Bar) :
  olds X <> [] -> Forall (fun c => olds c <> []) cs ->
  fold_left refined cs (fold_left refined cs X) = fold_left refined cs X.
Proof.
  intros HX Hcs.
  destruct cs as [|c0 cs0] eqn:Ecs; [reflexivity|]. rewrite <- Ecs in *.
  assert (Hnil : cs <> []) by (rewrite Ecs; discriminate).
  destruct (fold_refined_valid cs X HX Hcs) as [HvN HsN].
  destruct (Forall_Exists_dec (fun c => start_ts c <> start_ts X)
              (start_ts_dec X) cs) as [Hall | Hex].
  - apply fold_refined_merged; auto.
    + rewrite HsN. exact Hall.
    + apply fold_refined_opening; assumption.
    + intros m Hm. apply (fold_refined_keeps cs X m HX Hcs Hall Hm).
  - apply fold_refined_replaced; auto.
    rewrite HsN. apply Exists_exists in Hex. apply Exists_exists.
    destruct Hex as (c & Hin & Hc). exists c. split; [exact Hin|]. lia.
Qed.

Lemma refine_loop_again (cs : list Bar) (X N : Bar) :
  refine_loop X cs = (N, true) -> fst (refine_loop N cs) = N.
Proof.
  intros Hl. destruct (refine_loop_done _ _ _ Hl) as [-> | [HX Hcs]].
  - reflexivity.
  - rewrite (refine_loop_fold _ _ HX Hcs) in Hl. injection Hl as <-.
    destruct (fold_refined_valid cs X HX Hcs) as [HvN _].
    rewrite (refine_loop_fold _ _ HvN Hcs). simpl.
    apply fold_refined_again; assumption.
Qed.

(** The same for a run whose first bar opened the bucket: on the result,
    that first bar replaces the head and the run goes as before. *)
Lemma refine_loop_again_opened (cs : list Bar) (c1 N : Bar) :
  refine_loop c1 cs = (N, true) -> fst (refine_loop N (c1 :: cs)) = N.
Proof.
  intros Hl.
  destruct (olds c1) as [|f r] eqn:E1.
  - destruct (refine_loop_done _ _ _ Hl) as [-> | [HX _]]; [|congruence].
    simpl in Hl. injection Hl as <-. simpl.
    assert (Hn : refine_head c1 c1 = None) by (apply refine_head_none; now left).
    rewrite Hn. reflexivity.
  - assert (H1 : olds c1 <> []) by (rewrite E1; discriminate).
    assert (Hcs : Forall (fun c => olds c <> []) cs).
    { destruct (refine_loop_done _ _ _ Hl) as [-> | [_ Hcs]]; [constructor | exact Hcs]. }
    pose proof Hl as Hl'.
    rewrite (refine_loop_fold _ _ H1 Hcs) in Hl'. injection Hl' as HN.
    destruct (fold_refined_valid cs c1 H1 Hcs) as [HvN HsN]. rewrite HN in HvN, HsN.
    simpl. rewrite (refine_head_refined _ _ HvN H1).
    rewrite refined_replace by auto. rewrite Hl. reflexivity.
Qed.

(** *** The loop on the stored sequence *)

Lemma refine_head_tstamp (head b h' : Bar) :
  refine_head head b = Some h' -> tstamp h' = tstamp b.
Proof.
  intros Hr. apply refine_head_some in Hr. destruct Hr as (Hh & Hb & ->).
  apply tstamp_refined; assumption.
Qed.

(** Once no incoming bar is newer than the head, the loop only works on the
    head, with the bars of the head's bucket. *)
Lemma merge_loop_same_bucket (q : list Bar) (N : Bar) (older : list Bar) :
  Forall (fun c => tstamp c <= tstamp N) q ->
  merge_loop (N :: older) q =
  (fst (refine_loop N (of_bucket (tstamp N) q)) :: older,
   snd (refine_loop N (of_bucket (tstamp N) q))).
Proof.
  revert N. induction q as [|c q IH]; intros N Hq; [reflexivity|].
  inversion Hq as [|? ? Hc Hq']; subst.
  cbn [merge_loop merge_step of_bucket filter].
  destruct (tstamp c <? tstamp N) eqn:Hlt.
  - assert (E : (tstamp c =? tstamp N) = false)
      by (apply Z.ltb_lt in Hlt; apply Z.eqb_neq; lia).
    rewrite E. apply IH. exact Hq'.
  - assert (E : (tstamp c =? tstamp N) = true)
      by (apply Z.ltb_ge in Hlt; apply Z.eqb_eq; lia).
    rewrite E. cbn [refine_loop].
    destruct (refine_head N c) as [h'|] eqn:Hr; [|reflexivity].
    assert (Hts : tstamp h' = tstamp N).
    { rewrite (refine_head_tstamp _ _ _ Hr). apply Z.eqb_eq. exact E. }
    rewrite IH by (rewrite Hts; exact Hq').
    unfold of_bucket. rewrite Hts. reflexivity.
Qed.

(** What a loop that ran to its end has done: no incoming bar is newer than
    the final head, and the final head comes from the old head or from the
    first incoming bar of its bucket, refined by the later ones. *)
Lemma merge_loop_done (p : list Bar) (h : Bar) (older bars1 : list Bar) :
  merge_loop (h :: older) p = (bars1, true) ->
  exists N older',
    bars1 = N :: older' /\
    Forall (fun c => tstamp c <= tstamp N) p /\
    tstamp h <= tstamp N /\
    ((tstamp N = tstamp h /\
      refine_loop h (of_bucket (tstamp N) p) = (N, true)) \/
     (tstamp h < tstamp N /\
      exists c1 cs, of_bucket (tstamp N) p = c1 :: cs /\
                    refine_loop c1 cs = (N, true))).
Proof.
  revert h older. induction p as [|b p IH]; intros h older.
  - simpl. intros [= <-]. exists h, older.
    repeat split; [constructor | lia | left; split; reflexivity].
  - cbn [merge_loop merge_step].
    destruct (tstamp b <? tstamp h) eqn:Hlt.
    + intros Hl. destruct (IH _ _ Hl) as (N & older' & -> & Hall & Hle & Hcase).
      apply Z.ltb_lt in Hlt.
      assert (E : (tstamp b =? tstamp N) = false) by (apply Z.eqb_neq; lia).
      exists N, older'. repeat split; [constructor; [lia | exact Hall] | exact Hle|].
      unfold of_bucket in *. cbn [filter]. rewrite E. exact Hcase.
    + destruct (tstamp b =? tstamp h) eqn:Heq.
      * destruct (refine_head h b) as [h'|] eqn:Hr; [|discriminate].
        intros Hl. destruct (IH _ _ Hl) as (N & older' & -> & Hall & Hle & Hcase).
        apply Z.eqb_eq in Heq.
        pose proof (refine_head_tstamp _ _ _ Hr) as Hts.
        exists N, older'.
        repeat split; [constructor; [lia | exact Hall] | lia |].
        unfold of_bucket in *. cbn [filter].
        destruct Hcase as [[HN Hrun] | [HN Hrun]].
        -- left. split; [lia|].
           assert (E : (tstamp b =? tstamp N) = true) by (apply Z.eqb_eq; lia).
           rewrite E. cbn [refine_loop]. rewrite Hr. exact Hrun.
        -- right. split; [lia|].
           assert (E : (tstamp b =? tstamp N) = false) by (apply Z.eqb_neq; lia).
           rewrite E. exact Hrun.
      * intros Hl. destruct (IH _ _ Hl) as (N & older' & -> & Hall & Hle & Hcase).
        apply Z.ltb_ge in Hlt. apply Z.eqb_neq in Heq.
        exists N, older'.
        repeat split; [constructor; [lia | exact Hall] | lia |].
        right. split; [lia|].
        unfold of_bucket in *. cbn [filter].
        destruct Hcase as [[HN Hrun] | [HN Hrun]].
        -- assert (E : (tstamp b =? tstamp N) = true) by (apply Z.eqb_eq; lia).
           rewrite E. eauto.
        -- assert (E : (tstamp b =? tstamp N) = false) by (apply Z.eqb_neq; lia).
           rewrite E. exact Hrun.
Qed.

(** After a loop that ran to its end, a second loop over the same bars
    leaves the stored sequence as it is. *)
Lemma merge_loop_again (p bars bars1 : list Bar) :
  merge_loop bars p = (bars1, true) -> fst (merge_loop bars1 p) = bars1.
Proof.
  destruct bars as [|h older].
  - destruct p as [|b p]; simpl; [|discriminate]. intros [= <-]. reflexivity.
  - intros Hl.
    destruct (merge_loop_done _ _ _ _ Hl) as (N & older' & -> & Hall & _ & Hcase).
    rewrite (merge_loop_same_bucket _ _ _ Hall). simpl. f_equal.
    destruct Hcase as [[_ Hrun] | [_ (c1 & cs & -> & Hrun)]].
    + apply (refine_loop_again _ _ _ Hrun).
    + apply refine_loop_again_opened. exact Hrun.
Qed.

Lemma merge_loop_app (p r bars : list Bar) :
  merge_loop bars (p ++ r) =
  (if snd (merge_loop bars p) then merge_loop (fst (merge_loop bars p)) r
   else (fst (merge_loop bars p), false)).
Proof.
  revert bars. induction p as [|b p IH]; intros bars; simpl; [reflexivity|].
  destruct (merge_step bars b) as [bars'|]; [apply IH | reflexivity].
Qed.

Lemma merge_loop_stopped (bs bars bars1 : list Bar) :
  merge_loop bars bs = (bars1, false) ->
  exists p c r, bs = p ++ c :: r /\
                merge_loop bars p = (bars1, true) /\
                merge_step bars1 c = None.
Proof.
  revert bars. induction bs as [|b bs IH]; intros bars; simpl; [discriminate|].
  destruct (merge_step bars b) as [bars'|] eqn:Hs.
  - intros Hl. destruct (IH _ Hl) as (p & c & r & -> & Hp & Hc).
    exists (b :: p), c, r. simpl. rewrite Hs. auto.
  - intros [= <-]. exists [], b, bs. auto.
Qed.

(** C2.  Merge idempotence: the incremental merge of a batch into the bars
    that the incremental merge of the same batch has left stores the same
    sequence of bars as the first merge alone. *)
Theorem update_bars_merge_twice_is_once (bars new_bars : list Bar) :
  fst (merge_incremental (fst (merge_incremental bars new_bars)) new_bars)
  = fst (merge_incremental bars new_bars).
Proof.
  unfold merge_incremental.
  destruct (merge_loop bars (rev new_bars)) as [bars1 finished] eqn:Hl.
  simpl. destruct finished.
  - apply (merge_loop_again _ _ _ Hl).
  - destruct (merge_loop_stopped _ _ _ Hl) as (p & c & r & -> & Hp & Hc).
    rewrite merge_loop_app.
    pose proof (merge_loop_again _ _ _ Hp) as Hagain.
    destruct (merge_loop bars1 p) as [bars2 ok] eqn:H2. simpl in *. subst bars2.
    destruct ok; simpl; [rewrite Hc|]; reflexivity.
Qed.

(** When the first merge ran to its end and every incoming bar carries a
    sample, the second merge runs to its end as well. *)
Lemma refine_loop_again_finishes (cs : list Bar) (X N : Bar) :
  refine_loop X cs = (N, true) ->
  Forall (fun c => olds c <> []) cs ->
  snd (refine_loop N cs) = true.
Proof.
  intros Hl Hcs. destruct (refine_loop_done _ _ _ Hl) as [-> | [HX _]].
  - reflexivity.
  - rewrite (refine_loop_fold _ _ HX Hcs) in Hl. injection Hl as <-.
    destruct (fold_refined_valid cs X HX Hcs) as [HvN _].
    rewrite (refine_loop_fold _ _ HvN Hcs). reflexivity.
Qed.

Lemma merge_loop_again_finishes (p bars bars1 : list Bar) :
  Forall (fun c => subbars c <> []) p ->
  merge_loop bars p = (bars1, true) ->
  snd (merge_loop bars1 p) = true.
Proof.
  intros Hp.
  assert (Hv : forall ts, Forall (fun c => olds c <> []) (of_bucket ts p)).
  { intros ts. apply Forall_forall. intros c Hc. apply filter_In in Hc.
    destruct Hc as [Hc _]. rewrite Forall_forall in Hp. specialize (Hp _ Hc).
    unfold olds. intros E. apply Hp.
    rewrite <- (rev_involutive (subbars c)), E. reflexivity. }
  destruct bars as [|h older].
  - destruct p as [|b p]; simpl; [|discriminate]. intros [= <-]. reflexivity.
  - intros Hl.
    destruct (merge_loop_done _ _ _ _ Hl) as (N & older' & -> & Hall & _ & Hcase).
    rewrite (merge_loop_same_bucket _ _ _ Hall). simpl.
    destruct Hcase as [[_ Hrun] | [_ (c1 & cs & E & Hrun)]].
    + apply (refine_loop_again_finishes _ _ _ Hrun). apply Hv.
    + specialize (Hv (tstamp N)). rewrite E in *.
      inversion Hv as [|? ? H1 Hcs]; subst.
      pose proof Hrun as Hrun'.
      rewrite (refine_loop_fold _ _ H1 Hcs) in Hrun'. injection Hrun' as HN.
      destruct (fold_refined_valid cs c1 H1 Hcs) as [HvN _]. rewrite HN in HvN.
      rewrite (refine_loop_fold _ _ HvN Hv). reflexivity.
Qed.

(** X7.  When the first merge of a batch ran to its end and every bar of
    the batch carries a subbar, the merge of the same batch into its result
    runs to its end too and stores the same bars. *)
Lemma update_bars_merge_again_finishes (bars new_bars : list Bar) :
  Forall (fun c => subbars c <> []) new_bars ->
  snd (merge_incremental bars new_bars) = true ->
  merge_incremental (fst (merge_incremental bars new_bars)) new_bars
  = merge_incremental bars new_bars.
Proof.
  unfold merge_incremental. intros Hp Hfin.
  assert (Hp' : Forall (fun c => subbars c <> []) (rev new_bars)).
  { apply Forall_forall. intros c Hc. apply in_rev in Hc.
    rewrite Forall_forall in Hp. auto. }
  destruct (merge_loop bars (rev new_bars)) as [bars1 fin] eqn:Hl.
  simpl in *. subst fin.
  pose proof (merge_loop_again _ _ _ Hl) as H1.
  pose proof (merge_loop_again_finishes _ _ _ Hp' Hl) as H2.
  destruct (merge_loop bars1 (rev new_bars)); simpl in *. congruence.
Qed.

(** *** What the merge branch keeps in every case *)

Lemma take_newer_increasing (l : list Subbar) (newest : Z) :
  increasing (map sub_tstamp (take_newer l newest)).
Proof.
  revert newest. induction l as [|s l IH]; intros newest; simpl; [exact I|].
  destruct (sub_tstamp s >? newest); [|apply IH].
  simpl. split; [|apply IH].
  rewrite Forall_map. apply take_newer_above.
Qed.

Lemma take_newer_incl (l : list Subbar) (newest : Z) (s : Subbar) :
  In s (take_newer l newest) -> In s l.
Proof.
  revert newest. induction l as [|a l IH]; intros newest; simpl; [tauto|].
  destruct (sub_tstamp a >? newest); simpl.
  - intros [-> | H]; [now left | right; eapply IH; exact H].
  - intros H. right. eapply IH; exact H.
Qed.

Lemma increasing_last_max (l : list Z) (d x : Z) :
  increasing l -> In x l -> x <= last l d.
Proof.
  induction l as [|a l IH]; simpl; [tauto|].
  intros [Hall Hi] [<- | Hin].
  - destruct l as [|b l]; [lia|].
    rewrite Forall_forall in Hall.
    assert (Hb : In (last (b :: l) d) (b :: l)).
    { destruct (exists_last (l := b :: l)) as (l' & z & E); [discriminate|].
      rewrite E, last_last. apply in_or_app. right. now left. }
    specialize (Hall _ Hb). lia.
  - destruct l as [|b l]; [contradiction|]. apply IH; assumption.
Qed.

(** X6.  Whatever the incoming bar holds, a merge into a head whose samples
    are in order gives a head whose samples are in order, each taken from
    the old head or from the incoming bar. *)
Lemma merge_keeps_order (head b merged : Bar) (older : list Bar) :
  tstamp b = tstamp head ->
  subbars_ordered head ->
  olds b <> [] ->
  start_ts b <> start_ts head ->
  merge_step (head :: older) b = Some (merged :: older) ->
  subbars_ordered merged /\
  forall s, In s (subbars merged) -> In s (subbars head) \/ In s (subbars b).
Proof.
  intros Hts Hoh Hb Hne. unfold merge_step.
  assert (E1 : (tstamp b <? tstamp head) = false) by (apply Z.ltb_ge; lia).
  assert (E2 : (tstamp b =? tstamp head) = true) by (apply Z.eqb_eq; lia).
  rewrite E1, E2.
  destruct (refine_head head b) as [h'|] eqn:Hr; [|discriminate].
  intros [= <-]. apply refine_head_some in Hr. destruct Hr as (Hh & _ & ->).
  unfold refined, subbars_ordered, start_ts in *.
  destruct (olds head) as [|hf hrest] eqn:Eh; [contradiction|].
  destruct (olds b) as [|bf brest] eqn:Eb; [contradiction|].
  assert (E3 : (sub_tstamp bf =? sub_tstamp hf) = false) by (apply Z.eqb_neq; exact Hne).
  rewrite E3, olds_build. unfold merged_rest.
  set (kept := take_older (sub_tstamp bf) hrest).
  set (newer := take_newer (bf :: brest) (sub_tstamp (last kept hf))).
  destruct (take_older_split (sub_tstamp bf) hrest) as [dropped Hsplit].
  fold kept in Hsplit.
  simpl in Hoh. destruct Hoh as [Hh1 Hh2].
  assert (Hinc : increasing (map sub_tstamp (hf :: kept))).
  { simpl. rewrite Hsplit, map_app in Hh1, Hh2.
    apply Forall_app in Hh1. apply increasing_app in Hh2. tauto. }
  assert (Hlast : sub_tstamp (last kept hf)
                  = last (map sub_tstamp (hf :: kept)) 0).
  { clear. assert (G : forall l d, l <> [] ->
                       sub_tstamp (last l d) = last (map sub_tstamp l) 0).
    { induction l as [|a l IH]; intros d Hl; [contradiction|].
      destruct l as [|a' l]; [reflexivity|].
      change (sub_tstamp (last (a' :: l) d) = last (map sub_tstamp (a' :: l)) 0).
      apply IH. discriminate. }
    rewrite <- (G (hf :: kept) hf) by discriminate.
    destruct kept; reflexivity. }
  split.
  - change (hf :: kept ++ newer) with ((hf :: kept) ++ newer).
    rewrite map_app. apply increasing_app.
    split; [exact Hinc|]. split; [apply take_newer_increasing|].
    intros x y Hx Hy.
    pose proof (increasing_last_max _ 0 x Hinc Hx) as Hmax.
    apply in_map_iff in Hy. destruct Hy as (sy & <- & Hy).
    pose proof (take_newer_above (bf :: brest) (sub_tstamp (last kept hf))) as Hab.
    rewrite Forall_forall in Hab. specialize (Hab _ Hy). lia.
  - intros s Hs. apply in_rev in Hs. fold (olds (build (tstamp b) hf (kept ++ newer))) in Hs.
    rewrite olds_build in Hs.
    destruct Hs as [<- | Hs].
    + left. apply in_rev. fold (olds head). rewrite Eh. now left.
    + apply in_app_or in Hs. destruct Hs as [Hs | Hs].
      * left. apply in_rev. fold (olds head). rewrite Eh, Hsplit.
        right. apply in_or_app. now left.
      * right. apply in_rev. fold (olds b). rewrite Eb.
        eapply take_newer_incl. exact Hs.
Qed.

End BarFacts.

(** *** The bar merge on concrete bars *)

Module BarExamples.

Import Bars BarSpec BarFacts Examples.

(** The merge of [next_incoming] into [early_head] is within the conditions
    of [merge_is_union_when_incoming_extends_head]. *)
Lemma merge_is_union_witness :
  exists merged,
    merge_step [early_head] next_incoming = Some [merged] /\
    subbars_ordered merged /\
    NoDup (sub_stamps merged) /\
    forall t, In t (sub_stamps merged) <->
              In t (sub_stamps early_head) \/ In t (sub_stamps next_incoming).
Proof.
  apply (merge_is_union_when_incoming_extends_head
           early_head next_incoming [] (sample 10) (sample 20)).
  - reflexivity.
  - reflexivity.
  - reflexivity.
  - unfold subbars_ordered; simpl; repeat constructor; lia.
  - unfold subbars_ordered; simpl; repeat constructor; lia.
  - simpl; lia.
  - intros s Hin Hle; simpl in Hin.
    destruct Hin as [<- | [<- | [<- | []]]]; simpl in *; lia || tauto.
Defined.

(** C1, as stated, fails.  The head holds the samples 20 and 30, the
    incoming bar of the same bucket holds 10, 20, 30 and 40 and so starts at
    another sample than the head; both are in order.  The merged head holds
    20, 30 and 40: the incoming bar's sample 10 is lost. *)
Lemma merge_loses_sample_before_head :
  tstamp wide_incoming = tstamp late_head /\
  py_last (subbars late_head) = Some (sample 20) /\
  py_last (subbars wide_incoming) = Some (sample 10) /\
  sub_tstamp (sample 10) <> sub_tstamp (sample 20) /\
  subbars_ordered late_head /\
  subbars_ordered wide_incoming /\
  exists merged,
    merge_step [late_head] wide_incoming = Some [merged] /\
    sub_stamps merged = [40; 30; 20] /\
    In 10 (sub_stamps wide_incoming) /\
    ~ In 10 (sub_stamps merged).
Proof.
  repeat split; try reflexivity; try (simpl; lia);
    try (unfold subbars_ordered; simpl; repeat constructor; lia).
  eexists. split; [vm_compute; reflexivity|].
  split; [reflexivity|].
  split; [simpl; tauto|].
  simpl. intros [H | [H | [H | []]]]; discriminate.
Qed.

(** [update_bars_keeps_buckets_ordered] on ten stored bars and a batch that
    refines the head and opens a bucket. *)
Lemma buckets_ordered_witness :
  buckets_ordered ten_bars /\
  buckets_ordered (fst (merge_incremental ten_bars fresh_batch)).
Proof.
  assert (H : buckets_ordered ten_bars)
    by (unfold buckets_ordered; simpl; repeat constructor; lia).
  split; [exact H|].
  apply (update_bars_keeps_buckets_ordered ten_bars fresh_batch H).
Defined.

(** The same batch merged twice into ten stored bars, computed. *)
Example merge_twice_ten_bars :
  merge_incremental ten_bars fresh_batch
  = (bar_of 660 [660] :: build 600 (sample 600) [sample 610; sample 620]
       :: tl ten_bars, true) /\
  merge_incremental (fst (merge_incremental ten_bars fresh_batch)) fresh_batch
  = merge_incremental ten_bars fresh_batch.
Proof. split; vm_compute; reflexivity. Qed.

End BarExamples.

(** ** The account reconciliation *)

Module AccountFacts.

Import Bars Accounts Engine EngineSpec.

Lemma collect_ids_map (orders : list Order) (ids : list string) :
  collect_ids orders ids = ids ++ map id orders.
Proof.
  revert ids. induction orders as [|o orders IH]; intros ids; simpl.
  - rewrite app_nil_r. reflexivity.
  - rewrite IH, <- app_assoc. reflexivity.
Qed.

Lemma id_in_In (i : string) (ids : list string) :
  id_in i ids = true <-> In i ids.
Proof.
  unfold id_in. rewrite existsb_exists. split.
  - intros (x & Hin & E). apply String.eqb_eq in E. subst. exact Hin.
  - intros Hin. exists i. split; [exact Hin | apply String.eqb_refl].
Qed.

Lemma nonempty_id (i : string) :
  (0 <? String.length i)%nat = true <-> i <> ""%string.
Proof.
  destruct i; simpl; split; intros H; try reflexivity; try discriminate.
  contradiction.
Qed.

Lemma leaves_open_set_iff (prev : list string) (o : Order) :
  leaves_open_set prev o = true <->
  active o = false /\ id o <> ""%string /\ In (id o) prev.
Proof.
  unfold leaves_open_set.
  rewrite !andb_true_iff, negb_true_iff, nonempty_id, id_in_In. tauto.
Qed.

(** The loop in one piece: the active orders go to the open set, the orders
    that leave the open set go to the history, each with its log line. *)
Lemma reconcile_filter (prev : list string) (orders : list Order)
    (acc : Account) (lines : list OrderLine) :
  reconcile prev orders acc lines =
  ({| balance := balance acc;
      open_orders := open_orders acc ++ filter active orders;
      order_history := order_history acc ++ filter (leaves_open_set prev) orders |},
   lines ++ map order_line (filter (leaves_open_set prev) orders)).
Proof.
  revert acc lines. induction orders as [|o orders IH]; intros acc lines.
  - simpl. rewrite !app_nil_r. destruct acc; reflexivity.
  - cbn [reconcile filter].
    assert (E : leaves_open_set prev o =
                negb (active o) && ((0 <? String.length (id o))%nat && id_in (id o) prev))
      by reflexivity.
    destruct (active o); simpl in E.
    + rewrite E, IH. simpl. rewrite <- app_assoc. reflexivity.
    + destruct ((0 <? String.length (id o))%nat && id_in (id o) prev); rewrite E.
      * rewrite IH. simpl. rewrite <- !app_assoc. reflexivity.
      * apply IH.
Qed.

Lemma order_lines_app (a b : list log_entry) :
  order_lines (a ++ b) = order_lines a ++ order_lines b.
Proof.
  induction a as [|e a IH]; simpl; [reflexivity|].
  destruct e; simpl; rewrite IH; reflexivity.
Qed.

Lemma order_lines_map (lines : list OrderLine) :
  order_lines (map LogOrder lines) = lines.
Proof. induction lines as [|l lines IH]; simpl; congruence. Qed.

Section WithVenue.

Context {W : Type} `{EX : ExchangeInterface W}.

(** [update_account] when both gateway calls return. *)
Lemma update_account_returns (st : LiveTrading W) (bal : Z) (w1 w2 : W)
    (orders : list Order) :
  ex_update_account (account st) (env st) = (Val bal, w1) ->
  ex_get_orders w1 = (Val orders, w2) ->
  let moved := filter (leaves_open_set (open_ids (account st))) orders in
  update_account st =
  (Val tt,
   {| settings := settings st; last_tick := last_tick st; alive := alive st;
      symbolInfo := symbolInfo st; bars := bars st;
      account := {| balance := bal;
                    open_orders := filter active orders;
                    order_history := order_history (account st) ++ moved |};
      env := w2;
      calls := (calls st ++ [CallUpdateAccount]) ++ [CallGetOrders];
      logger := logger st ++ map LogOrder (map order_line moved) |}).
Proof.
  intros H1 H2 moved.
  unfold update_account, bind, get, call, set_account, log. simpl.
  rewrite H1. simpl. rewrite H2. simpl.
  rewrite reconcile_filter. simpl.
  rewrite collect_ids_map. reflexivity.
Qed.

Lemma count_occ_filter (f : Order -> bool) (l : list Order) (o : Order) :
  f o = true ->
  count_occ Order_eq_dec (filter f l) o = count_occ Order_eq_dec l o.
Proof.
  intros Hf. induction l as [|a l IH]; simpl; [reflexivity|].
  destruct (Order_eq_dec a o) as [-> | Hne].
  - rewrite Hf. simpl. destruct (Order_eq_dec o o); [|contradiction]. congruence.
  - destruct (f a); simpl; [|exact IH].
    destruct (Order_eq_dec a o); [contradiction | exact IH].
Qed.

Lemma outcome_executed (o : Order) :
  outcome o = Executed <-> executed_amount o <> 0.
Proof.
  unfold outcome. destruct (executed_amount o =? 0) eqn:E; simpl.
  - apply Z.eqb_eq in E. split; [discriminate | contradiction].
  - apply Z.eqb_neq in E. tauto.
Qed.

Lemma outcome_canceled (o : Order) :
  outcome o = Canceled <-> executed_amount o = 0.
Proof.
  unfold outcome. destruct (executed_amount o =? 0) eqn:E; simpl.
  - apply Z.eqb_eq in E. tauto.
  - apply Z.eqb_neq in E. split; [discriminate | contradiction].
Qed.

(** C5, as the code has it.  In a reconciliation pass, an order that is
    inactive in the fresh snapshot, has a non-empty id and whose id was in
    the previous open set is appended to the order history, with its log
    line, as many times as the snapshot lists it, so exactly once when the
    snapshot lists it once; the log line says [Executed] exactly when its
    executed amount is not zero and [Canceled] exactly when it is zero. *)
Theorem update_account_records_closed_orders
    (st : LiveTrading W) (bal : Z) (w1 w2 : W) (orders : list Order) (o : Order) :
  ex_update_account (account st) (env st) = (Val bal, w1) ->
  ex_get_orders w1 = (Val orders, w2) ->
  In o orders ->
  active o = false ->
  id o <> ""%string ->
  In (id o) (open_ids (account st)) ->
  exists st' appended,
    update_account st = (Val tt, st') /\
    order_history (account st') = order_history (account st) ++ appended /\
    order_lines (logger st') = order_lines (logger st) ++ map order_line appended /\
    In o appended /\
    count_occ Order_eq_dec appended o = count_occ Order_eq_dec orders o /\
    (line_outcome (order_line o) = Executed <-> executed_amount o <> 0) /\
    (line_outcome (order_line o) = Canceled <-> executed_amount o = 0).
Proof.
  intros H1 H2 Hin Hact Hid Hprev.
  assert (Hleaves : leaves_open_set (open_ids (account st)) o = true)
    by (apply leaves_open_set_iff; auto).
  eexists. exists (filter (leaves_open_set (open_ids (account st))) orders).
  split; [apply (update_account_returns st bal w1 w2 orders H1 H2)|].
  simpl. split; [reflexivity|].
  split; [rewrite order_lines_app, order_lines_map; reflexivity|].
  split; [apply filter_In; auto|].
  split; [apply count_occ_filter; exact Hleaves|].
  split; [apply outcome_executed | apply outcome_canceled].
Qed.

(** C6.  Reconciliation safety: in a reconciliation pass, an order of the
    fresh snapshot that has an empty id, or whose id was not in the previous
    open set, is not appended to the order history, and neither the history
    entries nor the log lines of the pass bear its id; when it is inactive
    it is not in the new open set either: it is dropped without a trace. *)
Theorem update_account_drops_untracked_orders
    (st : LiveTrading W) (bal : Z) (w1 w2 : W) (orders : list Order) (o : Order) :
  ex_update_account (account st) (env st) = (Val bal, w1) ->
  ex_get_orders w1 = (Val orders, w2) ->
  In o orders ->
  id o = ""%string \/ ~ In (id o) (open_ids (account st)) ->
  exists st' appended,
    update_account st = (Val tt, st') /\
    order_history (account st') = order_history (account st) ++ appended /\
    order_lines (logger st') = order_lines (logger st) ++ map order_line appended /\
    Forall (fun a => id a <> ""%string /\ In (id a) (open_ids (account st))) appended /\
    ~ In o appended /\
    ~ In (id o) (map line_id (map order_line appended)) /\
    (active o = false -> ~ In o (open_orders (account st'))).
Proof.
  intros H1 H2 Hin Hbad.
  eexists. exists (filter (leaves_open_set (open_ids (account st))) orders).
  split; [apply (update_account_returns st bal w1 w2 orders H1 H2)|].
  simpl. split; [reflexivity|].
  split; [rewrite order_lines_app, order_lines_map; reflexivity|].
  assert (Hall : Forall (fun a => id a <> ""%string /\ In (id a) (open_ids (account st)))
                        (filter (leaves_open_set (open_ids (account st))) orders)).
  { apply Forall_forall. intros a Ha. apply filter_In in Ha.
    destruct Ha as [_ Ha]. apply leaves_open_set_iff in Ha. tauto. }
  split; [exact Hall|].
  rewrite Forall_forall in Hall.
  split; [|split].
  - intros Ha. destruct (Hall _ Ha) as [Hne Hp]. tauto.
  - rewrite map_map. intros Ha. apply in_map_iff in Ha.
    destruct Ha as (a & Hid & Ha). simpl in Hid.
    destruct (Hall _ Ha) as [Hne Hp]. rewrite Hid in *. tauto.
  - intros Hact Ha. apply filter_In in Ha. destruct Ha as [_ Ha]. congruence.
Qed.

(** C10.  In a reconciliation pass, an order whose id was in the previous
    open set and that the fresh snapshot does not list at all is no longer
    in the open set, and the pass appends no history entry and writes no
    log line with its id. *)
Theorem update_account_forgets_vanished_orders
    (st : LiveTrading W) (bal : Z) (w1 w2 : W) (orders : list Order) (i : string) :
  ex_update_account (account st) (env st) = (Val bal, w1) ->
  ex_get_orders w1 = (Val orders, w2) ->
  In i (open_ids (account st)) ->
  (forall o, In o orders -> id o <> i) ->
  exists st' appended,
    update_account st = (Val tt, st') /\
    ~ In i (open_ids (account st')) /\
    order_history (account st') = order_history (account st) ++ appended /\
    ~ In i (map id appended) /\
    order_lines (logger st') = order_lines (logger st) ++ map order_line appended /\
    ~ In i (map line_id (map order_line appended)).
Proof.
  intros H1 H2 Hprev Hgone.
  eexists. exists (filter (leaves_open_set (open_ids (account st))) orders).
  split; [apply (update_account_returns st bal w1 w2 orders H1 H2)|].
  unfold open_ids at 1. simpl.
  assert (Hno : forall f, ~ In i (map id (filter f orders))).
  { intros f Ha. apply in_map_iff in Ha. destruct Ha as (a & Hid & Ha).
    apply filter_In in Ha. destruct Ha as [Ha _]. exact (Hgone a Ha Hid). }
  split; [apply Hno|].
  split; [reflexivity|].
  split; [apply Hno|].
  split; [rewrite order_lines_app, order_lines_map; reflexivity|].
  rewrite map_map. simpl. apply Hno.
Qed.

End WithVenue.

End AccountFacts.

Module AccountExamples.

Import Bars Accounts Engine EngineSpec AccountFacts Examples.

(** [update_account_records_closed_orders] on the filled order of the
    pass [reconciling]. *)
Lemma records_closed_orders_witness :
  exists st' appended,
    update_account reconciling = (Val tt, st') /\
    order_history (account st') = order_history (account reconciling) ++ appended /\
    order_lines (logger st') =
      order_lines (logger reconciling) ++ map order_line appended /\
    In filled_order appended /\
    count_occ Order_eq_dec appended filled_order
      = count_occ Order_eq_dec snapshot filled_order /\
    (line_outcome (order_line filled_order) = Executed
       <-> executed_amount filled_order <> 0) /\
    (line_outcome (order_line filled_order) = Canceled
       <-> executed_amount filled_order = 0).
Proof.
  apply (update_account_records_closed_orders reconciling 1000
           (calm_venue snapshot) (calm_venue snapshot) snapshot filled_order).
  - reflexivity.
  - reflexivity.
  - simpl; tauto.
  - reflexivity.
  - discriminate.
  - simpl; tauto.
Defined.

(** The pass [reconciling], computed: the filled and the canceled order go
    to the history with their log lines, the resting order stays open, the
    other orders leave no trace. *)
Example reconciling_computed :
  let st' := snd (update_account reconciling) in
  fst (update_account reconciling) = Val tt /\
  open_orders (account st') = [resting_order] /\
  order_history (account st') = [filled_order; canceled_order] /\
  logger st' = [LogOrder {| line_id := "a1"; line_outcome := Executed;
                            line_price := Some 100 |};
                LogOrder {| line_id := "b2"; line_outcome := Canceled;
                            line_price := None |}].
Proof. repeat split. Qed.

(** C5, as stated, fails.  The snapshot lists the same closed order twice;
    it is inactive, has a non-empty id that was in the previous open set,
    and is appended to the order history twice. *)
Lemma closed_order_listed_twice_recorded_twice :
  let st := reconciling_twice_listed in
  let st' := snd (update_account st) in
  fst (update_account st) = Val tt /\
  In filled_order [filled_order; filled_order] /\
  active filled_order = false /\
  id filled_order <> ""%string /\
  In (id filled_order) (open_ids (account st)) /\
  order_history (account st') = order_history (account st)
                                ++ [filled_order; filled_order] /\
  count_occ Order_eq_dec [filled_order; filled_order] filled_order = 2%nat.
Proof.
  repeat split; try (simpl; tauto). discriminate.
Qed.

(** [update_account_drops_untracked_orders] on the order of the pass
    [reconciling] that was never open. *)
Lemma drops_untracked_orders_witness :
  exists st' appended,
    update_account reconciling = (Val tt, st') /\
    order_history (account st') = order_history (account reconciling) ++ appended /\
    order_lines (logger st') =
      order_lines (logger reconciling) ++ map order_line appended /\
    Forall (fun a => id a <> ""%string /\ In (id a) (open_ids (account reconciling)))
           appended /\
    ~ In stray_order appended /\
    ~ In (id stray_order) (map line_id (map order_line appended)) /\
    (active stray_order = false -> ~ In stray_order (open_orders (account st'))).
Proof.
  apply (update_account_drops_untracked_orders reconciling 1000
           (calm_venue snapshot) (calm_venue snapshot) snapshot stray_order).
  - reflexivity.
  - reflexivity.
  - simpl; tauto.
  - right. simpl. intros [H | [H | [H | [H | []]]]]; discriminate.
Defined.

(** [update_account_forgets_vanished_orders] on the order ["d4"] of the
    pass [reconciling], which the snapshot does not list. *)
Lemma forgets_vanished_orders_witness :
  exists st' appended,
    update_account reconciling = (Val tt, st') /\
    ~ In "d4"%string (open_ids (account st')) /\
    order_history (account st') = order_history (account reconciling) ++ appended /\
    ~ In "d4"%string (map id appended) /\
    order_lines (logger st') =
      order_lines (logger reconciling) ++ map order_line appended /\
    ~ In "d4"%string (map line_id (map order_line appended)).
Proof.
  apply (update_account_forgets_vanished_orders reconciling 1000
           (calm_venue snapshot) (calm_venue snapshot) snapshot "d4"%string).
  - reflexivity.
  - reflexivity.
  - simpl; tauto.
  - intros o Hin. simpl in Hin.
    destruct Hin as [<- | [<- | [<- | [<- | [<- | []]]]]]; discriminate.
Defined.

End AccountExamples.

(** ** The engine *)

Module EngineFacts.

Import Bars Accounts Engine EngineSpec.

Section WithVenue.

Context {W : Type} `{EX : ExchangeInterface W} `{BOT : TradingBot W}.

(** *** What keeps [alive] *)

Lemma keeps_ret {A : Type} (a : A) : keeps_alive (@ret W A a).
Proof. intros st. reflexivity. Qed.

Lemma keeps_raise {A : Type} (e : exn) : keeps_alive (@raise W A e).
Proof. intros st. reflexivity. Qed.

Lemma keeps_get {A : Type} (f : LiveTrading W -> A) : keeps_alive (get f).
Proof. intros st. reflexivity. Qed.

Lemma keeps_call {A : Type} (ev : event) (f : W -> Res A * W) :
  keeps_alive (call ev f).
Proof. intros st. unfold call. destruct (f (env st)). reflexivity. Qed.

Lemma keeps_log (l : list log_entry) : keeps_alive (@log W l).
Proof. intros st. reflexivity. Qed.

Lemma keeps_set_bars (v : list Bar) : keeps_alive (@set_bars W v).
Proof. intros st. reflexivity. Qed.

Lemma keeps_set_account (v : Account) : keeps_alive (@set_account W v).
Proof. intros st. reflexivity. Qed.

Lemma keeps_set_symbolInfo (v : Symbol) : keeps_alive (@set_symbolInfo W v).
Proof. intros st. reflexivity. Qed.

Lemma keeps_bind {A B : Type} (m : M W A) (k : A -> M W B) :
  keeps_alive m -> (forall a, keeps_alive (k a)) -> keeps_alive (bind m k).
Proof.
  intros Hm Hk st. unfold bind. specialize (Hm st).
  destruct (m st) as [[a | e] st1]; simpl in *.
  - rewrite Hk. exact Hm.
  - exact Hm.
Qed.

Lemma keeps_try {A : Type} (m : M W A) (h : exn -> M W A) :
  keeps_alive m -> (forall e, keeps_alive (h e)) -> keeps_alive (try_except m h).
Proof.
  intros Hm Hh st. unfold try_except. specialize (Hm st).
  destruct (m st) as [[a | e] st1]; simpl in *.
  - exact Hm.
  - destruct (is_Exception e); simpl; [rewrite Hh|]; exact Hm.
Qed.

Lemma keeps_run_bot {A : Type} (p : BotRun W A) : keeps_alive (run_bot p).
Proof.
  induction p as [r w | o w k IH | o w k IH | i w k IH | line k IH];
    intros st; cbn [run_bot].
  - reflexivity.
  - unfold send_order, call. cbn [set_env snd env].
    destruct (ex_send_order o w) as [r w']. rewrite IH. reflexivity.
  - unfold update_order, call. cbn [set_env snd env].
    destruct (ex_update_order o w) as [r w']. rewrite IH. reflexivity.
  - unfold cancel_order, call. cbn [set_env snd env].
    destruct (ex_cancel_order i w) as [r w']. rewrite IH. reflexivity.
  - rewrite IH. reflexivity.
Qed.

Lemma keeps_call_bot {A : Type} (ev : event) (f : W -> BotRun W A) :
  keeps_alive (call_bot ev f).
Proof. intros st. unfold call_bot. rewrite keeps_run_bot. reflexivity. Qed.

Create HintDb keeps.
#[local] Hint Resolve keeps_ret keeps_raise keeps_get keeps_call keeps_log
  keeps_set_bars keeps_set_account keeps_set_symbolInfo keeps_run_bot
  keeps_call_bot : keeps.

Ltac keeps :=
  repeat first
    [ solve [auto with keeps]
    | apply keeps_bind; [|intros ?]
    | apply keeps_try; [|intros ?]
    | match goal with
      | |- keeps_alive (if ?b then _ else _) => destruct b
      | |- keeps_alive (let (_, _) := ?p in _) => destruct p
      | |- keeps_alive (match ?e with _ => _ end) => destruct e
      end ].

Lemma keeps_update_account : keeps_alive update_account.
Proof. unfold update_account. keeps. Qed.

Lemma keeps_update_bars : keeps_alive update_bars.
Proof. unfold update_bars. keeps. Qed.

Lemma keeps_handle_tick : keeps_alive handle_tick.
Proof.
  unfold handle_tick.
  apply keeps_try; [|intros e; keeps].
  apply keeps_bind; [apply keeps_update_bars | intros _].
  apply keeps_bind; [apply keeps_update_account | intros _].
  keeps.
Qed.

(** *** update_bars: full fetch or incremental merge *)

(** C4.  While fewer than 10 bars are held, [update_bars] makes one call,
    [get_bars], and stores what it returns in place of the held bars; with
    10 bars or more it makes one call, [recent_bars], and stores the
    incremental merge of what it returns. *)
Theorem update_bars_full_fetch_or_merge (st : LiveTrading W) :
  let minutes := MINUTES_PER_BAR (settings st) in
  ((List.length (bars st) < 10)%nat ->
     calls (snd (update_bars st)) = calls st ++ [CallGetBars minutes 0] /\
     forall fetched w,
       ex_get_bars minutes 0 (env st) = (Val fetched, w) ->
       fst (update_bars st) = Val tt /\ bars (snd (update_bars st)) = fetched) /\
  ((10 <= List.length (bars st))%nat ->
     calls (snd (update_bars st)) = calls st ++ [CallRecentBars minutes 0] /\
     forall new_bars w,
       ex_recent_bars minutes 0 (env st) = (Val new_bars, w) ->
       bars (snd (update_bars st)) = fst (merge_incremental (bars st) new_bars) /\
       fst (update_bars st) =
         (if snd (merge_incremental (bars st) new_bars)
          then Val tt else Raise IndexError)).
Proof.
  intros minutes. split; intros Hlen.
  - assert (E : (List.length (bars st) <? 10)%nat = true)
      by (apply Nat.ltb_lt; exact Hlen).
    unfold update_bars, bind, get, call, set_bars. simpl. rewrite E.
    fold minutes. destruct (ex_get_bars minutes 0 (env st)) as [[fetched | e] w] eqn:Hg.
    + simpl. split; [reflexivity|]. intros f w' [= <- <-]. split; reflexivity.
    + simpl. split; [reflexivity|]. intros f w' [=].
  - assert (E : (List.length (bars st) <? 10)%nat = false)
      by (apply Nat.ltb_ge; exact Hlen).
    unfold update_bars, bind, get, call, set_bars. simpl. rewrite E.
    fold minutes. destruct (ex_recent_bars minutes 0 (env st)) as [[new_bars | e] w] eqn:Hg.
    + simpl. destruct (merge_incremental (bars st) new_bars) as [merged finished] eqn:Hm.
      simpl. destruct finished; simpl.
      * split; [reflexivity|]. intros n w' [= <- <-]. rewrite Hm. split; reflexivity.
      * split; [reflexivity|]. intros n w' [= <- <-]. rewrite Hm. split; reflexivity.
    + simpl. split; [reflexivity|]. intros n w' [=].
Qed.

(** *** Initialization *)

#[local] Hint Resolve keeps_update_bars keeps_update_account keeps_handle_tick : keeps.

(** The initialization steps after an open connectivity check. *)
Lemma keeps_init_open (s : Settings) :
  keeps_alive
    (log [LogStarting] ;;
      sym <- call CallGetInstrument ex_get_instrument ;;
      set_symbolInfo sym ;;
      call_bot BotPrepare bot_prepare ;;
      set_bars [] ;;
      update_bars ;;
      set_account new_account ;;
      update_account ;;
      call_bot BotReset bot_reset ;;
      bs <- get bars ;;
      acc <- get account ;;
      call_bot BotInit (bot_init bs acc sym (settings_id s))).
Proof. keeps. Qed.

(** In a run of steps, the exception of the first step that raises is the
    exception of the run, and the run ends where that step ended. *)
Lemma run_steps_raise (done rest : list (M W unit)) (step : M W unit)
    (st0 st st' : LiveTrading W) (e : exn) :
  run_steps done st0 = (Val tt, st) ->
  step st = (Raise e, st') ->
  run_steps (done ++ step :: rest) st0 = (Raise e, st').
Proof.
  revert st0. induction done as [|d done IH]; intros st0 Hdone Hstep.
  - simpl in Hdone. injection Hdone as <-.
    cbn [app run_steps]. unfold bind. rewrite Hstep. reflexivity.
  - cbn [app run_steps] in *. unfold bind in *.
    destruct (d st0) as [[u | e0] st1]; [|discriminate].
    apply IH; assumption.
Qed.

(** The monad's laws, at a state. *)
Lemma bind_ext {A B : Type} (m : M W A) (k1 k2 : A -> M W B) (st : LiveTrading W) :
  (forall a st', k1 a st' = k2 a st') -> bind m k1 st = bind m k2 st.
Proof.
  intros Hk. unfold bind. destruct (m st) as [[a | e] st']; [apply Hk | reflexivity].
Qed.

Lemma bind_assoc {A B C : Type} (m : M W A) (f : A -> M W B) (g : B -> M W C)
    (st : LiveTrading W) :
  bind (bind m f) g st = bind m (fun a => bind (f a) g) st.
Proof.
  unfold bind. destruct (m st) as [[a | e] st']; reflexivity.
Qed.

Lemma bind_ret_unit (m : M W unit) (st : LiveTrading W) :
  bind m (fun _ => ret tt) st = m st.
Proof.
  unfold bind, ret. destruct (m st) as [[[] | e] st']; reflexivity.
Qed.

(** The constructor after the instrument fetch is the run of the steps
    that follow it. *)
Lemma init_is_startup (s : Settings) (w w1 w2 : W) (sym : Symbol) :
  ex_is_open w = (Val true, w1) ->
  ex_get_instrument w1 = (Val sym, w2) ->
  init s w = run_steps (startup_steps s sym) (with_instrument s sym w2).
Proof.
  intros Ho Hi. unfold init, startup_steps, with_instrument.
  unfold bind at 1. cbn [set_alive].
  unfold bind at 1. unfold call at 1. cbn [env]. rewrite Ho.
  unfold bind at 1. cbn [log].
  unfold bind at 1. unfold call at 1. cbn [env]. rewrite Hi.
  unfold bind at 1. cbn [set_symbolInfo settings last_tick alive symbolInfo bars
                          account env calls logger app].
  cbn [run_steps].
  apply bind_ext. intros _ st1.
  rewrite bind_assoc. apply bind_ext. intros _ st2.
  apply bind_ext. intros _ st3.
  rewrite bind_assoc. apply bind_ext. intros _ st4.
  apply bind_ext. intros _ st5.
  apply bind_ext. intros _ st6.
  symmetry. apply bind_ret_unit.
Qed.

(** The constructor on an open connection leaves [alive] true. *)
Lemma init_open_alive (s : Settings) (w w1 : W) :
  ex_is_open w = (Val true, w1) -> alive (snd (init s w)) = true.
Proof.
  intros Ho. unfold init. unfold bind at 1. simpl.
  unfold bind at 1. unfold call at 1. simpl. rewrite Ho.
  rewrite (keeps_init_open s). reflexivity.
Qed.

(** The constructor on a closed connection, on a connectivity check that
    raises, and on an instrument fetch that raises. *)
Lemma init_closed (s : Settings) (w w1 : W) :
  ex_is_open w = (Val false, w1) ->
  init s w = (Val tt, mkLive s 0%Q false None [] new_account w1 [CallIsOpen] []).
Proof.
  intros Ho. unfold init, bind, call, set_alive. simpl. rewrite Ho. reflexivity.
Qed.

Lemma init_check_raises (s : Settings) (w w1 : W) (e : exn) :
  ex_is_open w = (Raise e, w1) ->
  init s w = (Raise e, mkLive s 0%Q true None [] new_account w1 [CallIsOpen] []).
Proof.
  intros Ho. unfold init, bind, call, set_alive. simpl. rewrite Ho. reflexivity.
Qed.

Lemma init_fetch_raises (s : Settings) (w w1 w2 : W) (e : exn) :
  ex_is_open w = (Val true, w1) ->
  ex_get_instrument w1 = (Raise e, w2) ->
  init s w = (Raise e, mkLive s 0%Q true None [] new_account w2
                              [CallIsOpen; CallGetInstrument] [LogStarting]).
Proof.
  intros Ho Hi. unfold init.
  unfold bind at 1. cbn [set_alive].
  unfold bind at 1. unfold call at 1. cbn [env]. rewrite Ho.
  unfold bind at 1. cbn [log].
  unfold bind at 1. unfold call at 1. cbn [env]. rewrite Hi. reflexivity.
Qed.

(** The cold bar fetch raises exactly what [get_bars] raises, the initial
    account fetch exactly what the balance fetch or, after it, the order
    fetch raises. *)
Lemma cold_fetch_raises_iff (st : LiveTrading W) (e : exn) :
  fst ((set_bars [] ;; update_bars) st) = Raise e <->
  fst (ex_get_bars (MINUTES_PER_BAR (settings st)) 0 (env st)) = Raise e.
Proof.
  unfold update_bars, bind, get, call, set_bars. simpl.
  destruct (ex_get_bars _ _ _) as [[fetched | e'] w]; simpl; split; intros H;
    try discriminate H; injection H as ->; reflexivity.
Qed.

Lemma account_fetch_raises_iff (st : LiveTrading W) (e : exn) :
  fst ((set_account new_account ;; update_account) st) = Raise e <->
  fst (ex_update_account new_account (env st)) = Raise e \/
  exists bal w1,
    ex_update_account new_account (env st) = (Val bal, w1) /\
    fst (ex_get_orders w1) = Raise e.
Proof.
  unfold update_account, bind, get, call, set_account, log. simpl.
  destruct (ex_update_account new_account (env st)) as [[bal | e1] w1]; simpl.
  - destruct (ex_get_orders w1) as [[orders | e2] w2] eqn:Hg; simpl.
    + destruct (reconcile _ _ _ _) as [acc' lines]. simpl. split.
      * discriminate.
      * intros [H | (bal' & w1' & E & H)]; [discriminate|].
        injection E as <- <-. rewrite Hg in H. discriminate.
    + split.
      * intros H. injection H as ->. right. exists bal, w1. rewrite Hg. auto.
      * intros [H | (bal' & w1' & E & H)]; [discriminate|].
        injection E as <- <-. rewrite Hg in H. injection H as ->. reflexivity.
  - split.
    + intros H. injection H as ->. left. reflexivity.
    + intros [H | (bal' & w1' & E & _)]; [|discriminate].
      injection H as ->. reflexivity.
Qed.

(** C7, as the code has it.  An exception raised during the initialization
    sequence propagates out of the constructor, which raises it where the
    failing step ended, with [alive] still true: this holds for the
    connectivity check, for the instrument fetch, and for each of the steps
    that follow (the strategy's [prepare], the cold bar fetch, the initial
    account fetch, the strategy's [reset] and its [init]), whose run the
    constructor is.  The cold bar fetch raises what [get_bars] raises, the
    initial account fetch what the balance fetch or the order fetch raises.
    The engine has [alive] false after its construction exactly when the
    connectivity check returned closed, and then the constructor returns
    after that one call. *)
Theorem init_raises_alive_or_stops_when_closed (s : Settings) (w : W) :
  (forall e, fst (init s w) = Raise e -> alive (snd (init s w)) = true) /\
  (alive (snd (init s w)) = false <-> fst (ex_is_open w) = Val false) /\
  (fst (ex_is_open w) = Val false ->
     fst (init s w) = Val tt /\
     engine_state (snd (init s w)) = Stopped /\
     calls (snd (init s w)) = [CallIsOpen]) /\
  (forall e, fst (ex_is_open w) = Raise e ->
     fst (init s w) = Raise e /\ calls (snd (init s w)) = [CallIsOpen]) /\
  (forall w1, ex_is_open w = (Val true, w1) ->
     (forall e w2, ex_get_instrument w1 = (Raise e, w2) ->
        fst (init s w) = Raise e /\
        calls (snd (init s w)) = [CallIsOpen; CallGetInstrument]) /\
     (forall sym w2, ex_get_instrument w1 = (Val sym, w2) ->
        init s w = run_steps (startup_steps s sym) (with_instrument s sym w2) /\
        forall done step rest st e st',
          startup_steps s sym = done ++ step :: rest ->
          run_steps done (with_instrument s sym w2) = (Val tt, st) ->
          step st = (Raise e, st') ->
          init s w = (Raise e, st') /\ alive st' = true)) /\
  (forall (st : LiveTrading W) e,
     fst ((set_bars [] ;; update_bars) st) = Raise e <->
     fst (ex_get_bars (MINUTES_PER_BAR (settings st)) 0 (env st)) = Raise e) /\
  (forall (st : LiveTrading W) e,
     fst ((set_account new_account ;; update_account) st) = Raise e <->
     fst (ex_update_account new_account (env st)) = Raise e \/
     exists bal w1,
       ex_update_account new_account (env st) = (Val bal, w1) /\
       fst (ex_get_orders w1) = Raise e).
Proof.
  assert (Hfetches :
    (forall (st : LiveTrading W) e,
       fst ((set_bars [] ;; update_bars) st) = Raise e <->
       fst (ex_get_bars (MINUTES_PER_BAR (settings st)) 0 (env st)) = Raise e) /\
    (forall (st : LiveTrading W) e,
       fst ((set_account new_account ;; update_account) st) = Raise e <->
       fst (ex_update_account new_account (env st)) = Raise e \/
       exists bal w1,
         ex_update_account new_account (env st) = (Val bal, w1) /\
         fst (ex_get_orders w1) = Raise e))
    by (split; [apply cold_fetch_raises_iff | apply account_fetch_raises_iff]).
  pose proof (init_open_alive s w) as Hopen.
  pose proof (init_closed s w) as Hclosed.
  assert (Hraise : forall e w1, ex_is_open w = (Raise e, w1) ->
                                init s w = (Raise e, mkLive s 0%Q true None []
                                                      new_account w1 [CallIsOpen] []))
    by (intros e w1; apply init_check_raises).
  assert (Hfetch : forall w1 e w2,
             ex_is_open w = (Val true, w1) ->
             ex_get_instrument w1 = (Raise e, w2) ->
             init s w = (Raise e, mkLive s 0%Q true None [] new_account w2
                                         [CallIsOpen; CallGetInstrument] [LogStarting]))
    by (intros w1 e w2; apply init_fetch_raises).
  assert (Hsteps : forall w1, ex_is_open w = (Val true, w1) ->
     (forall e w2, ex_get_instrument w1 = (Raise e, w2) ->
        fst (init s w) = Raise e /\
        calls (snd (init s w)) = [CallIsOpen; CallGetInstrument]) /\
     (forall sym w2, ex_get_instrument w1 = (Val sym, w2) ->
        init s w = run_steps (startup_steps s sym) (with_instrument s sym w2) /\
        forall done step rest st e st',
          startup_steps s sym = done ++ step :: rest ->
          run_steps done (with_instrument s sym w2) = (Val tt, st) ->
          step st = (Raise e, st') ->
          init s w = (Raise e, st') /\ alive st' = true)).
  { intros w1 Ho. split.
    - intros e w2 Hi. rewrite (Hfetch w1 e w2 Ho Hi). split; reflexivity.
    - intros sym w2 Hi. split; [exact (init_is_startup s w w1 w2 sym Ho Hi)|].
      intros done step rest st e st' Hsplit Hdone Hstep.
      assert (E : init s w = (Raise e, st')).
      { rewrite (init_is_startup s w w1 w2 sym Ho Hi), Hsplit.
        exact (run_steps_raise done rest step _ st st' e Hdone Hstep). }
      split; [exact E|].
      pose proof (Hopen w1 Ho) as Hal. rewrite E in Hal. exact Hal. }
  destruct (ex_is_open w) as [[[|] | e] w1] eqn:Ho; simpl fst.
  - split; [intros e _; apply (Hopen w1 eq_refl)|].
    split; [rewrite (Hopen w1 eq_refl); split; discriminate|].
    split; [discriminate|].
    split; [intros e [=]|].
    split; [|exact Hfetches].
    intros w1' [= <-]. apply (Hsteps w1 eq_refl).
  - rewrite (Hclosed w1 eq_refl). simpl.
    split; [intros e [=]|].
    split; [split; reflexivity|].
    split; [intros _; repeat split|].
    split; [intros e [=]|].
    split; [|exact Hfetches].
    intros w1' [=].
  - rewrite (Hraise e w1 eq_refl). simpl.
    split; [intros e' _; reflexivity|].
    split; [split; discriminate|].
    split; [intros [=]|].
    split; [intros e' [= <-]; split; reflexivity|].
    split; [|exact Hfetches].
    intros w1' [=].
Qed.

(** *** The scheduling loop *)

Lemma Qltb_lt (x y : Q) : Qltb x y = true <-> (x < y)%Q.
Proof.
  unfold Qltb. rewrite negb_true_iff. split.
  - intros H. apply Qnot_le_lt. intros Hle.
    apply Qle_bool_iff in Hle. congruence.
  - intros H. destruct (Qle_bool y x) eqn:E; [|reflexivity].
    apply Qle_bool_iff in E. exfalso. exact (Qlt_not_le _ _ H E).
Qed.

Lemma trigger_iff (interval now last tick : Q) :
  trigger interval now last tick = true <->
  (interval < now - last)%Q \/ ((last < tick)%Q /\ (tick < now - 2)%Q).
Proof.
  unfold trigger. rewrite orb_true_iff, andb_true_iff, !Qltb_lt. reflexivity.
Qed.

Lemma last_cons_default {A : Type} (a : A) (l : list A) (d d' : A) :
  last (a :: l) d = last (a :: l) d'.
Proof.
  revert a. induction l as [|b l IH]; intros a; [reflexivity|].
  change (last (b :: l) d = last (b :: l) d'). apply IH.
Qed.

Lemma run_pushes_last (ps : list Q) (st : LiveTrading W) :
  run_pushes ps st =
  (Val tt, mkLive (settings st) (last ps (last_tick st)) (alive st)
                  (symbolInfo st) (bars st) (account st) (env st)
                  (calls st) (logger st)).
Proof.
  revert st. induction ps as [|p ps IH]; intros st.
  - destruct st; reflexivity.
  - cbn [run_pushes]. unfold bind, on_tick, set_last_tick. rewrite IH.
    cbn [settings last_tick alive symbolInfo bars account env calls logger].
    destruct ps as [|q ps]; [reflexivity|].
    rewrite (last_cons_default q ps p (last_tick st)). reflexivity.
Qed.

(** An evaluation whose condition is false does nothing but read. *)
Lemma loop_body_idle (i : LoopInput) (last : Q) (st : LiveTrading W) :
  trigger (LOOP_INTERVAL (settings st)) (current i) last (seen_tick i st) = false ->
  fst (loop_body i last st) = Val last /\
  calls (snd (loop_body i last st)) = calls st /\
  logger (snd (loop_body i last st)) = logger st /\
  bars (snd (loop_body i last st)) = bars st /\
  account (snd (loop_body i last st)) = account st.
Proof.
  intros Ht. unfold loop_body, bind. rewrite run_pushes_last.
  unfold get. simpl. unfold seen_tick in Ht. rewrite Ht. simpl. auto.
Qed.

(** An evaluation whose condition is true, on an open connection, runs one
    tick and takes the clock reading of line 172 as the new [last]. *)
Lemma loop_body_tick (i : LoopInput) (last : Q) (st : LiveTrading W) (w1 : W) :
  trigger (LOOP_INTERVAL (settings st)) (current i) last (seen_tick i st) = true ->
  ex_is_open (env st) = (Val true, w1) ->
  loop_body i last st = (handle_tick ;; ret (started i)) (after_check i w1 st).
Proof.
  intros Ht Ho. unfold loop_body. unfold bind at 1. rewrite run_pushes_last.
  unfold bind at 1. unfold get at 1. cbn [settings].
  unfold bind at 1. unfold get at 1. cbn [last_tick].
  unfold seen_tick in Ht. rewrite Ht.
  unfold bind at 1. unfold check_connection, call. cbn [env]. rewrite Ho.
  reflexivity.
Qed.

(** C8.  The trigger condition of the loop.  With a loop interval of 5, the
    last execution at 0 and a push recorded at 3, the condition is false at
    every evaluation time up to 5; at an evaluation time before 5 it holds
    only for a push timestamp [tick] with [0 < tick < now - 2]; and in
    general it holds exactly when [now - last > loop_interval] or
    [last < tick < now - 2].  An evaluation whose condition is false calls
    nothing; one whose condition is true, on an open connection, runs a
    tick. *)
Theorem trigger_condition :
  (forall now, (now <= 5)%Q -> trigger 5 now 0 3 = false) /\
  (forall now tick, (now < 5)%Q -> trigger 5 now 0 tick = true ->
                    (0 < tick)%Q /\ (tick < now - 2)%Q) /\
  (forall interval now last tick,
     trigger interval now last tick = true <->
     (interval < now - last)%Q \/ ((last < tick)%Q /\ (tick < now - 2)%Q)) /\
  (forall (st : LiveTrading W) i last,
     trigger (LOOP_INTERVAL (settings st)) (current i) last (seen_tick i st) = false ->
     fst (loop_body i last st) = Val last /\
     calls (snd (loop_body i last st)) = calls st) /\
  (forall (st : LiveTrading W) i last w1,
     trigger (LOOP_INTERVAL (settings st)) (current i) last (seen_tick i st) = true ->
     ex_is_open (env st) = (Val true, w1) ->
     loop_body i last st = (handle_tick ;; ret (started i)) (after_check i w1 st)).
Proof.
  split; [|split; [|split; [|split]]].
  - intros now Hnow. destruct (trigger 5 now 0 3) eqn:E; [|reflexivity].
    apply trigger_iff in E. exfalso. destruct E as [E | [_ E]]; lra.
  - intros now tick Hnow E. apply trigger_iff in E.
    destruct E as [E | E]; [exfalso; lra | exact E].
  - apply trigger_iff.
  - intros st i last Ht. destruct (loop_body_idle i last st Ht) as (H1 & H2 & _).
    split; assumption.
  - intros st i last w1. apply loop_body_tick.
Qed.

(** [exit] on a running engine whose gateway [exit] returns or raises an
    [Exception]: one call to the gateway's [exit], whose failure is logged
    and swallowed, then [alive] is false. *)
Lemma exit_stops (st : LiveTrading W) :
  alive st = true ->
  (forall e, fst (ex_exit (env st)) = Raise e -> is_Exception e = true) ->
  exists w1 lines,
    exit st =
    (Val tt, mkLive (settings st) (last_tick st) false (symbolInfo st) (bars st)
                    (account st) w1 (calls st ++ [CallExit])
                    (logger st ++ lines)).
Proof.
  intros Hal Hex. unfold exit, bind, get, log, try_except, call, set_alive. simpl.
  rewrite Hal. simpl.
  destruct (ex_exit (env st)) as [[[] | e] w1]; simpl in *.
  - exists w1, [LogShutdown]. reflexivity.
  - rewrite (Hex e eq_refl).
    destruct e; simpl; eexists w1, [LogShutdown; _];
      rewrite <- app_assoc; reflexivity.
Qed.

(** [exit] on a running engine whose gateway [exit] raises an exception
    that is no [Exception]: no clause catches it, line 152 is not reached,
    and [exit] raises it with [alive] still true. *)
Lemma exit_interrupted (st : LiveTrading W) (e : exn) (w1 : W) :
  alive st = true ->
  ex_exit (env st) = (Raise e, w1) ->
  is_Exception e = false ->
  exit st =
  (Raise e, mkLive (settings st) (last_tick st) true (symbolInfo st) (bars st)
                   (account st) w1 (calls st ++ [CallExit])
                   (logger st ++ [LogShutdown])).
Proof.
  intros Hal Hex He. unfold exit, bind, get, log, try_except, call, set_alive.
  simpl. rewrite Hal. simpl. rewrite Hex, He, Hal. reflexivity.
Qed.

(** [exit] on a stopped engine returns at once. *)
Lemma exit_stopped (st : LiveTrading W) :
  alive st = false -> exit st = (Val tt, st).
Proof.
  intros Hal. unfold exit, bind, get. simpl. rewrite Hal. reflexivity.
Qed.

(** A stopped engine leaves the loop without another evaluation. *)
Lemma loop_from_stopped (inputs : list LoopInput) (last : Q) (st : LiveTrading W) :
  alive st = false -> loop_from inputs last st = (Val tt, st).
Proof.
  intros Hal. destruct inputs as [|i rest]; [reflexivity|].
  cbn [loop_from]. unfold bind, get. simpl. rewrite Hal. reflexivity.
Qed.

(** An evaluation whose condition is true, on a closed connection: the
    connectivity check, then [exit]. *)
Lemma loop_body_closed_exit (i : LoopInput) (last : Q) (st : LiveTrading W) (w1 : W) :
  trigger (LOOP_INTERVAL (settings st)) (current i) last (seen_tick i st) = true ->
  ex_is_open (env st) = (Val false, w1) ->
  loop_body i last st =
  (exit ;; ret (started i))
    (mkLive (settings st) (seen_tick i st) (alive st) (symbolInfo st) (bars st)
            (account st) w1 (calls st ++ [CallIsOpen])
            (logger st ++ [LogConnectionClosed])).
Proof.
  intros Ht Ho. unfold loop_body. unfold bind at 1. rewrite run_pushes_last.
  unfold bind at 1. unfold get at 1. cbn [settings].
  unfold bind at 1. unfold get at 1. cbn [last_tick].
  unfold seen_tick in Ht. rewrite Ht.
  unfold bind at 1. unfold check_connection, call. cbn [env]. rewrite Ho.
  cbn [negb]. unfold bind at 1 2. cbn [log]. reflexivity.
Qed.

Lemma loop_body_closed (i : LoopInput) (last : Q) (st : LiveTrading W) (w1 : W) :
  alive st = true ->
  trigger (LOOP_INTERVAL (settings st)) (current i) last (seen_tick i st) = true ->
  ex_is_open (env st) = (Val false, w1) ->
  (forall e, fst (ex_exit w1) = Raise e -> is_Exception e = true) ->
  exists w2 lines,
    loop_body i last st =
    (Val (started i),
     mkLive (settings st) (seen_tick i st) false (symbolInfo st) (bars st)
            (account st) w2 (calls st ++ [CallIsOpen; CallExit])
            (logger st ++ lines)).
Proof.
  intros Hal Ht Ho Hex.
  rewrite (loop_body_closed_exit i last st w1 Ht Ho). unfold bind.
  match goal with
  | |- context [exit ?s] =>
      destruct (exit_stops s Hal Hex) as (w2 & lines & E); rewrite E
  end.
  cbn. exists w2, (LogConnectionClosed :: lines).
  rewrite <- !app_assoc. reflexivity.
Qed.

(** C9, as the code has it.  When the connectivity check of an evaluation
    of the loop returns closed, the engine calls [is_open] and the
    gateway's [exit] and nothing else.  If the gateway's [exit] returns or
    raises an [Exception], the engine is stopped ([alive] false), whatever
    evaluations were still to come; a stopped engine makes no call in any
    later evaluation, and [exit] on it does nothing.  If the gateway's
    [exit] raises an exception that is no [Exception], that exception
    leaves the loop and [alive] is still true. *)
Theorem closed_connection_stops_engine
    (st : LiveTrading W) (i : LoopInput) (rest : list LoopInput) (last : Q) (w1 : W) :
  alive st = true ->
  trigger (LOOP_INTERVAL (settings st)) (current i) last (seen_tick i st) = true ->
  ex_is_open (env st) = (Val false, w1) ->
  ((forall e, fst (ex_exit w1) = Raise e -> is_Exception e = true) ->
   exists st',
     loop_from (i :: rest) last st = (Val tt, st') /\
     alive st' = false /\
     engine_state st' = Stopped /\
     calls st' = calls st ++ [CallIsOpen; CallExit] /\
     (forall more last', loop_from more last' st' = (Val tt, st')) /\
     exit st' = (Val tt, st')) /\
  (forall e, fst (ex_exit w1) = Raise e -> is_Exception e = false ->
     fst (loop_from (i :: rest) last st) = Raise e /\
     alive (snd (loop_from (i :: rest) last st)) = true /\
     calls (snd (loop_from (i :: rest) last st)) = calls st ++ [CallIsOpen; CallExit]).
Proof.
  intros Hal Ht Ho. split.
  - intros Hex.
    destruct (loop_body_closed i last st w1 Hal Ht Ho Hex) as (w2 & lines & E).
    eexists. split.
    + cbn [loop_from]. unfold bind at 1. unfold get at 1. cbn [fst snd]. rewrite Hal.
      unfold bind at 1. rewrite E.
      apply loop_from_stopped. reflexivity.
    + split; [reflexivity|].
      split; [reflexivity|].
      split; [reflexivity|].
      split; [intros more last'; apply loop_from_stopped; reflexivity|].
      apply exit_stopped. reflexivity.
  - intros e Hex He.
    destruct (ex_exit w1) as [r w2] eqn:Hx. simpl in Hex. subst r.
    assert (E : loop_from (i :: rest) last st
                = (Raise e,
                   mkLive (settings st) (seen_tick i st) true (symbolInfo st)
                          (bars st) (account st) w2
                          ((calls st ++ [CallIsOpen]) ++ [CallExit])
                          ((logger st ++ [LogConnectionClosed]) ++ [LogShutdown]))).
    { cbn [loop_from]. unfold bind at 1. unfold get at 1. cbn [fst snd]. rewrite Hal.
      unfold bind at 1. rewrite (loop_body_closed_exit i last st w1 Ht Ho).
      unfold bind at 1.
      match goal with
      | |- context [exit ?s] =>
          rewrite (exit_interrupted s e w2 Hal Hx He)
      end.
      reflexivity. }
    rewrite E. cbn [fst snd alive calls]. rewrite <- app_assoc. auto.
Qed.

End WithVenue.

End EngineFacts.

(** *** The engine on concrete venues *)

Module EngineExamples.

Import Bars Accounts Engine EngineSpec EngineFacts Examples MoreExamples.

(** [update_bars_full_fetch_or_merge] on a cold start that holds 3 bars and
    on an engine that holds 10. *)
Lemma full_fetch_or_merge_witness :
  ((List.length three_bars < 10)%nat /\
   calls (snd (update_bars (engine_on (calm_venue []) three_bars [])))
     = [CallGetBars 60 0] /\
   bars (snd (update_bars (engine_on (calm_venue []) three_bars []))) = ten_bars) /\
  ((10 <= List.length ten_bars)%nat /\
   calls (snd (update_bars (engine_on (calm_venue []) ten_bars [])))
     = [CallRecentBars 60 0] /\
   bars (snd (update_bars (engine_on (calm_venue []) ten_bars [])))
     = fst (merge_incremental ten_bars fresh_batch)).
Proof.
  split.
  - destruct (update_bars_full_fetch_or_merge
                (engine_on (calm_venue []) three_bars [])) as [Hcold _].
    assert (Hlen : (List.length three_bars < 10)%nat) by (simpl; lia).
    destruct (Hcold Hlen) as [Hcalls Hfetch].
    destruct (Hfetch ten_bars (calm_venue []) eq_refl) as [_ Hbars].
    split; [exact Hlen|]. split; [exact Hcalls | exact Hbars].
  - destruct (update_bars_full_fetch_or_merge
                (engine_on (calm_venue []) ten_bars [])) as [_ Hwarm].
    assert (Hlen : (10 <= List.length ten_bars)%nat) by (simpl; lia).
    destruct (Hwarm Hlen) as [Hcalls Hmerge].
    destruct (Hmerge fresh_batch (calm_venue []) eq_refl) as [Hbars _].
    split; [exact Hlen|]. split; [exact Hcalls | exact Hbars].
Defined.

(** C7, as stated, fails.  The connection is open and the instrument fetch
    raises: the constructor raises after the calls [is_open] and
    [get_instrument], and [alive] is true, not false. *)
Lemma init_failure_leaves_alive_set :
  fst (ex_is_open no_instrument_venue) = Val true /\
  fst (init demo_settings no_instrument_venue)
    = Raise (OtherException "instrument fetch failed") /\
  calls (snd (init demo_settings no_instrument_venue))
    = [CallIsOpen; CallGetInstrument] /\
  alive (snd (init demo_settings no_instrument_venue)) = true /\
  engine_state (snd (init demo_settings no_instrument_venue)) <> Stopped.
Proof.
  repeat split. discriminate.
Qed.

(** [init_raises_alive_or_stops_when_closed] on a venue whose bar fetch
    raises: the strategy's [prepare] has returned, the cold bar fetch
    raises, and so does the constructor, with [alive] true. *)
Lemma init_propagation_witness :
  fst (ex_get_bars 60 0 no_bars_venue) = Raise (OtherException "bar fetch failed") /\
  fst (init demo_settings no_bars_venue) = Raise (OtherException "bar fetch failed") /\
  alive (snd (init demo_settings no_bars_venue)) = true.
Proof.
  destruct (init_raises_alive_or_stops_when_closed demo_settings no_bars_venue)
    as (_ & _ & _ & _ & Hopen & _).
  destruct (Hopen no_bars_venue eq_refl) as [_ Hfetched].
  destruct (Hfetched xbt no_bars_venue eq_refl) as [_ Hsteps].
  destruct (Hsteps [call_bot BotPrepare bot_prepare] (set_bars [] ;; update_bars)
              _ _ _ _ eq_refl eq_refl eq_refl) as [E Hal].
  rewrite E. split; [reflexivity|]. split; [reflexivity | exact Hal].
Defined.

(** The constructor with a strategy whose [init] raises: every call of the
    sequence has been made, the constructor raises, [alive] is true. *)
Example init_on_failing_init_venue :
  fst (init demo_settings failing_init_venue)
    = Raise (OtherException "strategy init failed") /\
  alive (snd (init demo_settings failing_init_venue)) = true /\
  calls (snd (init demo_settings failing_init_venue))
    = [CallIsOpen; CallGetInstrument; BotPrepare; CallGetBars 60 0;
       CallUpdateAccount; CallGetOrders; BotReset; BotInit].
Proof. repeat split. Qed.

(** The constructor on a closed venue, and on a calm one. *)
Example init_on_closed_venue :
  fst (init demo_settings closed_venue) = Val tt /\
  alive (snd (init demo_settings closed_venue)) = false /\
  calls (snd (init demo_settings closed_venue)) = [CallIsOpen].
Proof. repeat split. Qed.

Example init_on_calm_venue :
  fst (init demo_settings (calm_venue [])) = Val tt /\
  alive (snd (init demo_settings (calm_venue []))) = true /\
  bars (snd (init demo_settings (calm_venue []))) = ten_bars /\
  calls (snd (init demo_settings (calm_venue [])))
    = [CallIsOpen; CallGetInstrument; BotPrepare; CallGetBars 60 0;
       CallUpdateAccount; CallGetOrders; BotReset; BotInit].
Proof. repeat split. Qed.

(** [closed_connection_stops_engine] on an engine whose venue reports a
    closed connection at the evaluation of clock reading 6, with another
    evaluation to come. *)
Lemma closed_connection_witness :
  exists st',
    loop_from [at_six; at_twelve] 0%Q (engine_on closed_venue ten_bars []) = (Val tt, st') /\
    alive st' = false /\
    engine_state st' = Stopped /\
    calls st' = calls (engine_on closed_venue ten_bars []) ++ [CallIsOpen; CallExit] /\
    (forall more last', loop_from more last' st' = (Val tt, st')) /\
    exit st' = (Val tt, st').
Proof.
  apply (closed_connection_stops_engine
           (engine_on closed_venue ten_bars []) at_six [at_twelve] 0%Q closed_venue).
  - reflexivity.
  - reflexivity.
  - reflexivity.
  - intros e [=].
Defined.

(** C9, as stated, fails.  The connectivity check of the evaluation at
    clock reading 6 returns closed and the gateway's [exit] is interrupted:
    no clause of [exit] catches the interrupt, so it leaves the loop after
    the calls [is_open] and [exit], and [alive] is true, not false. *)
Lemma interrupted_exit_leaves_engine_alive :
  alive (engine_on interrupted_exit_venue ten_bars []) = true /\
  fst (ex_is_open interrupted_exit_venue) = Val false /\
  fst (ex_exit interrupted_exit_venue) = Raise KeyboardInterrupt /\
  fst (loop_from [at_six; at_twelve] 0%Q (engine_on interrupted_exit_venue ten_bars []))
    = Raise KeyboardInterrupt /\
  calls (snd (loop_from [at_six; at_twelve] 0%Q
                (engine_on interrupted_exit_venue ten_bars [])))
    = [CallIsOpen; CallExit] /\
  alive (snd (loop_from [at_six; at_twelve] 0%Q
                (engine_on interrupted_exit_venue ten_bars []))) = true /\
  engine_state (snd (loop_from [at_six; at_twelve] 0%Q
                       (engine_on interrupted_exit_venue ten_bars []))) <> Stopped.
Proof.
  repeat split. discriminate.
Qed.

(** The loop on a calm venue: the evaluation at 6 runs a tick, the one at
    12 another. *)
Example loop_on_calm_venue :
  calls (snd (run_loop [at_six; at_twelve] (engine_on (calm_venue []) ten_bars [])))
  = [CallIsOpen; CallRecentBars 60 0; CallUpdateAccount; CallGetOrders; BotOnTick;
     CallIsOpen; CallRecentBars 60 0; CallUpdateAccount; CallGetOrders; BotOnTick].
Proof. reflexivity. Qed.

(** The scenario of the trigger condition, computed: with the last
    execution at 0 and a push at 3, nothing at clock reading 4 or 5, a tick
    at 5.5. *)
Example trigger_scenario :
  trigger 5 4 0 3 = false /\ trigger 5 5 0 3 = false /\ trigger 5 5.5 0 3 = true.
Proof. repeat split. Qed.

End EngineExamples.

(** * Further properties *)

(** ** update_bars: the loop over the batch *)

Module BarMore.

Import Bars BarSpec BarFacts MoreSpec.

Lemma olds_nil (b : Bar) : olds b = [] <-> subbars b = [].
Proof.
  unfold olds. split; intros H.
  - rewrite <- (rev_involutive (subbars b)), H. reflexivity.
  - rewrite H. reflexivity.
Qed.

Lemma opening_valid (b : Bar) : olds b <> [] -> opening b = Some (start_ts b).
Proof.
  unfold opening, start_ts, py_last. fold (olds b).
  destruct (olds b); [contradiction | reflexivity].
Qed.

Lemma refine_head_opening (head b h' : Bar) :
  refine_head head b = Some h' -> opening h' = opening head.
Proof.
  intros Hr. apply refine_head_some in Hr. destruct Hr as (Hh & Hb & ->).
  rewrite !opening_valid by auto using refined_valid.
  rewrite refined_start by assumption. reflexivity.
Qed.

Lemma merge_step_grown (head : Bar) (older batch bars bars' : list Bar) (b : Bar) :
  In b batch ->
  grown_from head older batch bars ->
  merge_step bars b = Some bars' ->
  grown_from head older batch bars'.
Proof.
  intros Hb (front & h' & -> & Hts & Hop & Hfront).
  assert (Hin : In (tstamp b) (map tstamp batch)) by (apply in_map; exact Hb).
  destruct front as [|f front]; cbn [app merge_step].
  - destruct (tstamp b <? tstamp h') eqn:Hlt.
    + intros [= <-]. exists [], h'. auto.
    + destruct (tstamp b =? tstamp h') eqn:Heq.
      * destruct (refine_head h' b) as [x|] eqn:Hr; [|discriminate].
        intros [= <-]. exists [], x. repeat split; auto.
        -- rewrite (refine_head_tstamp _ _ _ Hr). apply Z.eqb_eq in Heq. lia.
        -- rewrite (refine_head_opening _ _ _ Hr). exact Hop.
      * intros [= <-]. exists [b], h'. repeat split; auto.
        constructor; [|constructor].
        apply Z.ltb_ge in Hlt. apply Z.eqb_neq in Heq. split; [lia | exact Hin].
  - inversion Hfront as [|? ? [Hf1 Hf2] Hfront']; subst.
    destruct (tstamp b <? tstamp f) eqn:Hlt.
    + intros [= <-]. exists (f :: front), h'. auto.
    + destruct (tstamp b =? tstamp f) eqn:Heq.
      * destruct (refine_head f b) as [x|] eqn:Hr; [|discriminate].
        intros [= <-]. exists (x :: front), h'. repeat split; auto.
        constructor; [|exact Hfront'].
        rewrite (refine_head_tstamp _ _ _ Hr). apply Z.eqb_eq in Heq.
        split; [lia | exact Hin].
      * intros [= <-]. exists (b :: f :: front), h'. repeat split; auto.
        constructor; [|exact Hfront].
        apply Z.ltb_ge in Hlt. apply Z.eqb_neq in Heq. split; [lia | exact Hin].
Qed.

Lemma merge_loop_grown (head : Bar) (older batch p bars : list Bar) :
  incl p batch ->
  grown_from head older batch bars ->
  grown_from head older batch (fst (merge_loop bars p)).
Proof.
  revert bars. induction p as [|b p IH]; intros bars Hincl Hg; simpl; [exact Hg|].
  destruct (merge_step bars b) as [bars'|] eqn:Hs; [|exact Hg].
  apply IH; [intros x Hx; apply Hincl; now right|].
  eapply merge_step_grown; [apply Hincl; now left | exact Hg | exact Hs].
Qed.

Lemma grown_from_start (head : Bar) (older batch : list Bar) :
  grown_from head older batch (head :: older).
Proof. exists [], head. auto. Qed.

Lemma grown_from_length (head : Bar) (older batch l : list Bar) :
  grown_from head older batch l ->
  (List.length (head :: older) <= List.length l)%nat.
Proof.
  intros (front & h' & -> & _). rewrite length_app. simpl. lia.
Qed.

(** X1.  A batch whose bars are all older than the stored head (an empty
    batch among them) leaves the stored sequence as it is, and the merge
    runs to its end. *)
Theorem stale_batch_changes_nothing (head : Bar) (older new_bars : list Bar) :
  Forall (fun b => tstamp b < tstamp head) new_bars ->
  merge_incremental (head :: older) new_bars = (head :: older, true).
Proof.
  unfold merge_incremental. intros Hall. apply Forall_rev in Hall.
  induction (rev new_bars) as [|b p IH]; [reflexivity|].
  inversion Hall as [|? ? Hb Hp]; subst.
  cbn [merge_loop merge_step].
  assert (E : (tstamp b <? tstamp head) = true) by (apply Z.ltb_lt; exact Hb).
  rewrite E. apply IH. exact Hp.
Qed.

(** X2.  Whatever the batch and however the merge ends, the bars behind the
    head's bucket are stored unchanged, the head's bucket is still stored
    in front of them with its bucket timestamp and the timestamp of its
    oldest sample, and every bar in front of it is newer and has the bucket
    timestamp of a bar of the batch. *)
Theorem merge_keeps_older_bars (head : Bar) (older new_bars : list Bar) :
  exists front h',
    fst (merge_incremental (head :: older) new_bars) = front ++ h' :: older /\
    tstamp h' = tstamp head /\
    opening h' = opening head /\
    Forall (fun f => tstamp head < tstamp f /\ In (tstamp f) (map tstamp new_bars))
           front.
Proof.
  unfold merge_incremental.
  apply (merge_loop_grown head older new_bars (rev new_bars) (head :: older)).
  - intros x Hx. apply in_rev. exact Hx.
  - apply grown_from_start.
Qed.

Lemma merge_loop_finishes (p : list Bar) (x : Bar) (rest : list Bar) :
  subbars x <> [] ->
  Forall (fun b => subbars b <> []) p ->
  snd (merge_loop (x :: rest) p) = true.
Proof.
  revert x rest. induction p as [|b p IH]; intros x rest Hx Hp; [reflexivity|].
  inversion Hp as [|? ? Hb Hp']; subst.
  cbn [merge_loop merge_step].
  destruct (tstamp b <? tstamp x).
  - apply IH; assumption.
  - destruct (tstamp b =? tstamp x).
    + rewrite refine_head_refined by (rewrite olds_nil; assumption).
      apply IH; [|exact Hp'].
      rewrite <- olds_nil. apply refined_valid; rewrite olds_nil; assumption.
    + apply IH; assumption.
Qed.

(** X3.  When the stored head and every bar of the batch carry at least one
    subbar, the merge runs to its end: no iteration raises. *)
Theorem merge_finishes_when_bars_carry_subbars
    (head : Bar) (older new_bars : list Bar) :
  subbars head <> [] ->
  Forall (fun b => subbars b <> []) new_bars ->
  snd (merge_incremental (head :: older) new_bars) = true.
Proof.
  intros Hh Hall. unfold merge_incremental.
  apply merge_loop_finishes; [exact Hh | apply Forall_rev; exact Hall].
Qed.

(** X4.  When the bar the loop takes first (the last of the batch) is of
    the head's bucket and it or the head carries no subbar, the merge
    raises at once: the stored sequence stays as it was and no other bar of
    the batch is looked at. *)
Theorem merge_raises_without_subbars
    (head b : Bar) (older earlier : list Bar) :
  tstamp b = tstamp head ->
  subbars b = [] \/ subbars head = [] ->
  merge_incremental (head :: older) (earlier ++ [b]) = (head :: older, false).
Proof.
  intros Hts Hempty. unfold merge_incremental. rewrite rev_unit.
  cbn [merge_loop merge_step].
  assert (E1 : (tstamp b <? tstamp head) = false) by (apply Z.ltb_ge; lia).
  assert (E2 : (tstamp b =? tstamp head) = true) by (apply Z.eqb_eq; lia).
  rewrite E1, E2.
  assert (Hn : refine_head head b = None).
  { apply refine_head_none. rewrite !olds_nil. tauto. }
  rewrite Hn. reflexivity.
Qed.

(** X5.  After a merge that ran to its end, the stored head is the newest
    bucket around: no bar of the batch and not the old head has a later
    bucket timestamp, and the head's bucket timestamp is the old head's or
    that of a bar of the batch. *)
Theorem merge_head_is_newest
    (head N : Bar) (older rest new_bars : list Bar) :
  merge_incremental (head :: older) new_bars = (N :: rest, true) ->
  tstamp head <= tstamp N /\
  Forall (fun b => tstamp b <= tstamp N) new_bars /\
  (tstamp N = tstamp head \/ In (tstamp N) (map tstamp new_bars)).
Proof.
  unfold merge_incremental. intros Hl.
  destruct (merge_loop_done _ _ _ _ Hl) as (N' & older' & E & Hall & Hle & Hcase).
  injection E as <- <-.
  split; [exact Hle|]. split.
  - apply Forall_forall. intros b Hb. rewrite Forall_forall in Hall.
    apply Hall. apply in_rev in Hb. exact Hb.
  - destruct Hcase as [[HN _] | [_ (c1 & cs & Ec & _)]]; [now left|].
    right. assert (Hin : In c1 (of_bucket (tstamp N) (rev new_bars)))
      by (rewrite Ec; now left).
    apply filter_In in Hin. destruct Hin as [Hin Hts].
    apply Z.eqb_eq in Hts. rewrite <- Hts. apply in_map. apply in_rev. exact Hin.
Qed.

End BarMore.

(** ** update_account: outcomes and passes *)

Module AccountMore.

Import Bars Accounts Engine EngineSpec AccountFacts MoreSpec.

Section WithVenue.

Context {W : Type} `{EX : ExchangeInterface W}.

(** [update_account] when the balance fetch raises. *)
Lemma update_account_fails_first (st : LiveTrading W) (e : exn) (w1 : W) :
  ex_update_account (account st) (env st) = (Raise e, w1) ->
  update_account st =
  (Raise e,
   mkLive (settings st) (last_tick st) (alive st) (symbolInfo st) (bars st)
          (account st) w1 (calls st ++ [CallUpdateAccount]) (logger st)).
Proof.
  intros H1. unfold update_account, bind, get, call. simpl. rewrite H1. reflexivity.
Qed.

(** [update_account] when the order fetch raises. *)
Lemma update_account_fails_second (st : LiveTrading W) (bal : Z) (e : exn)
    (w1 w2 : W) :
  ex_update_account (account st) (env st) = (Val bal, w1) ->
  ex_get_orders w1 = (Raise e, w2) ->
  update_account st =
  (Raise e,
   mkLive (settings st) (last_tick st) (alive st) (symbolInfo st) (bars st)
          {| balance := bal; open_orders := open_orders (account st);
             order_history := order_history (account st) |}
          w2 ((calls st ++ [CallUpdateAccount]) ++ [CallGetOrders]) (logger st)).
Proof.
  intros H1 H2. unfold update_account, bind, get, call, set_account. simpl.
  rewrite H1. simpl. rewrite H2. reflexivity.
Qed.

(** The three ways [update_account] can go. *)
Lemma update_account_cases (st : LiveTrading W) :
  (exists e w1, ex_update_account (account st) (env st) = (Raise e, w1)) \/
  (exists bal w1 e w2,
     ex_update_account (account st) (env st) = (Val bal, w1) /\
     ex_get_orders w1 = (Raise e, w2)) \/
  (exists bal w1 orders w2,
     ex_update_account (account st) (env st) = (Val bal, w1) /\
     ex_get_orders w1 = (Val orders, w2)).
Proof.
  destruct (ex_update_account (account st) (env st)) as [[bal | e] w1] eqn:H1.
  - destruct (ex_get_orders w1) as [[orders | e] w2] eqn:H2.
    + right. right. exists bal, w1, orders, w2. auto.
    + right. left. exists bal, w1, e, w2. auto.
  - left. exists e, w1. reflexivity.
Qed.

(** X8.  When both gateway calls return, the new open set is the active
    orders of the snapshot, in the snapshot's order, whatever was open
    before; the balance is the fetched one; and no order is both in the new
    open set and among the entries appended to the history. *)
Theorem update_account_open_set_is_active_part
    (st : LiveTrading W) (bal : Z) (w1 w2 : W) (orders : list Order) :
  ex_update_account (account st) (env st) = (Val bal, w1) ->
  ex_get_orders w1 = (Val orders, w2) ->
  exists st' appended,
    update_account st = (Val tt, st') /\
    balance (account st') = bal /\
    open_orders (account st') = filter active orders /\
    order_history (account st') = order_history (account st) ++ appended /\
    Forall (fun o => active o = true /\ In o orders) (open_orders (account st')) /\
    Forall (fun o => active o = false /\ In o orders) appended /\
    (forall o, In o (open_orders (account st')) -> ~ In o appended).
Proof.
  intros H1 H2.
  eexists. exists (filter (leaves_open_set (open_ids (account st))) orders).
  split; [apply (update_account_returns st bal w1 w2 orders H1 H2)|].
  simpl.
  assert (Hopen : Forall (fun o => active o = true /\ In o orders) (filter active orders)).
  { apply Forall_forall. intros o Ho. apply filter_In in Ho. tauto. }
  assert (Hclosed : Forall (fun o => active o = false /\ In o orders)
                      (filter (leaves_open_set (open_ids (account st))) orders)).
  { apply Forall_forall. intros o Ho. apply filter_In in Ho.
    destruct Ho as [Ho Hl]. apply leaves_open_set_iff in Hl. tauto. }
  repeat split; auto.
  intros o Ho Ha. rewrite Forall_forall in Hopen, Hclosed.
  destruct (Hopen _ Ho) as [Ht _]. destruct (Hclosed _ Ha) as [Hf _]. congruence.
Qed.

(** X9.  The order history is append-only: whether [update_account]
    returns or raises, the history it leaves is the one it found followed
    by the entries of this pass, and the log lines about orders it leaves
    are those it found followed by one line per appended entry, in the same
    order. *)
Theorem update_account_history_is_append_only (st : LiveTrading W) :
  exists appended,
    order_history (account (snd (update_account st)))
      = order_history (account st) ++ appended /\
    order_lines (logger (snd (update_account st)))
      = order_lines (logger st) ++ map order_line appended.
Proof.
  destruct (update_account_cases st)
    as [(e & w1 & H1) | [(bal & w1 & e & w2 & H1 & H2) | (bal & w1 & orders & w2 & H1 & H2)]].
  - rewrite (update_account_fails_first st e w1 H1). simpl.
    exists []. rewrite !app_nil_r. auto.
  - rewrite (update_account_fails_second st bal e w1 w2 H1 H2). simpl.
    exists []. rewrite !app_nil_r. auto.
  - rewrite (update_account_returns st bal w1 w2 orders H1 H2). simpl.
    eexists. split; [reflexivity|].
    rewrite order_lines_app, order_lines_map. reflexivity.
Qed.


Lemma filter_none {A : Type} (f : A -> bool) (l : list A) :
  (forall x, In x l -> f x = false) -> filter f l = [].
Proof.
  induction l as [|a l IH]; intros H; simpl; [reflexivity|].
  rewrite (H a (or_introl eq_refl)). apply IH. intros x Hx. apply H. now right.
Qed.


End WithVenue.

End AccountMore.

(** ** The engine's methods: outcomes and frames *)

Module EngineMore.

Import Bars Accounts Engine EngineSpec BarSpec BarFacts AccountFacts EngineFacts
  MoreSpec BarMore AccountMore.

Section WithVenue.

Context {W : Type} `{EX : ExchangeInterface W} `{BOT : TradingBot W}.

(** *** update_bars *)

Lemma update_bars_cold (st : LiveTrading W) :
  (List.length (bars st) < 10)%nat ->
  update_bars st =
  (let (r, w) := ex_get_bars (MINUTES_PER_BAR (settings st)) 0 (env st) in
   let st1 := with_call (CallGetBars (MINUTES_PER_BAR (settings st)) 0) w st in
   match r with
   | Val fetched => (Val tt, with_bars fetched st1)
   | Raise e => (Raise e, st1)
   end).
Proof.
  intros Hlen.
  assert (E : (List.length (bars st) <? 10)%nat = true) by (apply Nat.ltb_lt; exact Hlen).
  unfold update_bars, bind, get, call, set_bars. simpl. rewrite E.
  destruct (ex_get_bars _ _ _) as [[fetched | e] w]; reflexivity.
Qed.

Lemma update_bars_warm (st : LiveTrading W) :
  (10 <= List.length (bars st))%nat ->
  update_bars st =
  (let (r, w) := ex_recent_bars (MINUTES_PER_BAR (settings st)) 0 (env st) in
   let st1 := with_call (CallRecentBars (MINUTES_PER_BAR (settings st)) 0) w st in
   match r with
   | Val new_bars =>
       (if snd (merge_incremental (bars st) new_bars)
        then Val tt else Raise IndexError,
        with_bars (fst (merge_incremental (bars st) new_bars)) st1)
   | Raise e => (Raise e, st1)
   end).
Proof.
  intros Hlen.
  assert (E : (List.length (bars st) <? 10)%nat = false) by (apply Nat.ltb_ge; exact Hlen).
  unfold update_bars, bind, get, call, set_bars. simpl. rewrite E.
  destruct (ex_recent_bars _ _ _) as [[new_bars | e] w]; [|reflexivity].
  simpl. destruct (merge_incremental (bars st) new_bars) as [merged []]; reflexivity.
Qed.

(** What [update_bars] leaves alone, and the one call it makes. *)
Lemma update_bars_frame (st : LiveTrading W) :
  account (snd (update_bars st)) = account st /\
  logger (snd (update_bars st)) = logger st /\
  last_tick (snd (update_bars st)) = last_tick st /\
  settings (snd (update_bars st)) = settings st /\
  calls (snd (update_bars st)) = calls st ++ [bar_fetch (settings st) (bars st)].
Proof.
  unfold bar_fetch.
  destruct (Nat.ltb_spec (List.length (bars st)) 10) as [Hlen | Hlen].
  - rewrite (update_bars_cold st Hlen).
    destruct (ex_get_bars _ _ _) as [[fetched | e] w]; simpl; auto.
  - rewrite (update_bars_warm st Hlen).
    destruct (ex_recent_bars _ _ _) as [[new_bars | e] w]; simpl; auto.
Qed.

(** X12.  Once 10 bars are held, [update_bars] never stores fewer bars than
    it found, whatever the gateway returns and however the merge ends: the
    engine does not fall back to the full fetch. *)
Theorem update_bars_stays_incremental (st : LiveTrading W) :
  (10 <= List.length (bars st))%nat ->
  (List.length (bars st) <= List.length (bars (snd (update_bars st))))%nat /\
  bar_fetch (settings (snd (update_bars st))) (bars (snd (update_bars st)))
    = CallRecentBars (MINUTES_PER_BAR (settings st)) 0.
Proof.
  intros Hlen.
  assert (Hgrow : (List.length (bars st) <= List.length (bars (snd (update_bars st))))%nat).
  { rewrite (update_bars_warm st Hlen).
    destruct (ex_recent_bars _ _ _) as [[new_bars | e] w]; simpl; [|lia].
    destruct (bars st) as [|head older] eqn:Eb; [simpl in Hlen; lia|].
    apply (grown_from_length head older new_bars).
    unfold merge_incremental.
    apply merge_loop_grown; [intros x Hx; apply in_rev; exact Hx|].
    apply grown_from_start. }
  split; [exact Hgrow|].
  destruct (update_bars_frame st) as (_ & _ & _ & Hs & _).
  unfold bar_fetch. rewrite Hs.
  assert (E : (List.length (bars (snd (update_bars st))) <? 10)%nat = false)
    by (apply Nat.ltb_ge; lia).
  rewrite E. reflexivity.
Qed.

(** X13.  When the bar fetch raises, [update_bars] raises the same
    exception and the stored bars are the ones it found, in the full fetch
    as in the incremental one. *)
Theorem update_bars_fetch_failure_keeps_bars (st : LiveTrading W) (e : exn) :
  ((List.length (bars st) < 10)%nat /\
   fst (ex_get_bars (MINUTES_PER_BAR (settings st)) 0 (env st)) = Raise e) \/
  ((10 <= List.length (bars st))%nat /\
   fst (ex_recent_bars (MINUTES_PER_BAR (settings st)) 0 (env st)) = Raise e) ->
  fst (update_bars st) = Raise e /\
  bars (snd (update_bars st)) = bars st.
Proof.
  intros [[Hlen Hr] | [Hlen Hr]].
  - rewrite (update_bars_cold st Hlen).
    destruct (ex_get_bars _ _ _) as [[fetched | e'] w]; simpl in *;
      [discriminate | injection Hr as ->; auto].
  - rewrite (update_bars_warm st Hlen).
    destruct (ex_recent_bars _ _ _) as [[new_bars | e'] w]; simpl in *;
      [discriminate | injection Hr as ->; auto].
Qed.


(** *** update_account *)


Lemma update_account_frame (st : LiveTrading W) :
  bars (snd (update_account st)) = bars st /\
  alive (snd (update_account st)) = alive st /\
  last_tick (snd (update_account st)) = last_tick st /\
  settings (snd (update_account st)) = settings st /\
  (exists evs, calls (snd (update_account st)) = calls st ++ evs /\
               Forall (fun ev => ev = CallUpdateAccount \/ ev = CallGetOrders) evs /\
               (fst (update_account st) = Val tt ->
                evs = [CallUpdateAccount; CallGetOrders])) /\
  (exists lines, logger (snd (update_account st)) = logger st ++ lines /\
                 Forall is_order_line lines).
Proof.
  destruct (update_account_cases st)
    as [(e & w1 & H1) | [(bal & w1 & e & w2 & H1 & H2) | (bal & w1 & orders & w2 & H1 & H2)]].
  - rewrite (update_account_fails_first st e w1 H1). simpl.
    repeat split; auto.
    + exists [CallUpdateAccount]. repeat split; auto. discriminate.
    + exists []. rewrite app_nil_r. auto.
  - rewrite (update_account_fails_second st bal e w1 w2 H1 H2). simpl.
    repeat split; auto.
    + exists [CallUpdateAccount; CallGetOrders]. rewrite <- app_assoc.
      repeat split; auto.
    + exists []. rewrite app_nil_r. auto.
  - rewrite (update_account_returns st bal w1 w2 orders H1 H2). simpl.
    repeat split; auto.
    + exists [CallUpdateAccount; CallGetOrders]. rewrite <- app_assoc.
      repeat split; auto.
    + eexists. split; [reflexivity|].
      apply Forall_forall. intros l Hl. apply in_map_iff in Hl.
      destruct Hl as (x & <- & _). exact I.
Qed.

(** *** The strategy's callbacks *)

Lemma strategy_ran_refl (st : LiveTrading W) : strategy_ran st st.
Proof.
  repeat split; auto; exists []; rewrite app_nil_r; auto.
Qed.

Lemma strategy_ran_trans (st st1 st2 : LiveTrading W) :
  strategy_ran st st1 -> strategy_ran st1 st2 -> strategy_ran st st2.
Proof.
  intros (A1 & A2 & A3 & A4 & A5 & A6 & (r1 & Ac & Ar) & (s1 & Al & As))
         (B1 & B2 & B3 & B4 & B5 & B6 & (r2 & Bc & Br) & (s2 & Bl & Bs)).
  repeat split; try congruence.
  - exists (r1 ++ r2). rewrite Bc, Ac, app_assoc. split; [reflexivity|].
    apply Forall_app. split; assumption.
  - exists (s1 ++ s2). rewrite Bl, Al, app_assoc. split; [reflexivity|].
    apply Forall_app. split; assumption.
Qed.

(** A relay call, and a log line of the strategy, as steps of a callback. *)
Lemma relayed_ran {A : Type} (ev : event) (g : W -> Res A * W) (w : W)
    (st : LiveTrading W) :
  is_relay_call ev ->
  strategy_ran st (snd (call ev g (snd (set_env w st)))).
Proof.
  intros Hev. unfold call. cbn [set_env snd env]. destruct (g w) as [r w'].
  cbn [snd settings last_tick alive symbolInfo bars account calls logger].
  repeat split.
  - exists [ev]. split; [reflexivity | repeat constructor; exact Hev].
  - exists []. rewrite app_nil_r. auto.
Qed.

(** Whatever a callback of the strategy does, and however it ends, it
    leaves of the engine all but the call trace and the log as it was. *)
Lemma run_bot_ran {A : Type} (p : BotRun W A) (st : LiveTrading W) :
  strategy_ran st (snd (run_bot p st)).
Proof.
  revert st.
  induction p as [r w | o w k IH | o w k IH | i w k IH | line k IH];
    intros st; cbn [run_bot].
  - cbn [set_env snd]. repeat split; auto; exists []; rewrite app_nil_r; auto.
  - pose proof (relayed_ran (CallSendOrder o) (ex_send_order o) w st I) as Hs.
    unfold send_order.
    destruct (call (CallSendOrder o) (ex_send_order o) (snd (set_env w st)))
      as [r st']. cbn [snd] in Hs.
    eapply strategy_ran_trans; [exact Hs | apply IH].
  - pose proof (relayed_ran (CallUpdateOrder o) (ex_update_order o) w st I) as Hs.
    unfold update_order.
    destruct (call (CallUpdateOrder o) (ex_update_order o) (snd (set_env w st)))
      as [r st']. cbn [snd] in Hs.
    eapply strategy_ran_trans; [exact Hs | apply IH].
  - pose proof (relayed_ran (CallCancelOrder i) (ex_cancel_order i) w st I) as Hs.
    unfold cancel_order.
    destruct (call (CallCancelOrder i) (ex_cancel_order i) (snd (set_env w st)))
      as [r st']. cbn [snd] in Hs.
    eapply strategy_ran_trans; [exact Hs | apply IH].
  - eapply strategy_ran_trans; [|apply IH].
    cbn [log snd]. repeat split; auto.
    + exists []. rewrite app_nil_r. auto.
    + exists [LogStrategy line]. split; [reflexivity | repeat constructor].
Qed.

(** A call into the strategy: the call itself, then what the callback
    relays and says. *)
Lemma call_bot_ran {A : Type} (ev : event) (f : W -> BotRun W A)
    (st : LiveTrading W) :
  strategy_ran (with_call ev (env st) st) (snd (call_bot ev f st)).
Proof. unfold call_bot. apply run_bot_ran. Qed.

(** *** handle_tick *)

(** The four ways a tick can go. *)
Lemma handle_tick_cases (st : LiveTrading W) :
  handle_tick st =
  match update_bars st with
  | (Raise e, st1) => reraised e st1
  | (Val _, st1) =>
      match update_account st1 with
      | (Raise e, st2) => reraised e st2
      | (Val _, st2) =>
          match call_bot BotOnTick (bot_on_tick (bars st2) (account st2)) st2 with
          | (Raise e, st3) => reraised e st3
          | (Val _, st3) => (Val tt, with_bars (map clear_changed (bars st3)) st3)
          end
      end
  end.
Proof.
  unfold handle_tick, try_except, reraised. unfold bind at 1.
  destruct (update_bars st) as [[u1 | e] st1];
    [|destruct (is_Exception e); reflexivity].
  unfold bind at 1.
  destruct (update_account st1) as [[u2 | e] st2];
    [|destruct (is_Exception e); reflexivity].
  unfold bind at 1. unfold get at 1. unfold bind at 1. unfold get at 1.
  unfold bind at 1.
  destruct (call_bot BotOnTick (bot_on_tick (bars st2) (account st2)) st2)
    as [[u3 | e] st3]; [|destruct (is_Exception e); reflexivity].
  reflexivity.
Qed.

Lemma skipn_app_exact {A : Type} (a l : list A) :
  skipn (List.length a) (a ++ l) = l.
Proof.
  rewrite skipn_app, skipn_all, Nat.sub_diag. reflexivity.
Qed.

Lemma reraised_frame (e : exn) (st : LiveTrading W) :
  fst (reraised e st) = Raise e /\
  bars (snd (reraised e st)) = bars st /\
  account (snd (reraised e st)) = account st /\
  calls (snd (reraised e st)) = calls st /\
  logger (snd (reraised e st))
    = logger st ++ (if is_Exception e then [LogTickException e] else []).
Proof.
  unfold reraised. destruct (is_Exception e); simpl; rewrite ?app_nil_r; auto.
Qed.

(** X14.  A tick that returns has made these calls, in this order: the
    bar fetch, the balance fetch, the order fetch and the strategy's
    [on_tick], and after them only what the strategy handed to the order
    relay while its [on_tick] ran; it leaves every stored bar with
    [did_change] false. *)
Theorem handle_tick_success_clears_flags (st : LiveTrading W) :
  fst (handle_tick st) = Val tt ->
  Forall (fun b => did_change b = false) (bars (snd (handle_tick st))) /\
  exists relayed,
    Forall is_relay_call relayed /\
    calls (snd (handle_tick st))
      = calls st ++ [bar_fetch (settings st) (bars st);
                     CallUpdateAccount; CallGetOrders; BotOnTick] ++ relayed.
Proof.
  rewrite handle_tick_cases.
  destruct (update_bars_frame st) as (_ & _ & _ & _ & Hc1).
  destruct (update_bars st) as [[u1 | e] st1];
    [|unfold reraised; cbn [fst]; discriminate].
  destruct (update_account_frame st1) as (_ & _ & _ & _ & (evs & Hc2 & _ & Hev) & _).
  destruct (update_account st1) as [[[] | e] st2];
    [|unfold reraised; cbn [fst]; discriminate].
  pose proof (call_bot_ran BotOnTick (bot_on_tick (bars st2) (account st2)) st2)
    as Hran.
  destruct (call_bot BotOnTick (bot_on_tick (bars st2) (account st2)) st2)
    as [[u3 | e] st3]; [|unfold reraised; cbn [fst]; discriminate].
  intros _. cbn [fst snd with_bars bars calls] in *. split.
  - apply Forall_forall. intros b Hb. apply in_map_iff in Hb.
    destruct Hb as (x & <- & _). reflexivity.
  - destruct Hran as (_ & _ & _ & _ & _ & _ & (relayed & Hc3 & Hr) & _).
    exists relayed. split; [exact Hr|].
    rewrite Hc3. cbn [with_call calls]. rewrite Hc2, (Hev eq_refl), Hc1.
    rewrite <- !app_assoc. reflexivity.
Qed.


Lemma relay_call_not_on_tick (relayed : list event) :
  Forall is_relay_call relayed -> ~ In BotOnTick relayed.
Proof.
  intros Hr Hin. rewrite Forall_forall in Hr. exact (Hr _ Hin).
Qed.

(** X16.  The strategy's [on_tick] is among the calls of a tick exactly
    when the bar update and the account update before it both returned: a
    fetch or a merge that raises ends the tick before the strategy is
    called. *)
Theorem strategy_runs_only_after_both_updates (st : LiveTrading W) :
  In BotOnTick (new_calls st (snd (handle_tick st))) <->
  fst (update_bars st) = Val tt /\
  fst (update_account (snd (update_bars st))) = Val tt.
Proof.
  rewrite handle_tick_cases. unfold new_calls.
  destruct (update_bars_frame st) as (_ & _ & _ & _ & Hc1).
  assert (Hfetch : bar_fetch (settings st) (bars st) <> BotOnTick)
    by (unfold bar_fetch; destruct (_ <? _)%nat; discriminate).
  destruct (update_bars st) as [[[] | e] st1]; cbn [fst snd] in *.
  - destruct (update_account_frame st1) as (_ & _ & _ & _ & (evs & Hc2 & Hevs & _) & _).
    assert (Hno : ~ In BotOnTick evs).
    { intros Hin. rewrite Forall_forall in Hevs.
      destruct (Hevs _ Hin); discriminate. }
    destruct (update_account st1) as [[[] | e] st2]; cbn [fst snd] in *.
    + pose proof (call_bot_ran BotOnTick (bot_on_tick (bars st2) (account st2)) st2)
        as (_ & _ & _ & _ & _ & _ & (relayed & Hc3 & _) & _).
      cbn [with_call calls] in Hc3.
      assert (Hc : forall st3 : LiveTrading W,
                   calls st3 = (calls st2 ++ [BotOnTick]) ++ relayed ->
                   In BotOnTick (skipn (List.length (calls st)) (calls st3))).
      { intros st3 E. rewrite E, Hc2, Hc1, <- !app_assoc, skipn_app_exact.
        apply in_or_app. right. apply in_or_app. right. now left. }
      destruct (call_bot BotOnTick (bot_on_tick (bars st2) (account st2)) st2)
        as [[u3 | e] st3]; cbn [snd] in Hc3.
      * cbn [snd with_bars calls]. split; [auto | intros _; apply Hc; exact Hc3].
      * destruct (reraised_frame e st3) as (_ & _ & _ & F & _). rewrite F.
        split; [auto | intros _; apply Hc; exact Hc3].
    + destruct (reraised_frame e st2) as (_ & _ & _ & F & _). rewrite F.
      rewrite Hc2, Hc1, <- !app_assoc, skipn_app_exact. split.
      * intros Hin. exfalso. apply in_app_or in Hin.
        destruct Hin as [[Hin | []] | Hin]; [exact (Hfetch Hin) | exact (Hno Hin)].
      * intros [_ Hd]. discriminate.
  - destruct (reraised_frame e st1) as (_ & _ & _ & F & _). rewrite F.
    rewrite Hc1, skipn_app_exact. split.
    + intros [Hin | []]. exfalso. exact (Hfetch Hin).
    + intros [Hd _]. discriminate.
Qed.

(** X17.  A tick is not undone when it fails late: when the bar update
    returned and the account update raises, the tick raises that exception
    and the stored bars are the updated ones, the account's open set and
    history are as before the tick, and [did_change] flags are not
    cleared. *)
Theorem failed_account_update_keeps_updated_bars (st : LiveTrading W) (e : exn) :
  fst (update_bars st) = Val tt ->
  fst (update_account (snd (update_bars st))) = Raise e ->
  fst (handle_tick st) = Raise e /\
  bars (snd (handle_tick st)) = bars (snd (update_bars st)) /\
  open_orders (account (snd (handle_tick st))) = open_orders (account st) /\
  order_history (account (snd (handle_tick st))) = order_history (account st).
Proof.
  rewrite handle_tick_cases.
  destruct (update_bars_frame st) as (Hacc & _).
  destruct (update_bars st) as [[u1 | e1] st1]; cbn [fst snd] in *; [|discriminate].
  intros _ Hr.
  destruct (update_account_cases st1)
    as [(e' & w1 & H1) | [(bal & w1 & e' & w2 & H1 & H2) | (bal & w1 & orders & w2 & H1 & H2)]].
  - rewrite (update_account_fails_first st1 e' w1 H1) in *. cbn [fst] in Hr.
    injection Hr as ->.
    match goal with
    | |- context [reraised e ?s] =>
        destruct (reraised_frame e s) as (F1 & F2 & F3 & _)
    end.
    rewrite F1, F2, F3. cbn [bars account]. rewrite Hacc. auto.
  - rewrite (update_account_fails_second st1 bal e' w1 w2 H1 H2) in *. cbn [fst] in Hr.
    injection Hr as ->.
    match goal with
    | |- context [reraised e ?s] =>
        destruct (reraised_frame e s) as (F1 & F2 & F3 & _)
    end.
    rewrite F1, F2, F3. cbn [bars account open_orders order_history].
    rewrite Hacc. auto.
  - rewrite (update_account_returns st1 bal w1 w2 orders H1 H2) in Hr.
    discriminate.
Qed.

(** *** exit and the alive flag *)

(** X18.  [exit] swallows every [Exception] of the gateway's [exit]: it
    then returns with the engine stopped, and a second [exit] changes
    nothing.  It raises only an exception of the gateway's [exit] that is
    no [Exception], and then [alive] is still true.  In every case bars
    and account are as they were, and the gateway's [exit] has been called
    once when the engine was running and not at all when it was stopped. *)
Theorem exit_swallows_exceptions_and_stops (st : LiveTrading W) :
  bars (snd (exit st)) = bars st /\
  account (snd (exit st)) = account st /\
  calls (snd (exit st)) = calls st ++ (if alive st then [CallExit] else []) /\
  (alive st = false -> exit st = (Val tt, st)) /\
  ((forall e, fst (ex_exit (env st)) = Raise e -> is_Exception e = true) ->
     fst (exit st) = Val tt) /\
  (fst (exit st) = Val tt ->
     alive (snd (exit st)) = false /\
     exit (snd (exit st)) = (Val tt, snd (exit st))) /\
  (forall e, fst (exit st) = Raise e ->
     is_Exception e = false /\
     alive st = true /\
     fst (ex_exit (env st)) = Raise e /\
     alive (snd (exit st)) = true).
Proof.
  destruct (alive st) eqn:Hal.
  - assert (Hcases :
      (exists w1 lines,
         exit st =
         (Val tt, mkLive (settings st) (last_tick st) false (symbolInfo st)
                         (bars st) (account st) w1 (calls st ++ [CallExit])
                         (logger st ++ lines))) \/
      (exists e w1,
         is_Exception e = false /\ ex_exit (env st) = (Raise e, w1) /\
         exit st =
         (Raise e, mkLive (settings st) (last_tick st) true (symbolInfo st)
                          (bars st) (account st) w1 (calls st ++ [CallExit])
                          (logger st ++ [LogShutdown])))).
    { destruct (ex_exit (env st)) as [[[] | e] w1] eqn:Hx.
      - left. apply (exit_stops st Hal). rewrite Hx. intros e [=].
      - destruct (is_Exception e) eqn:He.
        + left. apply (exit_stops st Hal). rewrite Hx. intros e' [= <-]. exact He.
        + right. exists e, w1. repeat split; auto.
          apply (exit_interrupted st e w1 Hal Hx He). }
    destruct Hcases as [(w1 & lines & E) | (e & w1 & He & Hx & E)]; rewrite E;
      cbn [fst snd alive bars account calls].
    + split; [reflexivity|]. split; [reflexivity|]. split; [reflexivity|].
      split; [discriminate|]. split; [reflexivity|].
      split; [|discriminate].
      intros _. split; [reflexivity|]. apply exit_stopped. reflexivity.
    + split; [reflexivity|]. split; [reflexivity|]. split; [reflexivity|].
      split; [discriminate|].
      split; [intros Hex; rewrite Hx in Hex; specialize (Hex e eq_refl); congruence|].
      split; [discriminate|].
      intros e' [= <-]. rewrite Hx. auto.
  - rewrite (exit_stopped st Hal). cbn [fst snd]. rewrite app_nil_r.
    split; [reflexivity|]. split; [reflexivity|]. split; [reflexivity|].
    split; [reflexivity|]. split; [reflexivity|].
    split; [|discriminate].
    intros _. split; [exact Hal|]. apply exit_stopped. exact Hal.
Qed.

(** X19.  No method but [exit] changes [alive], and none starts a stopped
    engine again: the updates, a tick and the relay leave [alive] as it is,
    and the loop on a stopped engine returns at once without an evaluation,
    so an engine that is running after the loop was running before it. *)
Theorem only_exit_changes_alive (st : LiveTrading W) :
  alive (snd (update_bars st)) = alive st /\
  alive (snd (update_account st)) = alive st /\
  alive (snd (handle_tick st)) = alive st /\
  (forall o, alive (snd (send_order o st)) = alive st) /\
  (forall o, alive (snd (update_order o st)) = alive st) /\
  (forall i, alive (snd (cancel_order i st)) = alive st) /\
  (forall inputs last,
     alive st = false -> loop_from inputs last st = (Val tt, st)) /\
  (forall inputs last,
     alive (snd (loop_from inputs last st)) = true -> alive st = true).
Proof.
  split; [apply keeps_update_bars|].
  split; [apply keeps_update_account|].
  split; [apply keeps_handle_tick|].
  split; [intros o; apply keeps_call|].
  split; [intros o; apply keeps_call|].
  split; [intros i; apply keeps_call|].
  split; [intros inputs last Hal; apply loop_from_stopped; exact Hal|].
  intros inputs last Hl. destruct (alive st) eqn:Hal; [reflexivity|].
  rewrite (loop_from_stopped inputs last st Hal) in Hl. simpl in Hl. congruence.
Qed.

(** *** Initialization *)

Lemma ends_bind {A B : Type} (P R Q : LiveTrading W -> Prop)
    (m : M W A) (k : A -> M W B) :
  ends_in P m R ->
  (forall st, R st -> Q st) ->
  (forall a, ends_in R (k a) Q) ->
  ends_in P (bind m k) Q.
Proof.
  intros Hm HRQ Hk st HP. unfold bind. specialize (Hm st HP).
  destruct (m st) as [[a | e] st1]; simpl in *; [apply Hk; exact Hm | auto].
Qed.

Lemma ends_call {A : Type} (ev : event) (g : W -> Res A * W) :
  not_recent_bars ev ->
  ends_in no_history_no_merge (call ev g) no_history_no_merge.
Proof.
  intros Hev st [Hh Hc]. unfold call. destruct (g (env st)) as [r w]. simpl.
  split; [exact Hh|]. apply Forall_app. split; [exact Hc | repeat constructor; exact Hev].
Qed.

Lemma ends_call_bot {A : Type} (ev : event) (f : W -> BotRun W A) :
  not_recent_bars ev ->
  ends_in no_history_no_merge (call_bot ev f) no_history_no_merge.
Proof.
  intros Hev st [Hh Hc].
  destruct (call_bot_ran ev f st)
    as (_ & _ & _ & _ & _ & Ha & (relayed & Hcalls & Hr) & _).
  split; [rewrite Ha; exact Hh|].
  rewrite Hcalls. cbn [with_call calls].
  apply Forall_app. split.
  - apply Forall_app. split; [exact Hc | repeat constructor; exact Hev].
  - eapply Forall_impl; [|exact Hr]. intros [] Hx; try exact I; destruct Hx.
Qed.

Lemma ends_update_bars_empty :
  ends_in (fun st => no_history_no_merge st /\ bars st = [])
          update_bars no_history_no_merge.
Proof.
  intros st [[Hh Hc] Hb].
  destruct (update_bars_frame st) as (Ha & _ & _ & _ & Hcalls).
  split; [rewrite Ha; exact Hh|].
  rewrite Hcalls. apply Forall_app. split; [exact Hc|].
  unfold bar_fetch. rewrite Hb. simpl. repeat constructor.
Qed.

Lemma leaves_open_set_nil (o : Order) : leaves_open_set [] o = false.
Proof.
  unfold leaves_open_set, id_in. simpl. rewrite !andb_false_r. reflexivity.
Qed.


Lemma ends_update_account_fresh :
  ends_in (fun st => no_history_no_merge st /\ open_orders (account st) = [])
          update_account no_history_no_merge.
Proof.
  intros st [[Hh Hc] Ho]. split.
  - destruct (update_account_cases st)
      as [(e & w1 & H1) | [(bal & w1 & e & w2 & H1 & H2) | (bal & w1 & orders & w2 & H1 & H2)]].
    + rewrite (update_account_fails_first st e w1 H1). exact Hh.
    + rewrite (update_account_fails_second st bal e w1 w2 H1 H2). exact Hh.
    + rewrite (update_account_returns st bal w1 w2 orders H1 H2). simpl.
      unfold open_ids. rewrite Hh, Ho. simpl.
      apply filter_none. intros o _. apply leaves_open_set_nil.
  - destruct (update_account_frame st) as (_ & _ & _ & _ & (evs & Hcalls & Hevs & _) & _).
    rewrite Hcalls. apply Forall_app. split; [exact Hc|].
    eapply Forall_impl; [|exact Hevs]. simpl. intros ev [-> | ->]; exact I.
Qed.

(** X20.  Whatever the gateway and the strategy do during construction,
    the constructor leaves an empty order history, since no order was open
    before its reconciliation pass, and it never asks for recent bars: the
    first bar fetch is the full one. *)
Theorem init_records_no_history_and_fetches_in_full (s : Settings) (w : W) :
  order_history (account (snd (init s w))) = [] /\
  Forall not_recent_bars (calls (snd (init s w))).
Proof.
  unfold init.
  match goal with
  | |- context [snd (?m ?st0)] =>
      apply (fun H : ends_in no_history_no_merge m no_history_no_merge => H st0)
  end; [|split; [reflexivity | constructor]].
  assert (Hpure : forall (F : LiveTrading W -> LiveTrading W),
             (forall st, no_history_no_merge st -> no_history_no_merge (F st)) ->
             ends_in no_history_no_merge (fun st => (Val tt, F st)) no_history_no_merge)
    by (intros F HF st Hst; simpl; auto).
  assert (Hget : forall (A : Type) (f : LiveTrading W -> A),
             ends_in no_history_no_merge (get f) no_history_no_merge)
    by (intros A f st Hst; exact Hst).
  apply ends_bind with (R := no_history_no_merge);
    [apply Hpure; intros st Hst; exact Hst | auto | intros _].
  apply ends_bind with (R := no_history_no_merge);
    [apply ends_call; exact I | auto | intros opened].
  destruct opened; [|apply Hpure; intros st Hst; exact Hst].
  apply ends_bind with (R := no_history_no_merge);
    [apply Hpure; intros st Hst; exact Hst | auto | intros _].
  apply ends_bind with (R := no_history_no_merge);
    [apply ends_call; exact I | auto | intros sym].
  apply ends_bind with (R := no_history_no_merge);
    [apply Hpure; intros st Hst; exact Hst | auto | intros _].
  apply ends_bind with (R := no_history_no_merge);
    [apply ends_call_bot; exact I | auto | intros _].
  apply ends_bind with (R := fun st => no_history_no_merge st /\ bars st = []);
    [intros st Hst; simpl; split; [exact Hst | reflexivity] | tauto | intros _].
  apply ends_bind with (R := no_history_no_merge);
    [apply ends_update_bars_empty | auto | intros _].
  apply ends_bind
    with (R := fun st => no_history_no_merge st /\ open_orders (account st) = []);
    [intros st [_ Hc]; simpl; repeat split; exact Hc | tauto | intros _].
  apply ends_bind with (R := no_history_no_merge);
    [apply ends_update_account_fresh | auto | intros _].
  apply ends_bind with (R := no_history_no_merge);
    [apply ends_call_bot; exact I | auto | intros _].
  apply ends_bind with (R := no_history_no_merge); [apply Hget | auto | intros bs].
  apply ends_bind with (R := no_history_no_merge); [apply Hget | auto | intros acc].
  apply ends_call_bot. exact I.
Qed.



(** *** run_loop *)

Lemma handle_tick_calls (st : LiveTrading W) :
  exists evs,
    calls (snd (handle_tick st)) = calls st ++ evs /\
    Forall (tick_call (settings st) (bars st)) evs.
Proof.
  rewrite handle_tick_cases.
  destruct (update_bars_frame st) as (_ & _ & _ & _ & Hc1).
  assert (F1 : Forall (tick_call (settings st) (bars st))
                      [bar_fetch (settings st) (bars st)])
    by (repeat constructor).
  destruct (update_bars st) as [[u1 | e] st1]; cbn [snd] in Hc1.
  - destruct (update_account_frame st1) as (_ & _ & _ & _ & (evs & Hc2 & Hevs & _) & _).
    assert (F2 : Forall (tick_call (settings st) (bars st)) evs).
    { eapply Forall_impl; [|exact Hevs]. unfold tick_call. simpl. tauto. }
    destruct (update_account st1) as [[u2 | e] st2]; cbn [snd] in Hc2.
    + pose proof (call_bot_ran BotOnTick (bot_on_tick (bars st2) (account st2)) st2)
        as (_ & _ & _ & _ & _ & _ & (relayed & Hc3 & Hr) & _).
      cbn [with_call calls] in Hc3.
      exists ([bar_fetch (settings st) (bars st)] ++ evs ++ [BotOnTick] ++ relayed).
      split.
      * destruct (call_bot BotOnTick (bot_on_tick (bars st2) (account st2)) st2)
          as [[u3 | e] st3]; cbn [snd] in Hc3.
        -- cbn [snd with_bars calls]. rewrite Hc3, Hc2, Hc1, <- !app_assoc.
           reflexivity.
        -- destruct (reraised_frame e st3) as (_ & _ & _ & F & _).
           rewrite F, Hc3, Hc2, Hc1, <- !app_assoc. reflexivity.
      * apply Forall_app. split; [exact F1|]. apply Forall_app. split; [exact F2|].
        apply Forall_app. split.
        -- constructor; [unfold tick_call; tauto | constructor].
        -- eapply Forall_impl; [|exact Hr]. unfold tick_call. tauto.
    + exists ([bar_fetch (settings st) (bars st)] ++ evs). split.
      * destruct (reraised_frame e st2) as (_ & _ & _ & F & _).
        rewrite F, Hc2, Hc1, <- !app_assoc. reflexivity.
      * apply Forall_app. split; assumption.
  - exists [bar_fetch (settings st) (bars st)]. split; [|exact F1].
    destruct (reraised_frame e st1) as (_ & _ & _ & F & _). rewrite F. exact Hc1.
Qed.

(** X22.  An exception raised by a tick leaves the loop at once: the loop
    raises the same exception without another evaluation, the engine is as
    the tick left it, [alive] is still true and the gateway's [exit] is not
    called. *)
Theorem tick_exception_leaves_the_loop
    (st : LiveTrading W) (i : LoopInput) (rest : list LoopInput) (last : Q)
    (w1 : W) (e : exn) :
  alive st = true ->
  trigger (LOOP_INTERVAL (settings st)) (current i) last (seen_tick i st) = true ->
  ex_is_open (env st) = (Val true, w1) ->
  fst (handle_tick (after_check i w1 st)) = Raise e ->
  loop_from (i :: rest) last st = (Raise e, snd (handle_tick (after_check i w1 st))) /\
  alive (snd (loop_from (i :: rest) last st)) = true /\
  ~ In CallExit (new_calls st (snd (loop_from (i :: rest) last st))).
Proof.
  intros Hal Ht Ho Hr.
  assert (E : loop_from (i :: rest) last st
              = (Raise e, snd (handle_tick (after_check i w1 st)))).
  { cbn [loop_from]. unfold bind at 1. unfold get at 1. cbn [fst snd]. rewrite Hal.
    unfold bind at 1. rewrite (loop_body_tick i last st w1 Ht Ho).
    unfold bind at 1.
    destruct (handle_tick (after_check i w1 st)) as [[u | e'] st1]; simpl in *;
      [discriminate | injection Hr as ->; reflexivity]. }
  rewrite E. cbn [fst snd]. split; [reflexivity|]. split.
  - rewrite keeps_handle_tick. exact Hal.
  - destruct (handle_tick_calls (after_check i w1 st)) as (evs & Hc & Hevs).
    unfold new_calls. rewrite Hc. cbn [after_check calls].
    rewrite <- app_assoc, skipn_app_exact.
    intros [Hin | Hin]; [discriminate|].
    rewrite Forall_forall in Hevs. specialize (Hevs _ Hin).
    unfold tick_call, bar_fetch in Hevs.
    destruct Hevs as [Hx | [Hx | [Hx | [Hx | Hx]]]]; try discriminate;
      [|exact Hx].
    destruct (_ <? _)%nat in Hx; discriminate.
Qed.

Lemma last_in_or_default {A : Type} (l : list A) (d : A) :
  (l = [] /\ last l d = d) \/ In (last l d) l.
Proof.
  destruct l as [|a l]; [left; auto | right].
  destruct (exists_last (l := a :: l)) as (l' & z & E); [discriminate|].
  rewrite E, last_last. apply in_or_app. right. now left.
Qed.

Lemma loop_body_idle_state (i : LoopInput) (last : Q) (st : LiveTrading W) :
  trigger (LOOP_INTERVAL (settings st)) (current i) last (seen_tick i st) = false ->
  loop_body i last st =
  (Val last, mkLive (settings st) (seen_tick i st) (alive st) (symbolInfo st)
                    (bars st) (account st) (env st) (calls st) (logger st)).
Proof.
  intros Ht. unfold loop_body, bind. rewrite run_pushes_last.
  unfold get. simpl. unfold seen_tick in *. rewrite Ht. reflexivity.
Qed.

(** X23.  A loop in which nothing is due calls nothing.  When at every
    evaluation no more than the loop interval has passed since the last
    execution, and every push that arrives is less than 2 time units older
    than the latest evaluation ([horizon - 2] or later), then the loop
    makes no call, whatever the number of evaluations, and leaves bars and
    account as they were. *)
Theorem idle_loop_calls_nothing
    (inputs : list LoopInput) (last horizon : Q) (st : LiveTrading W) :
  (last_tick st <= last)%Q \/ (horizon - 2 <= last_tick st)%Q ->
  Forall (fun i => (current i - last <= LOOP_INTERVAL (settings st))%Q /\
                   (current i <= horizon)%Q /\
                   Forall (fun p => (horizon - 2 <= p)%Q) (pushes i)) inputs ->
  fst (loop_from inputs last st) = Val tt /\
  calls (snd (loop_from inputs last st)) = calls st /\
  bars (snd (loop_from inputs last st)) = bars st /\
  account (snd (loop_from inputs last st)) = account st /\
  alive (snd (loop_from inputs last st)) = alive st.
Proof.
  revert st. induction inputs as [|i inputs IH]; intros st Htick Hall.
  - simpl. auto.
  - inversion Hall as [|? ? (Hint & Hhor & Hpush) Hall']; subst.
    destruct (alive st) eqn:Hal.
    + assert (Hseen : (seen_tick i st <= last)%Q \/ (horizon - 2 <= seen_tick i st)%Q).
      { unfold seen_tick.
        destruct (last_in_or_default (pushes i) (last_tick st)) as [[_ ->] | Hin];
          [exact Htick|].
        right. rewrite Forall_forall in Hpush. auto. }
      assert (Ht : trigger (LOOP_INTERVAL (settings st)) (current i) last
                           (seen_tick i st) = false).
      { destruct (trigger _ _ _ _) eqn:E; [|reflexivity].
        apply trigger_iff in E. exfalso.
        destruct E as [E | [E1 E2]]; [lra|].
        destruct Hseen as [Hs | Hs]; lra. }
      set (st' := mkLive (settings st) (seen_tick i st) (alive st) (symbolInfo st)
                         (bars st) (account st) (env st) (calls st) (logger st)).
      assert (E : loop_from (i :: inputs) last st = loop_from inputs last st').
      { cbn [loop_from]. unfold bind at 1. unfold get at 1. cbn [fst snd]. rewrite Hal.
        unfold bind at 1. rewrite (loop_body_idle_state i last st Ht). reflexivity. }
      rewrite E.
      destruct (IH st') as (R1 & R2 & R3 & R4 & R5); [exact Hseen | exact Hall' |].
      rewrite R1, R2, R3, R4, R5. subst st'. simpl. auto.
    + rewrite (loop_from_stopped (i :: inputs) last st Hal). simpl. auto.
Qed.

End WithVenue.

End EngineMore.

(** ** The further properties on concrete inputs *)

Module MoreWitnesses.

Import Bars Accounts Engine EngineSpec BarSpec BarFacts AccountFacts EngineFacts
  Examples MoreSpec MoreExamples BarMore AccountMore EngineMore.

Lemma stale_batch_witness :
  Forall (fun b => tstamp b < tstamp (bar_of 600 [610; 600])) stale_batch /\
  merge_incremental ten_bars stale_batch = (ten_bars, true).
Proof.
  assert (H : Forall (fun b => tstamp b < tstamp (bar_of 600 [610; 600])) stale_batch)
    by (repeat constructor; simpl; lia).
  split; [exact H|].
  exact (stale_batch_changes_nothing (bar_of 600 [610; 600]) (tl ten_bars)
           stale_batch H).
Defined.

Lemma merge_finishes_witness :
  snd (merge_incremental ten_bars fresh_batch) = true.
Proof.
  apply (merge_finishes_when_bars_carry_subbars
           (bar_of 600 [610; 600]) (tl ten_bars) fresh_batch).
  - discriminate.
  - repeat constructor; discriminate.
Defined.

Lemma merge_raises_witness :
  merge_incremental ten_bars ([bar_of 660 [660]] ++ [hollow_bar]) = (ten_bars, false).
Proof.
  apply (merge_raises_without_subbars
           (bar_of 600 [610; 600]) hollow_bar (tl ten_bars) [bar_of 660 [660]]).
  - reflexivity.
  - left. reflexivity.
Defined.

Lemma merge_head_is_newest_witness :
  tstamp (bar_of 600 [610; 600]) <= tstamp (bar_of 660 [660]) /\
  Forall (fun b => tstamp b <= tstamp (bar_of 660 [660])) fresh_batch /\
  (tstamp (bar_of 660 [660]) = tstamp (bar_of 600 [610; 600]) \/
   In (tstamp (bar_of 660 [660])) (map tstamp fresh_batch)).
Proof.
  apply (merge_head_is_newest (bar_of 600 [610; 600]) (bar_of 660 [660])
           (tl ten_bars) (tl (fst (merge_incremental ten_bars fresh_batch)))
           fresh_batch).
  vm_compute. reflexivity.
Defined.

Lemma merge_keeps_order_witness :
  subbars_ordered (build 60 (sample 10) [sample 15; sample 40]) /\
  forall s, In s (subbars (build 60 (sample 10) [sample 15; sample 40])) ->
            In s (subbars early_head) \/ In s (subbars jumbled_incoming).
Proof.
  apply (merge_keeps_order early_head jumbled_incoming
           (build 60 (sample 10) [sample 15; sample 40]) []).
  - reflexivity.
  - unfold subbars_ordered. simpl. repeat constructor; lia.
  - discriminate.
  - unfold start_ts. simpl. lia.
  - vm_compute. reflexivity.
Defined.

Lemma merge_again_finishes_witness :
  merge_incremental (fst (merge_incremental ten_bars fresh_batch)) fresh_batch
  = merge_incremental ten_bars fresh_batch.
Proof.
  apply (update_bars_merge_again_finishes ten_bars fresh_batch).
  - repeat constructor; discriminate.
  - vm_compute. reflexivity.
Defined.

Lemma open_set_witness :
  exists st' appended,
    update_account reconciling = (Val tt, st') /\
    balance (account st') = 1000 /\
    open_orders (account st') = filter active snapshot /\
    order_history (account st') = order_history (account reconciling) ++ appended /\
    Forall (fun o => active o = true /\ In o snapshot) (open_orders (account st')) /\
    Forall (fun o => active o = false /\ In o snapshot) appended /\
    (forall o, In o (open_orders (account st')) -> ~ In o appended).
Proof.
  apply (update_account_open_set_is_active_part reconciling 1000
           (calm_venue snapshot) (calm_venue snapshot) snapshot);
    reflexivity.
Defined.



Lemma stays_incremental_witness :
  (List.length ten_bars
   <= List.length (bars (snd (update_bars (engine_on (calm_venue []) ten_bars [])))))%nat /\
  bar_fetch demo_settings
            (bars (snd (update_bars (engine_on (calm_venue []) ten_bars []))))
    = CallRecentBars 60 0.
Proof.
  assert (Hlen : (10 <= List.length (bars (engine_on (calm_venue []) ten_bars [])))%nat)
    by (simpl; lia).
  exact (update_bars_stays_incremental (engine_on (calm_venue []) ten_bars []) Hlen).
Defined.

Lemma fetch_failure_witness :
  fst (update_bars (engine_on no_bars_venue three_bars []))
    = Raise (OtherException "bar fetch failed") /\
  bars (snd (update_bars (engine_on no_bars_venue three_bars []))) = three_bars.
Proof.
  apply (update_bars_fetch_failure_keeps_bars
           (engine_on no_bars_venue three_bars [])).
  left. split; [simpl; lia | reflexivity].
Defined.

Lemma tick_success_witness :
  Forall (fun b => did_change b = false)
         (bars (snd (handle_tick (engine_on trading_venue ten_bars four_open)))) /\
  exists relayed,
    Forall is_relay_call relayed /\
    calls (snd (handle_tick (engine_on trading_venue ten_bars four_open)))
      = calls (engine_on trading_venue ten_bars four_open) ++
        [bar_fetch (settings (engine_on trading_venue ten_bars four_open))
                   (bars (engine_on trading_venue ten_bars four_open));
         CallUpdateAccount; CallGetOrders; BotOnTick] ++ relayed.
Proof.
  apply (handle_tick_success_clears_flags
           (engine_on trading_venue ten_bars four_open)).
  reflexivity.
Defined.

(** A tick with a strategy that places two orders: its calls and what it
    logs. *)
Example tick_on_trading_venue :
  calls (snd (handle_tick (engine_on trading_venue ten_bars four_open)))
    = [CallRecentBars 60 0; CallUpdateAccount; CallGetOrders; BotOnTick;
       CallSendOrder resting_order; CallSendOrder (was_open "e5")] /\
  logger (snd (handle_tick (engine_on trading_venue ten_bars four_open)))
    = [LogOrder (order_line filled_order); LogOrder (order_line canceled_order);
       LogStrategy "placing an order"; LogStrategy "placing an order"].
Proof. split; reflexivity. Qed.

(** A tick whose balance fetch is interrupted: the interrupt leaves the
    tick, nothing is logged and the strategy is not called. *)
Example tick_on_interrupted_venue :
  fst (handle_tick (engine_on interrupted_venue ten_bars four_open))
    = Raise KeyboardInterrupt /\
  logger (snd (handle_tick (engine_on interrupted_venue ten_bars four_open))) = [] /\
  calls (snd (handle_tick (engine_on interrupted_venue ten_bars four_open)))
    = [CallRecentBars 60 0; CallUpdateAccount].
Proof. repeat split. Qed.

(** [exit] on a venue whose [exit] fails with an [Exception], and on one
    whose [exit] raises [SystemExit]. *)
Example exit_on_failing_venues :
  fst (exit (engine_on unwilling_venue ten_bars [])) = Val tt /\
  alive (snd (exit (engine_on unwilling_venue ten_bars []))) = false /\
  logger (snd (exit (engine_on unwilling_venue ten_bars [])))
    = [LogShutdown; LogUnableToExit (OtherException "exit failed")] /\
  fst (exit (engine_on interrupted_venue ten_bars [])) = Raise SystemExit /\
  alive (snd (exit (engine_on interrupted_venue ten_bars []))) = true /\
  logger (snd (exit (engine_on interrupted_venue ten_bars []))) = [LogShutdown].
Proof. repeat split. Qed.

Lemma failed_account_update_witness :
  fst (handle_tick (engine_on no_balance_venue ten_bars four_open))
    = Raise (OtherException "balance fetch failed") /\
  bars (snd (handle_tick (engine_on no_balance_venue ten_bars four_open)))
    = bars (snd (update_bars (engine_on no_balance_venue ten_bars four_open))) /\
  open_orders (account (snd (handle_tick (engine_on no_balance_venue ten_bars four_open))))
    = four_open /\
  order_history (account (snd (handle_tick (engine_on no_balance_venue ten_bars four_open))))
    = [].
Proof.
  apply (failed_account_update_keeps_updated_bars
           (engine_on no_balance_venue ten_bars four_open)
           (OtherException "balance fetch failed")); reflexivity.
Defined.


Lemma tick_exception_witness :
  loop_from [at_six; at_twelve] 0%Q (engine_on no_orders_venue ten_bars [])
    = (Raise (OtherException "order fetch failed"),
       snd (handle_tick (after_check at_six no_orders_venue
                           (engine_on no_orders_venue ten_bars [])))) /\
  alive (snd (loop_from [at_six; at_twelve] 0%Q
                (engine_on no_orders_venue ten_bars []))) = true /\
  ~ In CallExit
       (new_calls (engine_on no_orders_venue ten_bars [])
          (snd (loop_from [at_six; at_twelve] 0%Q
                  (engine_on no_orders_venue ten_bars [])))).
Proof.
  apply (tick_exception_leaves_the_loop (engine_on no_orders_venue ten_bars [])
           at_six [at_twelve] 0%Q no_orders_venue
           (OtherException "order fetch failed")); reflexivity.
Defined.

Lemma idle_loop_witness :
  fst (loop_from quiet_inputs 0%Q (engine_on (calm_venue []) ten_bars [])) = Val tt /\
  calls (snd (loop_from quiet_inputs 0%Q (engine_on (calm_venue []) ten_bars []))) = [] /\
  bars (snd (loop_from quiet_inputs 0%Q (engine_on (calm_venue []) ten_bars [])))
    = ten_bars /\
  account (snd (loop_from quiet_inputs 0%Q (engine_on (calm_venue []) ten_bars [])))
    = account (engine_on (calm_venue []) ten_bars []) /\
  alive (snd (loop_from quiet_inputs 0%Q (engine_on (calm_venue []) ten_bars [])))
    = true.
Proof.
  apply (idle_loop_calls_nothing quiet_inputs 0%Q 4%Q
           (engine_on (calm_venue []) ten_bars [])).
  - left. simpl. unfold Qle. simpl. lia.
  - repeat constructor; simpl; unfold Qle; simpl; lia.
Defined.

End MoreWitnesses.
